(** * certd/node-acme-client: the auto-mode orchestrator and the challenge verifier

    A shallow embedding of

    - [src/unnamed/part_000]: the batch orchestrator (provision every
      record, wait, verify, clean up), module [Batch];
    - [src/src/auto.js]: the inline orchestrator (create, verify and
      clean up inside one task per domain), module [Inline];
    - [src/unnamed/part_001]: the http-01 and dns-01 verifiers, module
      [Verify].

    JavaScript strings are sequences of UTF-16 code units, thrown values
    are JavaScript values, and every call that leaves the module (the
    ACME client, the CSR parser, the two hooks, axios, dns, the logger,
    the timer) is an oracle over an abstract world whose call and outcome
    are recorded in a trace. *)

From Stdlib Require Import ZArith NArith List String Ascii Decimal DecimalString Bool Lia.
From stdpp Require Import base list sorting.
Import ListNotations.

(** ** JavaScript strings *)

Module Js.

(** A string is its list of UTF-16 code units. *)
Definition jsstring : Type := list N.

(** An ASCII literal of the source, as code units. *)
Definition lit (s : string) : jsstring :=
  map N_of_ascii (list_ascii_of_string s).

(** Decimal rendering of a non-negative integer inside a template
    literal. *)
Definition ofNat (n : nat) : jsstring :=
  lit (NilEmpty.string_of_uint (Nat.to_uint n)).

Arguments lit : simpl never.
Arguments ofNat : simpl never.

Definition eqb (s t : jsstring) : bool := bool_decide (s = t).
Arguments eqb : simpl never.

(** The regular expression class [\s]: WhiteSpace and LineTerminator of
    ECMAScript. *)
Definition isWhiteSpace (c : N) : bool :=
  match c with
  | 9%N | 10%N | 11%N | 12%N | 13%N | 32%N | 160%N
  | 5760%N | 8232%N | 8233%N | 8239%N | 8287%N | 12288%N | 65279%N => true
  | _ => ((8192 <=? c) && (c <=? 8202))%N
  end.

(** [s.replace(/\s+$/, '')]: the match is the longest run of white space
    that reaches the end of the string. *)
Fixpoint stripEnd (s : jsstring) : jsstring :=
  match s with
  | [] => []
  | c :: s' =>
      match stripEnd s' with
      | [] => if isWhiteSpace c then [] else [c]
      | t => c :: t
      end
  end.

(** [hay.includes(needle)], used to say that a message names a domain. *)
Fixpoint startsWith (needle hay : jsstring) : bool :=
  match needle, hay with
  | [], _ => true
  | _ :: _, [] => false
  | a :: needle', b :: hay' => (a =? b)%N && startsWith needle' hay'
  end.

Fixpoint includes (needle hay : jsstring) : bool :=
  startsWith needle hay ||
  match hay with
  | [] => false
  | _ :: hay' => includes needle hay'
  end.

(** [arr.indexOf(x)] on an array of strings: the first index holding a
    string equal to [x], or [-1]. *)
Fixpoint indexOfFrom (i : Z) (arr : list jsstring) (x : jsstring) : Z :=
  match arr with
  | [] => (-1)%Z
  | y :: arr' => if eqb y x then i else indexOfFrom (i + 1)%Z arr' x
  end.

Definition indexOf (arr : list jsstring) (x : jsstring) : Z :=
  indexOfFrom 0%Z arr x.

(** Values that cross a [throw] or reject a promise.  [VError name msg]
    is an instance of [Error] with those [name] and [message]; any other
    value can be thrown as well. *)
Inductive jsval : Type :=
| VUndefined
| VNull
| VString (s : jsstring)
| VError (name message : jsstring).

#[export] Instance jsval_eq_dec : EqDecision jsval.
Proof. solve_decision. Defined.

Definition instanceofError (v : jsval) : bool :=
  match v with VError _ _ => true | _ => false end.

Definition truthy (v : jsval) : bool :=
  match v with
  | VUndefined | VNull => false
  | VString s => negb (eqb s [])
  | VError _ _ => true
  end.

Definition nullish (v : jsval) : bool :=
  match v with VUndefined | VNull => true | _ => false end.

(** [Error.prototype.toString]. *)
Definition errorToString (name message : jsstring) : jsstring :=
  if eqb name [] then message
  else if eqb message [] then name
  else name ++ lit ": " ++ message.

(** [String(v)]. *)
Definition toString (v : jsval) : jsstring :=
  match v with
  | VUndefined => lit "undefined"
  | VNull => lit "null"
  | VString s => s
  | VError name message => errorToString name message
  end.

(** [new Error(m)]: the message is [String(m)], and there is none when
    [m] is [undefined]. *)
Definition newError (m : jsval) : jsval :=
  VError (lit "Error")
    match m with
    | VUndefined => []
    | _ => toString m
    end.

Definition Error (message : jsstring) : jsval := VError (lit "Error") message.
Definition TypeError (message : jsstring) : jsval := VError (lit "TypeError") message.

(** Completion of a call: a value or a thrown value. *)
Inductive outcome (A : Type) : Type :=
| Ok (a : A)
| Throw (v : jsval).
Arguments Ok {A} a.
Arguments Throw {A} v.

Definition isOk {A} (r : outcome A) : bool :=
  match r with Ok _ => true | Throw _ => false end.

End Js.

Import Js.

(** ** Effects: an abstract world and a trace of the calls made *)

Section Effects.
Context {World Event : Type}.

  (** A computation reads and updates the world of the collaborators,
      appends the events it causes, and returns or throws. *)
Definition M (A : Type) : Type := World -> outcome A * World * list Event.

Definition ret {A} (a : A) : M A := fun w => (Ok a, w, []).
Definition throw {A} (v : jsval) : M A := fun w => (Throw v, w, []).

Definition bind {A B} (m : M A) (k : A -> M B) : M B := fun w =>
    match m w with
    | (Ok a, w1, t1) => let '(r, w2, t2) := k a w1 in (r, w2, t1 ++ t2)
    | (Throw v, w1, t1) => (Throw v, w1, t1)
    end.

Definition emit (e : Event) : M unit := fun w => (Ok tt, w, [e]).

  (** A call to a collaborator [f], recorded with its outcome. *)
Definition call {A} (f : World -> outcome A * World)
      (ev : outcome A -> Event) : M A := fun w =>
    let '(r, w1) := f w in (r, w1, [ev r]).

  (** [try { m } catch (e) { h e }]. *)
Definition tryCatch {A} (m : M A) (h : jsval -> M A) : M A := fun w =>
    match m w with
    | (Ok a, w1, t1) => (Ok a, w1, t1)
    | (Throw v, w1, t1) => let '(r, w2, t2) := h v w1 in (r, w2, t1 ++ t2)
    end.

  (** [try { m } finally { f }]: the completion of [m] stands unless [f]
      itself throws. *)
Definition tryFinally {A} (m : M A) (f : M unit) : M A := fun w =>
    let '(r, w1, t1) := m w in
    match f w1 with
    | (Ok _, w2, t2) => (r, w2, t1 ++ t2)
    | (Throw v, w2, t2) => (Throw v, w2, t1 ++ t2)
    end.

  (** [let x; try { x = first; rest x } finally { f x }]: inside [f] the
    variable is still [undefined] when [first] threw. *)
Definition tryFinallyLet {A B} (first : M B) (rest : B -> M A)
    (f : option B -> M unit) : M A := fun w =>
  match first w with
  | (Ok b, w1, t1) =>
      let '(r, w2, t2) := tryFinally (rest b) (f (Some b)) w1 in (r, w2, t1 ++ t2)
  | (Throw v, w1, t1) =>
      let '(r, w2, t2) := tryFinally (throw v) (f None) w1 in (r, w2, t1 ++ t2)
  end.

(** An asynchronous task run until its promise settles. *)
Definition settle {A} (m : M A) : M (outcome A) := fun w =>
  let '(r, w1, t1) := m w in (Ok r, w1, t1).

(** [array.map(async (x) => ...)]: the promises of tasks that are all
    started, none of which is cancelled by the failure of another.  The
    tasks are run one after the other in index order, each until its
    promise settles, every call inside them being atomic.  Real tasks
    interleave at their [await]s: the order in which a trace lists the
    events of different tasks is the model's own. *)
Fixpoint startAll {A} (tasks : list (M A)) : M (list (outcome A)) :=
  match tasks with
  | [] => ret []
  | m :: tasks' =>
      bind (settle m) (fun r =>
      bind (startAll tasks') (fun rs => ret (r :: rs)))
  end.

(** Joining settled promises: every value, or a rejection, the first in
    index order.  [Promise.all] rejects with the one that comes first in
    time, and its caller goes on while the other tasks still run. *)
Fixpoint joinAll {A} (rs : list (outcome A)) : outcome (list A) :=
  match rs with
  | [] => Ok []
  | Throw v :: _ => Throw v
  | Ok a :: rs' =>
      match joinAll rs' with
      | Ok l => Ok (a :: l)
      | Throw v => Throw v
      end
  end.

Definition ofOutcome {A} (r : outcome A) : M A := fun w => (r, w, []).

(** [await Promise.all(promises)]. *)
Definition PromiseAll {A} (promises : list (outcome A)) : M (list A) :=
  ofOutcome (joinAll promises).

Definition result {A} (x : outcome A * World * list Event) : outcome A := x.1.1.
Definition final {A} (x : outcome A * World * list Event) : World := x.1.2.
Definition trace {A} (x : outcome A * World * list Event) : list Event := x.2.

(** A computation is quiet for the projection [f] of events when none of
    the events it causes is kept by [f]. *)
Definition quiet {X} (f : Event -> option X) {A} (m : M A) : Prop :=
  forall w, omap f (trace (m w)) = [].

(** Two computations agree up to the projection [f] when, from every
    world, they end alike, in the same world, having caused the same
    events among those [f] keeps. *)
Definition agree {X} (f : Event -> option X) {A} (m1 m2 : M A) : Prop :=
  forall w,
    result (m1 w) = result (m2 w) /\
    final (m1 w) = final (m2 w) /\
    omap f (trace (m1 w)) = omap f (trace (m2 w)).
End Effects.

Arguments M : clear implicits.

Declare Scope js_scope.
Delimit Scope js_scope with js.
Notation "x <- m ;; k" := (bind m (fun x => k))
  (at level 100, m at next level, right associativity) : js_scope.
Notation "m ;; k" := (bind m (fun _ => k))
  (at level 100, right associativity) : js_scope.

Open Scope js_scope.

(** ** The ACME objects the two modules read *)

Module Identifier.
Record t : Type := mk { type : jsstring; value : jsstring }.
#[global] Instance eq_dec : EqDecision t.
Proof. solve_decision. Defined.
End Identifier.

Module Challenge.
Record t : Type := mk { type : jsstring; url : jsstring; token : jsstring }.
#[global] Instance eq_dec : EqDecision t.
Proof. solve_decision. Defined.
End Challenge.

Module Authz.
Record t : Type := mk { identifier : Identifier.t; challenges : list Challenge.t }.
#[global] Instance eq_dec : EqDecision t.
Proof. solve_decision. Defined.
End Authz.

(** ** The challenge verifier ([src/unnamed/part_001]) *)

Module Verify.

(** What [resp.data] can hold: a string, a falsy value (for which
    [resp.data || ''] is the empty string unless it is itself a string),
    or a truthy value that is no string and has no [replace] method. *)
Inductive respData : Type :=
| DString (s : jsstring)
| DFalsy
| DOther.

Record response : Type := { data : respData; status : nat }.

Inductive event : Type :=
| Log (msg : jsstring)
| AxiosGet (url : jsstring) (r : outcome response)
| ResolveCname (name : jsstring) (r : outcome (list jsstring))
| ResolveTxt (name : jsstring) (r : outcome (list (list jsstring))).

Section Verifier.
Context {World : Type}.

  (** The network as the module sees it: [axios.get], the configured
      [axios.defaults.acmeSettings.httpChallengePort], and the promisified
      [dns.resolveCname] and [dns.resolveTxt]. *)
Record network : Type := {
    axios_get : jsstring -> World -> outcome response * World;
    httpChallengePort : option nat;
    resolveCnameAsync : jsstring -> World -> outcome (list jsstring) * World;
    resolveTxtAsync : jsstring -> World -> outcome (list (list jsstring)) * World
  }.

Variable net : network.

Definition info (msg : jsstring) : M World event unit := emit (Log msg).

  (** [axios.defaults.acmeSettings.httpChallengePort || 80]. *)
Definition httpPort : nat :=
    match httpChallengePort net with
    | Some (S p) => S p
    | _ => 80
    end.

Definition defaultSuffix (challenge : Challenge.t) : jsstring :=
    lit "/.well-known/acme-challenge/" ++ Challenge.token challenge.

Definition challengeUrl (authz : Authz.t) (suffix : jsstring) : jsstring :=
    lit "http://" ++ Identifier.value (Authz.identifier authz) ++ lit ":"
      ++ ofNat httpPort ++ suffix.

Definition httpNotFound (authz : Authz.t) : jsval :=
    Error (lit "Authorization not found in HTTP response from "
             ++ Identifier.value (Authz.identifier authz)).

  (** The message of the [TypeError] thrown when [replace] is called on
      a value that has no such method; the engine prints the empty string
      of the source between double quotes (code unit 34). *)
Definition noReplace : jsstring :=
    lit "(resp.data || " ++ [34%N; 34%N] ++ lit ").replace is not a function".

  (** [(resp.data || '').replace(/\s+$/, '')]. *)
Definition stripData (d : respData) : M World event jsstring :=
    match d with
    | DString s => ret (stripEnd s)
    | DFalsy => ret (stripEnd [])
    | DOther => throw (TypeError noReplace)
    end.

Definition verifyHttpChallenge (authz : Authz.t) (challenge : Challenge.t)
      (keyAuthorization : jsstring) (suffix : option jsstring) : M World event bool :=
    let suffix := default (defaultSuffix challenge) suffix in
    let challengeUrl := challengeUrl authz suffix in
    info (lit "Sending HTTP query to " ++ Identifier.value (Authz.identifier authz)
            ++ lit ", suffix: " ++ suffix ++ lit ", port: " ++ ofNat httpPort) ;;
    resp <- call (axios_get net challengeUrl) (AxiosGet challengeUrl) ;;
    data <- stripData (data resp) ;;
    info (lit "Query successful, HTTP status code: " ++ ofNat (status resp)) ;;
    if eqb data [] || negb (eqb data keyAuthorization)
    then throw (httpNotFound authz)
    else
      info (lit "Key authorization match for " ++ Challenge.type challenge ++ lit "/"
              ++ Identifier.value (Authz.identifier authz)
              ++ lit ", ACME challenge verified") ;;
      ret true.

Definition dnsNotFound (authz : Authz.t) : jsval :=
    Error (lit "Authorization not found in DNS TXT records for "
             ++ Identifier.value (Authz.identifier authz)).

Definition verifyDnsChallenge (authz : Authz.t) (challenge : Challenge.t)
      (keyAuthorization : jsstring) (prefix : option jsstring) : M World event bool :=
    let prefix := default (lit "_acme-challenge.") prefix in
    info (lit "Resolving DNS TXT records for " ++ Identifier.value (Authz.identifier authz)
            ++ lit ", prefix: " ++ prefix) ;;
    let challengeRecord := prefix ++ Identifier.value (Authz.identifier authz) in
    challengeRecord <-
      tryCatch
        (info (lit "Checking CNAME for record " ++ challengeRecord) ;;
         cnameRecords <- call (resolveCnameAsync net challengeRecord)
                              (ResolveCname challengeRecord) ;;
         match cnameRecords with
         | c :: _ =>
             info (lit "CNAME found at " ++ challengeRecord
                     ++ lit ", new challenge record: " ++ c) ;;
             ret c
         | [] => ret challengeRecord
         end)
        (fun e =>
           info (lit "No CNAME found for record " ++ challengeRecord) ;;
           ret challengeRecord) ;;
    result <- call (resolveTxtAsync net challengeRecord) (ResolveTxt challengeRecord) ;;
    let records := concat result in
    info (lit "Query successful, found " ++ ofNat (length records)
            ++ lit " DNS TXT records") ;;
    if (indexOf records keyAuthorization =? -1)%Z
    then throw (dnsNotFound authz)
    else
      info (lit "Key authorization match for " ++ Challenge.type challenge ++ lit "/"
              ++ Identifier.value (Authz.identifier authz)
              ++ lit ", ACME challenge verified") ;;
      ret true.

  (** The exported table: [{'http-01': ..., 'dns-01': ...}]. *)
Definition verify (type : jsstring) :
      option (Authz.t -> Challenge.t -> jsstring -> M World event bool) :=
    if eqb type (lit "http-01") then
      Some (fun a c k => verifyHttpChallenge a c k None)
    else if eqb type (lit "dns-01") then
      Some (fun a c k => verifyDnsChallenge a c k None)
    else None.

  (** Projections of a trace. *)
Definition httpQueries (t : list event) : list jsstring :=
    omap (fun e => match e with AxiosGet u _ => Some u | _ => None end) t.
Definition cnameQueries (t : list event) : list jsstring :=
    omap (fun e => match e with ResolveCname n _ => Some n | _ => None end) t.
Definition txtQueries (t : list event) : list jsstring :=
    omap (fun e => match e with ResolveTxt n _ => Some n | _ => None end) t.
End Verifier.

Arguments network : clear implicits.

End Verify.

(** ** [Array.prototype.sort] *)

(** The comparator of the orchestrator is not a consistent comparison
    function in the sense of ECMAScript (it answers [1] when both types
    are missing from the priority list), so the order it yields is the
    engine's.  The model follows Node.js 11 and later (V8's
    [third_party/v8/builtins/array-sort.tq]): the leading run is counted
    and, when strictly descending, reversed, and the remaining elements
    are placed by binary insertion.  V8 runs exactly these two routines on
    arrays of fewer than 64 elements; longer arrays are cut into several
    such runs that are then merged, a stage the model leaves out by
    sorting every array as a single run. *)

Module Array.
Section Sort.
Context {A : Type}.
Variable comparefn : A -> A -> Z.

(** The loop of [CountAndMakeRun]: how many further elements continue the
    run that ends in [previousElement]. *)
Fixpoint runTail (isDescending : bool) (previousElement : A) (rest : list A) : nat :=
  match rest with
  | [] => 0
  | currentElement :: rest' =>
      let order := comparefn currentElement previousElement in
      if (if isDescending then (0 <=? order)%Z else (order <? 0)%Z) then 0
      else S (runTail isDescending currentElement rest')
  end.

(** [CountAndMakeRun(0, length)]: the length of the leading run and the
    array with that run made ascending. *)
Definition CountAndMakeRun (workArray : list A) : nat * list A :=
  match workArray with
  | [] => (0, workArray)
  | [_] => (1, workArray)
  | elementHigh :: elementLow :: rest =>
      let order := comparefn elementLow elementHigh in
      let isDescending := (order <? 0)%Z in
      let runLength := 2 + runTail isDescending elementLow rest in
      (runLength,
       if isDescending
       then rev (take runLength workArray) ++ drop runLength workArray
       else workArray)
  end.

(** The binary search of [BinaryInsertionSort] for the slot of [pivot] in
    [workArray[left, right)].  The interval shrinks on every turn, so
    [fuel] turns are enough when [right - left <= fuel]. *)
Fixpoint findSlot (fuel : nat) (workArray : list A) (pivot : A) (left right : nat) : nat :=
  match fuel with
  | 0 => left
  | S fuel' =>
      if left <? right then
        let mid := left + Nat.div2 (right - left) in
        match workArray !! mid with
        | Some x =>
            if (comparefn pivot x <? 0)%Z
            then findSlot fuel' workArray pivot left mid
            else findSlot fuel' workArray pivot (mid + 1) right
        | None => left
        end
      else left
  end.

(** One turn of the outer loop: [workArray[start]] slides down to its
    slot in [workArray[0, start)]. *)
Definition insertPivot (workArray : list A) (start : nat) : list A :=
  match workArray !! start with
  | None => workArray
  | Some pivot =>
      let left := findSlot start workArray pivot 0 start in
      take left workArray ++ pivot :: drop left (take start workArray)
        ++ drop (S start) workArray
  end.

(** [BinaryInsertionSort(0, start, start + count)]. *)
Fixpoint BinaryInsertionSort (count start : nat) (workArray : list A) : list A :=
  match count with
  | 0 => workArray
  | S count' => BinaryInsertionSort count' (S start) (insertPivot workArray start)
  end.

Definition sort (array : list A) : list A :=
  if length array <? 2 then array
  else
    let '(runLength, workArray) := CountAndMakeRun array in
    BinaryInsertionSort (length array - runLength) runLength workArray.
End Sort.

(** The order the sort is compared with: the stable sort by a numeric
    key, built by inserting each element behind those whose key is not
    greater, and the first of the elements with the least key. *)
Section ByKey.
Context {A : Type}.
Variable key : A -> nat.

Fixpoint insertByKey (x : A) (l : list A) : list A :=
  match l with
  | [] => [x]
  | y :: l' => if key x <? key y then x :: l else y :: insertByKey x l'
  end.

Definition stableSort (l : list A) : list A :=
  fold_left (fun acc x => insertByKey x acc) l [].

Fixpoint firstMin (l : list A) : option A :=
  match l with
  | [] => None
  | x :: l' =>
      match firstMin l' with
      | Some y => if key y <? key x then Some y else Some x
      | None => Some x
      end
  end.
End ByKey.
End Array.

(** ** Payloads exchanged with the collaborators *)

Module AccountPayload.
Record t : Type := mk { termsOfServiceAgreed : bool; contact : option (list jsstring) }.
End AccountPayload.

Module CsrDomains.
Record t : Type := mk { commonName : jsstring; altNames : list jsstring }.
End CsrDomains.

Module OrderPayload.
Record t : Type := mk { identifiers : list Identifier.t }.
End OrderPayload.

(** The aggregate [{ authz, keyAuthorization, domain, challenge }] of the
    batch orchestrator, to which provisioning adds [record]. *)
Module ChallengeInfo.
Record t (Rec : Type) : Type := mk {
  authz : Authz.t;
  keyAuthorization : jsstring;
  domain : jsstring;
  challenge : Challenge.t;
  record : option Rec
}.
Arguments mk {Rec}.
Arguments authz {Rec}.
Arguments keyAuthorization {Rec}.
Arguments domain {Rec}.
Arguments challenge {Rec}.
Arguments record {Rec}.
End ChallengeInfo.

(** ** What the two orchestrators share *)

Module Auto.

Inductive level : Type := info | error.

Section Auto.
Context {World Order Certificate Buffer Rec : Type}.

(** [opts.csr]: a [Buffer], a string still to be converted, or the
    default [null]. *)
Inductive csrInput : Type :=
| CsrBuffer (b : Buffer)
| CsrString (s : jsstring)
| CsrNull.

(** Calls that leave the orchestrator, each with its outcome, and the
    timer.  An argument is [None] where the source passes [undefined]. *)
Inductive event : Type :=
| Logger (l : level) (msg : jsstring) (arg : option jsval)
| Sleep (ms : N)
| GetAccountUrl (r : outcome jsstring)
| CreateAccount (p : AccountPayload.t) (r : outcome unit)
| ReadCsrDomains (csr : Buffer) (r : outcome CsrDomains.t)
| CreateOrder (p : OrderPayload.t) (r : outcome Order)
| GetAuthorizations (o : Order) (r : outcome (list Authz.t))
| GetChallengeKeyAuthorization (c : Challenge.t) (r : outcome jsstring)
| ChallengeCreateFn (a : Authz.t) (c : Challenge.t) (k : jsstring) (r : outcome Rec)
| VerifyChallenge (a : option Authz.t) (c : option Challenge.t) (r : outcome unit)
| CompleteChallenge (c : option Challenge.t) (r : outcome unit)
| WaitForValidStatus (c : option Challenge.t) (r : outcome unit)
| ChallengeRemoveFn (a : option Authz.t) (c : option Challenge.t)
    (k : option jsstring) (rec : option Rec) (r : outcome unit)
| FinalizeOrder (o : Order) (csr : Buffer) (r : outcome unit)
| GetCertificate (o : Order) (chain : option jsstring) (r : outcome Certificate).

(** The ACME client handed to [auto]. *)
Record client : Type := {
  getAccountUrl : World -> outcome jsstring * World;
  createAccount : AccountPayload.t -> World -> outcome unit * World;
  createOrder : OrderPayload.t -> World -> outcome Order * World;
  getAuthorizations : Order -> World -> outcome (list Authz.t) * World;
  getChallengeKeyAuthorization : Challenge.t -> World -> outcome jsstring * World;
  verifyChallenge : option Authz.t -> option Challenge.t -> World -> outcome unit * World;
  completeChallenge : option Challenge.t -> World -> outcome unit * World;
  waitForValidStatus : option Challenge.t -> World -> outcome unit * World;
  finalizeOrder : Order -> Buffer -> World -> outcome unit * World;
  getCertificate : Order -> option jsstring -> World -> outcome Certificate * World
}.

(** The modules required by the file: [forge.readCsrDomains] and
    [Buffer.from] on a string. *)
Record runtime : Type := {
  readCsrDomains : Buffer -> World -> outcome CsrDomains.t * World;
  Buffer_from : jsstring -> Buffer
}.

Definition createFn : Type :=
  Authz.t -> Challenge.t -> jsstring -> World -> outcome Rec * World.
Definition removeFn : Type :=
  option Authz.t -> option Challenge.t -> option jsstring -> option Rec ->
  World -> outcome unit * World.

Record opts : Type := {
  csr : csrInput;
  email : option jsstring;
  preferredChain : option jsstring;
  termsOfServiceAgreed : bool;
  skipChallengeVerification : bool;
  challengePriority : list jsstring;
  challengeCreateFn : createFn;
  challengeRemoveFn : removeFn
}.

Definition defaultOpts : opts := {|
  csr := CsrNull;
  email := None;
  preferredChain := None;
  termsOfServiceAgreed := false;
  skipChallengeVerification := false;
  challengePriority := [lit "http-01"; lit "dns-01"];
  challengeCreateFn := fun _ _ _ w => (Throw (Error (lit "Missing challengeCreateFn()")), w);
  challengeRemoveFn := fun _ _ _ _ w => (Throw (Error (lit "Missing challengeRemoveFn()")), w)
|}.

(** An own property of the [userOpts] object. *)
Inductive property : Type :=
| Csr (v : csrInput)
| Email (v : option jsstring)
| PreferredChain (v : option jsstring)
| TermsOfServiceAgreed (v : bool)
| SkipChallengeVerification (v : bool)
| ChallengePriority (v : list jsstring)
| ChallengeCreateFnP (v : createFn)
| ChallengeRemoveFnP (v : removeFn).

Definition setProperty (o : opts) (p : property) : opts :=
  match p with
  | Csr v => {| csr := v; email := email o; preferredChain := preferredChain o;
      termsOfServiceAgreed := termsOfServiceAgreed o;
      skipChallengeVerification := skipChallengeVerification o;
      challengePriority := challengePriority o;
      challengeCreateFn := challengeCreateFn o; challengeRemoveFn := challengeRemoveFn o |}
  | Email v => {| csr := csr o; email := v; preferredChain := preferredChain o;
      termsOfServiceAgreed := termsOfServiceAgreed o;
      skipChallengeVerification := skipChallengeVerification o;
      challengePriority := challengePriority o;
      challengeCreateFn := challengeCreateFn o; challengeRemoveFn := challengeRemoveFn o |}
  | PreferredChain v => {| csr := csr o; email := email o; preferredChain := v;
      termsOfServiceAgreed := termsOfServiceAgreed o;
      skipChallengeVerification := skipChallengeVerification o;
      challengePriority := challengePriority o;
      challengeCreateFn := challengeCreateFn o; challengeRemoveFn := challengeRemoveFn o |}
  | TermsOfServiceAgreed v => {| csr := csr o; email := email o;
      preferredChain := preferredChain o; termsOfServiceAgreed := v;
      skipChallengeVerification := skipChallengeVerification o;
      challengePriority := challengePriority o;
      challengeCreateFn := challengeCreateFn o; challengeRemoveFn := challengeRemoveFn o |}
  | SkipChallengeVerification v => {| csr := csr o; email := email o;
      preferredChain := preferredChain o; termsOfServiceAgreed := termsOfServiceAgreed o;
      skipChallengeVerification := v;
      challengePriority := challengePriority o;
      challengeCreateFn := challengeCreateFn o; challengeRemoveFn := challengeRemoveFn o |}
  | ChallengePriority v => {| csr := csr o; email := email o;
      preferredChain := preferredChain o; termsOfServiceAgreed := termsOfServiceAgreed o;
      skipChallengeVerification := skipChallengeVerification o;
      challengePriority := v;
      challengeCreateFn := challengeCreateFn o; challengeRemoveFn := challengeRemoveFn o |}
  | ChallengeCreateFnP v => {| csr := csr o; email := email o;
      preferredChain := preferredChain o; termsOfServiceAgreed := termsOfServiceAgreed o;
      skipChallengeVerification := skipChallengeVerification o;
      challengePriority := challengePriority o;
      challengeCreateFn := v; challengeRemoveFn := challengeRemoveFn o |}
  | ChallengeRemoveFnP v => {| csr := csr o; email := email o;
      preferredChain := preferredChain o; termsOfServiceAgreed := termsOfServiceAgreed o;
      skipChallengeVerification := skipChallengeVerification o;
      challengePriority := challengePriority o;
      challengeCreateFn := challengeCreateFn o; challengeRemoveFn := v |}
  end.

(** [Object.assign({}, defaultOpts, userOpts)]. *)
Definition assign (defaults : opts) (userOpts : list property) : opts :=
  fold_left setProperty userOpts defaults.

Variable rt : runtime.
Variable c : client.

Definition logger_info (msg : jsstring) : M World event unit :=
  emit (Logger info msg None).
Definition logger_error (msg : jsstring) (arg : jsval) : M World event unit :=
  emit (Logger error msg (Some arg)).

(** [sleep(time)]: a promise resolved by a timer after [time] ms. *)
Definition sleep (time : N) : M World event unit := emit (Sleep time).

(** [if (!Buffer.isBuffer(opts.csr)) opts.csr = Buffer.from(opts.csr)];
    [Buffer.from(null)] throws. *)
Definition csrBuffer (o : opts) : M World event Buffer :=
  match csr o with
  | CsrBuffer b => ret b
  | CsrString s => ret (Buffer_from rt s)
  | CsrNull =>
      throw (TypeError (lit "The first argument must be of type string or an instance of Buffer, ArrayBuffer, or Array or an Array-like Object. Received null"))
  end.

(** [accountPayload], with [contact] set under [if (opts.email)]. *)
Definition accountPayload (o : opts) : AccountPayload.t :=
  {| AccountPayload.termsOfServiceAgreed := termsOfServiceAgreed o;
     AccountPayload.contact :=
       match email o with
       | Some e => if eqb e [] then None else Some [lit "mailto:" ++ e]
       | None => None
       end |}.

(** Register account. *)
Definition registerAccount (o : opts) : M World event unit :=
  logger_info (lit "[auto] Checking account") ;;
  tryCatch
    (call (getAccountUrl c) GetAccountUrl ;;
     logger_info (lit "[auto] Account URL already exists, skipping account registration"))
    (fun e =>
       logger_info (lit "[auto] Registering account") ;;
       call (createAccount c (accountPayload o)) (CreateAccount (accountPayload o))).

(** Parse domains from CSR: [[csrDomains.commonName].concat(csrDomains.altNames)]. *)
Definition parseDomains (csr : Buffer) : M World event (list jsstring) :=
  logger_info (lit "[auto] Parsing domains from Certificate Signing Request") ;;
  csrDomains <- call (readCsrDomains rt csr) (ReadCsrDomains csr) ;;
  let domains := [CsrDomains.commonName csrDomains] ++ CsrDomains.altNames csrDomains in
  logger_info (lit "[auto] Resolved " ++ ofNat (length domains)
                 ++ lit " domains from parsing the Certificate Signing Request") ;;
  ret domains.

Definition orderPayload (domains : list jsstring) : OrderPayload.t :=
  {| OrderPayload.identifiers :=
       map (fun d => {| Identifier.type := lit "dns"; Identifier.value := d |}) domains |}.

(** Place order. *)
Definition placeOrder (domains : list jsstring) : M World event (Order * list Authz.t) :=
  logger_info (lit "[auto] Placing new certificate order with ACME provider") ;;
  order <- call (createOrder c (orderPayload domains)) (CreateOrder (orderPayload domains)) ;;
  authorizations <- call (getAuthorizations c order) (GetAuthorizations order) ;;
  logger_info (lit "[auto] Placed certificate order successfully, received "
                 ++ ofNat (length authorizations) ++ lit " identity authorizations") ;;
  ret (order, authorizations).

(** The comparator handed to [authz.challenges.sort]. *)
Definition byPriority (challengePriority : list jsstring) (a b : Challenge.t) : Z :=
  let aidx := indexOf challengePriority (Challenge.type a) in
  let bidx := indexOf challengePriority (Challenge.type b) in
  if (aidx =? -1)%Z then 1%Z
  else if (bidx =? -1)%Z then (-1)%Z
  else (aidx - bidx)%Z.

(** Position of a challenge type in the priority list, a type that is
    missing counting as the length of the list. *)
Definition rank (challengePriority : list jsstring) (a : Challenge.t) : nat :=
  let idx := indexOf challengePriority (Challenge.type a) in
  if (idx =? -1)%Z then length challengePriority else Z.to_nat idx.

Definition noChallenge (d : jsstring) : jsval :=
  Error (lit "Unable to select challenge for " ++ d ++ lit ", no challenge found").

(** Select challenge based on priority.  [sort] works in place, so the
    authorization that goes on is the one with the sorted array;
    [.slice(0, 1)[0]] is its first element, [undefined] when there is
    none. *)
Definition selectChallenge (challengePriority : list jsstring) (authz : Authz.t) :
    outcome (Authz.t * Challenge.t) :=
  let d := Identifier.value (Authz.identifier authz) in
  let sorted := Array.sort (byPriority challengePriority) (Authz.challenges authz) in
  let authz := {| Authz.identifier := Authz.identifier authz; Authz.challenges := sorted |} in
  match sorted with
  | [] => Throw (noChallenge d)
  | challenge :: _ => Ok (authz, challenge)
  end.

(** Finalize order and download certificate. *)
Definition finalize (o : opts) (order : Order) (csr : Buffer) : M World event Certificate :=
  logger_info (lit "[auto] Finalizing order and downloading certificate") ;;
  call (finalizeOrder c order csr) (FinalizeOrder order csr) ;;
  call (getCertificate c order (preferredChain o)) (GetCertificate order (preferredChain o)).

(** [e.message] inside a template literal. *)
Definition messageOf (e : jsval) : M World event jsstring :=
  match e with
  | VError _ message => ret message
  | VString _ => ret (lit "undefined")
  | VUndefined =>
      throw (TypeError (lit "Cannot read properties of undefined (reading 'message')"))
  | VNull =>
      throw (TypeError (lit "Cannot read properties of null (reading 'message')"))
  end.

(** The statements of [auto] that come before the challenges, as one
    computation: what both orchestrators do first. *)
Definition prepare (o : opts) : M World event (Buffer * Order * list Authz.t) :=
  csr <- csrBuffer o ;;
  registerAccount o ;;
  domains <- parseDomains csr ;;
  placed <- placeOrder domains ;;
  let '(order, authorizations) := placed in
  logger_info (lit "[auto] Resolving and satisfying authorization challenges") ;;
  ret (csr, order, authorizations).

(** Trigger [challengeRemoveFn()], suppress errors: the statements both
    orchestrators run for one removal. *)
Definition triggerRemove (o : opts) (domain : jsstring) (a : option Authz.t)
    (ch : option Challenge.t) (k : option jsstring) (r : option Rec) : M World event unit :=
  logger_info (lit "[auto] [" ++ domain ++ lit "] Trigger challengeRemoveFn()") ;;
  tryCatch
    (call (challengeRemoveFn o a ch k r) (ChallengeRemoveFn a ch k r))
    (fun e =>
       message <- messageOf e ;;
       logger_info (lit "[auto] [" ++ domain ++ lit "] challengeRemoveFn threw error: "
                      ++ message)).

(** [`${x}`] for a string that may be [undefined]. *)
Definition interpolate (x : option jsstring) : jsstring :=
  default (lit "undefined") x.

(** Hook calls seen in a trace: the arguments of every
    [challengeRemoveFn] call, those of every [challengeCreateFn] call,
    and, for the calls that returned a record, the arguments the matching
    removal is owed. *)
Definition removeCalls (t : list event) :
    list (option Authz.t * option Challenge.t * option jsstring * option Rec) :=
  omap (fun e => match e with
                 | ChallengeRemoveFn a ch k r _ => Some (a, ch, k, r)
                 | _ => None
                 end) t.

Definition createCalls (t : list event) :
    list (Authz.t * Challenge.t * jsstring * outcome Rec) :=
  omap (fun e => match e with
                 | ChallengeCreateFn a ch k r => Some (a, ch, k, r)
                 | _ => None
                 end) t.

(** The removal owed to a creation call that returned a record, and the
    value thrown by one that failed. *)
Definition removalOwed (call : Authz.t * Challenge.t * jsstring * outcome Rec) :
    option (option Authz.t * option Challenge.t * option jsstring * option Rec) :=
  match call with
  | (a, ch, k, Ok r) => Some (Some a, Some ch, Some k, Some r)
  | (_, _, _, Throw _) => None
  end.

Definition failureOf (call : Authz.t * Challenge.t * jsstring * outcome Rec) : option jsval :=
  match call with
  | (_, _, _, Ok _) => None
  | (_, _, _, Throw v) => Some v
  end.

Definition verifyCalls (t : list event) : list (option Authz.t * option Challenge.t) :=
  omap (fun e => match e with
                 | VerifyChallenge a ch _ => Some (a, ch)
                 | _ => None
                 end) t.

Definition completeCalls (t : list event) : list (option Challenge.t) :=
  omap (fun e => match e with
                 | CompleteChallenge ch _ => Some ch
                 | _ => None
                 end) t.

Definition createFailures (t : list event) : list jsval :=
  omap failureOf (createCalls t).

(** What the inline orchestrator passes to the removal that follows a
    creation call: the record, or [undefined] when the call failed. *)
Definition attempted (call : Authz.t * Challenge.t * jsstring * outcome Rec) :
    option Authz.t * option Challenge.t * option jsstring * option Rec :=
  match call with
  | (a, ch, k, Ok r) => (Some a, Some ch, Some k, Some r)
  | (a, ch, k, Throw _) => (Some a, Some ch, Some k, None)
  end.

Definition accountQueries (t : list event) : list (outcome jsstring) :=
  omap (fun e => match e with
                 | GetAccountUrl r => Some r
                 | _ => None
                 end) t.

Definition accountCalls (t : list event) : list (AccountPayload.t * outcome unit) :=
  omap (fun e => match e with
                 | CreateAccount p r => Some (p, r)
                 | _ => None
                 end) t.

Definition csrParses (t : list event) : list (outcome CsrDomains.t) :=
  omap (fun e => match e with
                 | ReadCsrDomains _ r => Some r
                 | _ => None
                 end) t.

Definition authorizationLists (t : list event) : list (list Authz.t) :=
  omap (fun e => match e with
                 | GetAuthorizations _ (Ok l) => Some l
                 | _ => None
                 end) t.

(** The timers awaited and the hook calls made, in the order of the
    trace. *)
Inductive tick : Type :=
| Timer (ms : N)
| CreateCall
| RemoveCall.

Definition timeline (t : list event) : list tick :=
  omap (fun e => match e with
                 | Sleep ms => Some (Timer ms)
                 | ChallengeCreateFn _ _ _ _ => Some CreateCall
                 | ChallengeRemoveFn _ _ _ _ _ => Some RemoveCall
                 | _ => None
                 end) t.

(** [n] hook calls, the one at index [i] behind a timer of [i * 2000]
    ms. *)
Definition staggered (hook : tick) (n : nat) : list tick :=
  flat_map (fun i => [Timer (N.of_nat i * 2000); hook]) (seq 0 n).

(** The events of the challenge phase: timers, hook calls, and the
    client's verification and completion calls. *)
Definition challengeEvent (e : event) : option event :=
  match e with
  | Sleep _ | ChallengeCreateFn _ _ _ _ | ChallengeRemoveFn _ _ _ _ _
  | VerifyChallenge _ _ _ | CompleteChallenge _ _ | WaitForValidStatus _ _ => Some e
  | _ => None
  end.

(** [e.message] where it can be read. *)
Definition messageText (e : jsval) : jsstring :=
  match e with
  | VError _ message => message
  | _ => lit "undefined"
  end.

(** A creation hook that fails with instances of [Error] only, and a
    removal hook that never fails with [undefined] or [null]. *)
Definition failsWithErrors (create : createFn) : Prop :=
  forall a ch k w e, (create a ch k w).1 = Throw e -> instanceofError e = true.

Definition failsReadably (remove : removeFn) : Prop :=
  forall a ch k r w e, (remove a ch k r w).1 = Throw e -> nullish e = false.

(** A hook whose failures are turned into normal returns, the world
    changing as it did. *)
Definition silenced (remove : removeFn) : removeFn :=
  fun a ch k r w => (Ok tt, (remove a ch k r w).2).

(** The options with the removal hook silenced. *)
Definition quieted (o : opts) : opts :=
  setProperty o (ChallengeRemoveFnP (silenced (challengeRemoveFn o))).

Definition orderCalls (t : list event) : list OrderPayload.t :=
  omap (fun e => match e with
                 | CreateOrder p _ => Some p
                 | _ => None
                 end) t.

(** What a run shows about the account: no registration when the account
    URL was there (or was never asked for); one registration with the
    payload of the options when asking for it threw, the run ending on
    that call, with its error, when the registration failed. *)
Definition accountOutcome (o : opts) {A} (x : outcome A * World * list event) : Prop :=
  match accountQueries (trace x) with
  | [] => accountCalls (trace x) = []
  | [Ok _] => accountCalls (trace x) = []
  | [Throw _] =>
      exists r,
        accountCalls (trace x) =
          [({| AccountPayload.termsOfServiceAgreed := termsOfServiceAgreed o;
               AccountPayload.contact :=
                 match email o with
                 | Some e => if eqb e [] then None else Some [lit "mailto:" ++ e]
                 | None => None
                 end |}, r)] /\
        match r with
        | Ok _ => True
        | Throw e =>
            result x = Throw e /\
            exists t0, trace x = t0 ++ [CreateAccount (accountPayload o) (Throw e)]
        end
  | _ => False
  end.

(** What a run shows about the order: when the CSR was parsed, one order
    for its common name followed by its alternative names, each as a
    [dns] identifier. *)
Definition orderOutcome {A} (x : outcome A * World * list event) : Prop :=
  forall commonName altNames,
    csrParses (trace x) = [Ok (CsrDomains.mk commonName altNames)] ->
    orderCalls (trace x) =
      [{| OrderPayload.identifiers :=
            map (Identifier.mk (lit "dns")) (commonName :: altNames) |}].

End Auto.

Arguments event : clear implicits.
Arguments client : clear implicits.
Arguments runtime : clear implicits.
Arguments opts : clear implicits.
Arguments property : clear implicits.
Arguments csrInput : clear implicits.
Arguments createFn : clear implicits.
Arguments removeFn : clear implicits.
Arguments tick : clear implicits.

End Auto.

(** ** The batch orchestrator ([src/unnamed/part_000]) *)

Module Batch.
Import Auto.

Section Batch.
Context {World Order Certificate Buffer Rec : Type}.
Abbreviation event := (Auto.event Order Certificate Buffer Rec).
Abbreviation opts := (Auto.opts World Buffer Rec).
Abbreviation challengeInfo := (ChallengeInfo.t Rec).
Variable rt : runtime World Buffer.
Variable c : client World Order Certificate Buffer.

(** An element of [challengeRecordInfos]: the aggregate of a domain whose
    record was created, or whatever [challengeCreateFn] threw. *)
Inductive item : Type :=
| Provisioned (challengeInfo : challengeInfo)
| Caught (e : jsval).

(** [item instanceof Error]. *)
Definition isError (i : item) : bool :=
  match i with
  | Provisioned _ => false
  | Caught e => instanceofError e
  end.

(** [item && !(item instanceof Error)]. *)
Definition isRecord (i : item) : bool :=
  match i with
  | Provisioned _ => true
  | Caught e => truthy e && negb (instanceofError e)
  end.

(** What the removal of an element is called with: the fields of the
    aggregate, or [undefined] four times for a caught value. *)
Definition removalArgs (i : item) :
    option Authz.t * option Challenge.t * option jsstring * option Rec :=
  match i with
  | Provisioned ci =>
      (Some (ChallengeInfo.authz ci), Some (ChallengeInfo.challenge ci),
       Some (ChallengeInfo.keyAuthorization ci), ChallengeInfo.record ci)
  | Caught _ => (None, None, None, None)
  end.

(** The removal owed to an element whose record was created. *)
Definition owed (i : item) :
    option (option Authz.t * option Challenge.t * option jsstring * option Rec) :=
  match i with
  | Provisioned _ => Some (removalArgs i)
  | Caught _ => None
  end.

Definition caught (i : item) : option jsval :=
  match i with
  | Provisioned _ => None
  | Caught e => Some e
  end.

(** The element of [challengeRecordInfos] that a creation call leaves
    for an aggregate, and the call as the trace shows it. *)
Definition itemOf (ci : challengeInfo) (r : outcome Rec) : item :=
  match r with
  | Ok record =>
      Provisioned {| ChallengeInfo.authz := ChallengeInfo.authz ci;
                     ChallengeInfo.keyAuthorization := ChallengeInfo.keyAuthorization ci;
                     ChallengeInfo.domain := ChallengeInfo.domain ci;
                     ChallengeInfo.challenge := ChallengeInfo.challenge ci;
                     ChallengeInfo.record := Some record |}
  | Throw e => Caught e
  end.

Definition callOf (ci : challengeInfo) (r : outcome Rec) :
    Authz.t * Challenge.t * jsstring * outcome Rec :=
  (ChallengeInfo.authz ci, ChallengeInfo.challenge ci, ChallengeInfo.keyAuthorization ci, r).

(** The removal that follows a creation call, as the [finally] block
    makes it: with the arguments of the call and the record it returned;
    with [undefined] four times when the call threw a value that passes
    [item && !(item instanceof Error)], a non-empty string for one; none
    when it threw an [Error], [undefined], [null] or the empty string. *)
Definition removalOf (call : Authz.t * Challenge.t * jsstring * outcome Rec) :
    option (option Authz.t * option Challenge.t * option jsstring * option Rec) :=
  match call with
  | (a, ch, k, Ok r) => Some (Some a, Some ch, Some k, Some r)
  | (_, _, _, Throw (VString s)) => if eqb s [] then None else Some (None, None, None, None)
  | (_, _, _, Throw _) => None
  end.

(** The task of [challengePromises] for one authorization. *)
Definition challengePromise (o : opts) (authz : Authz.t) : M World event challengeInfo :=
  let d := Identifier.value (Authz.identifier authz) in
  selected <- ofOutcome (selectChallenge (challengePriority o) authz) ;;
  let '(authz, challenge) := selected in
  logger_info (lit "[auto] [" ++ d ++ lit "] Found "
                 ++ ofNat (length (Authz.challenges authz))
                 ++ lit " challenges, selected type: " ++ Challenge.type challenge) ;;
  keyAuthorization <- call (getChallengeKeyAuthorization c challenge)
                           (GetChallengeKeyAuthorization challenge) ;;
  ret {| ChallengeInfo.authz := authz;
         ChallengeInfo.keyAuthorization := keyAuthorization;
         ChallengeInfo.domain := d;
         ChallengeInfo.challenge := challenge;
         ChallengeInfo.record := None |}.

(** The task of [challengeCreatePromises] for the aggregate at [index]:
    it never rejects, a failure of the hook becomes its value. *)
Definition challengeCreatePromise (o : opts) (index : nat) (challengeInfo : challengeInfo) :
    M World event item :=
  let domain := ChallengeInfo.domain challengeInfo in
  let authz := ChallengeInfo.authz challengeInfo in
  let challenge := ChallengeInfo.challenge challengeInfo in
  let keyAuthorization := ChallengeInfo.keyAuthorization challengeInfo in
  tryCatch
    (sleep (N.of_nat index * 2000) ;;
     logger_info (lit "[auto] [" ++ domain ++ lit "] Trigger challengeCreateFn()") ;;
     record <- call (challengeCreateFn o authz challenge keyAuthorization)
                    (ChallengeCreateFn authz challenge keyAuthorization) ;;
     ret (Provisioned {| ChallengeInfo.authz := authz;
                         ChallengeInfo.keyAuthorization := keyAuthorization;
                         ChallengeInfo.domain := domain;
                         ChallengeInfo.challenge := challenge;
                         ChallengeInfo.record := Some record |}))
    (fun e =>
       logger_error (lit "challengeCreate error") e ;;
       ret (Caught e)).

(** The properties read off an element of [challengeRecordInfos] by a
    destructuring pattern whose first name is [first]: those of the
    aggregate; [undefined] for a thrown string or [Error], which has none
    of them; a [TypeError] for [undefined] and [null]. *)
Record fields : Type := {
  f_authz : option Authz.t;
  f_challenge : option Challenge.t;
  f_keyAuthorization : option jsstring;
  f_record : option Rec;
  f_domain : option jsstring
}.

Definition destructure (first : jsstring) (i : item) : M World event fields :=
  match i with
  | Provisioned ci =>
      ret {| f_authz := Some (ChallengeInfo.authz ci);
             f_challenge := Some (ChallengeInfo.challenge ci);
             f_keyAuthorization := Some (ChallengeInfo.keyAuthorization ci);
             f_record := ChallengeInfo.record ci;
             f_domain := Some (ChallengeInfo.domain ci) |}
  | Caught (VString _) | Caught (VError _ _) =>
      ret {| f_authz := None; f_challenge := None; f_keyAuthorization := None;
             f_record := None; f_domain := None |}
  | Caught VUndefined =>
      throw (TypeError (lit "Cannot destructure property '" ++ first
                          ++ lit "' of 'challengeInfo' as it is undefined."))
  | Caught VNull =>
      throw (TypeError (lit "Cannot destructure property '" ++ first
                          ++ lit "' of 'challengeInfo' as it is null."))
  end.

(** The task of [verifys] for one element. *)
Definition verifyPromise (o : opts) (challengeInfo : item) : M World event unit :=
  f <- destructure (lit "domain") challengeInfo ;;
  let d := interpolate (f_domain f) in
  (if skipChallengeVerification o
   then logger_info (lit "[auto] [" ++ d
          ++ lit "] Skipping challenge verification since skipChallengeVerification=true")
   else
     logger_info (lit "[auto] [" ++ d ++ lit "] Running challenge verification") ;;
     call (verifyChallenge c (f_authz f) (f_challenge f))
          (VerifyChallenge (f_authz f) (f_challenge f))) ;;
  logger_info (lit "[auto] [" ++ d
                 ++ lit "] Completing challenge with ACME provider and waiting for valid status") ;;
  call (completeChallenge c (f_challenge f)) (CompleteChallenge (f_challenge f)) ;;
  call (waitForValidStatus c (f_challenge f)) (WaitForValidStatus (f_challenge f)).

(** The task of [willRemovePromises] for the element at [index] of the
    filtered array. *)
Definition removePromise (o : opts) (index : nat) (challengeInfo : item) : M World event unit :=
  sleep (N.of_nat index * 2000) ;;
  f <- destructure (lit "authz") challengeInfo ;;
  triggerRemove o (interpolate (f_domain f))
    (f_authz f) (f_challenge f) (f_keyAuthorization f) (f_record f).

(** The body of the [try]: stop on a caught [Error], else wait and
    verify. *)
Definition verifyAll (o : opts) (challengeRecordInfos : list item) : M World event unit :=
  let hasError := List.filter isError challengeRecordInfos in
  (match hasError with
   | [] => ret tt
   | Caught e :: _ => throw (newError e)
   | Provisioned _ :: _ => throw (newError (VString (lit "[object Object]")))
   end) ;;
  (* [auto] 等待30秒 *)
  logger_info (lit "[auto] " ++ [31561%N; 24453%N] ++ lit "30" ++ [31186%N]) ;;
  sleep 30000%N ;;
  verifys <- startAll (map (verifyPromise o) challengeRecordInfos) ;;
  logger_info (lit "[auto] Waiting for challenge valid status") ;;
  PromiseAll verifys ;;
  logger_info (lit "[auto] challenge verify success").

(** The [finally] block. *)
Definition removeAll (o : opts) (challengeRecordInfos : list item) : M World event unit :=
  willRemovePromises <-
    startAll (imap (removePromise o) (List.filter isRecord challengeRecordInfos)) ;;
  PromiseAll willRemovePromises ;;
  ret tt.

(** [try { ... } catch (e) { logger.error(..., e); throw e }]. *)
Definition verifyOrLog (o : opts) (challengeRecordInfos : list item) : M World event unit :=
  tryCatch
    (verifyAll o challengeRecordInfos)
    (fun e =>
       (* 申请时出错: *)
       logger_error [30003%N; 35831%N; 26102%N; 20986%N; 38169%N; 58%N] e ;;
       throw e).

(** [try { ... } catch (e) { ... } finally { ... }]. *)
Definition satisfy (o : opts) (challengeRecordInfos : list item) : M World event unit :=
  tryFinally (verifyOrLog o challengeRecordInfos) (removeAll o challengeRecordInfos).

Definition auto (userOpts : list (Auto.property World Buffer Rec)) : M World event Certificate :=
  let opts := assign defaultOpts userOpts in
  csr <- csrBuffer rt opts ;;
  registerAccount c opts ;;
  domains <- parseDomains rt csr ;;
  placed <- placeOrder c domains ;;
  let '(order, authorizations) := placed in
  logger_info (lit "[auto] Resolving and satisfying authorization challenges") ;;
  challengePromises <- startAll (map (challengePromise opts) authorizations) ;;
  challengeInfos <- PromiseAll challengePromises ;;
  challengeCreatePromises <- startAll (imap (challengeCreatePromise opts) challengeInfos) ;;
  challengeRecordInfos <- PromiseAll challengeCreatePromises ;;
  satisfy opts challengeRecordInfos ;;
  finalize c opts order csr.

(** The statements of [auto] from the challenges on, as one computation. *)
Definition issue (opts : opts) (csr : Buffer) (order : Order)
    (authorizations : list Authz.t) : M World event Certificate :=
  challengePromises <- startAll (map (challengePromise opts) authorizations) ;;
  challengeInfos <- PromiseAll challengePromises ;;
  challengeCreatePromises <- startAll (imap (challengeCreatePromise opts) challengeInfos) ;;
  challengeRecordInfos <- PromiseAll challengeCreatePromises ;;
  satisfy opts challengeRecordInfos ;;
  finalize c opts order csr.
End Batch.

Arguments item : clear implicits.

End Batch.

(** ** The inline orchestrator ([src/src/auto.js]) *)

Module Inline.
Import Auto.

Section Inline.
Context {World Order Certificate Buffer Rec : Type}.
Abbreviation event := (Auto.event Order Certificate Buffer Rec).
Abbreviation opts := (Auto.opts World Buffer Rec).
Variable rt : runtime World Buffer.
Variable c : client World Order Certificate Buffer.

(** The task of [challengePromises] for one authorization: select,
    create, verify, complete, and remove in the [finally] block. *)
Definition challengePromise (o : opts) (authz : Authz.t) : M World event unit :=
  let d := Identifier.value (Authz.identifier authz) in
  selected <- ofOutcome (selectChallenge (challengePriority o) authz) ;;
  let '(authz, challenge) := selected in
  logger_info (lit "[auto] [" ++ d ++ lit "] Found "
                 ++ ofNat (length (Authz.challenges authz))
                 ++ lit " challenges, selected type: " ++ Challenge.type challenge) ;;
  logger_info (lit "[auto] [" ++ d ++ lit "] Trigger challengeCreateFn()") ;;
  keyAuthorization <- call (getChallengeKeyAuthorization c challenge)
                           (GetChallengeKeyAuthorization challenge) ;;
  tryFinallyLet
    (call (challengeCreateFn o authz challenge keyAuthorization)
          (ChallengeCreateFn authz challenge keyAuthorization))
    (fun recordItem =>
       (if skipChallengeVerification o
        then logger_info (lit "[auto] [" ++ d
               ++ lit "] Skipping challenge verification since skipChallengeVerification=true")
        else
          logger_info (lit "[auto] [" ++ d ++ lit "] Running challenge verification") ;;
          call (verifyChallenge c (Some authz) (Some challenge))
               (VerifyChallenge (Some authz) (Some challenge))) ;;
       logger_info (lit "[auto] [" ++ d
                      ++ lit "] Completing challenge with ACME provider and waiting for valid status") ;;
       call (completeChallenge c (Some challenge)) (CompleteChallenge (Some challenge)) ;;
       call (waitForValidStatus c (Some challenge)) (WaitForValidStatus (Some challenge)))
    (fun recordItem =>
       triggerRemove o d (Some authz) (Some challenge) (Some keyAuthorization) recordItem).

Definition auto (userOpts : list (Auto.property World Buffer Rec)) : M World event Certificate :=
  let opts := assign defaultOpts userOpts in
  csr <- csrBuffer rt opts ;;
  registerAccount c opts ;;
  domains <- parseDomains rt csr ;;
  placed <- placeOrder c domains ;;
  let '(order, authorizations) := placed in
  logger_info (lit "[auto] Resolving and satisfying authorization challenges") ;;
  challengePromises <- startAll (map (challengePromise opts) authorizations) ;;
  logger_info (lit "[auto] Waiting for challenge valid status") ;;
  tryCatch
    (PromiseAll challengePromises)
    (fun e =>
       (* 验证出错： *)
       logger_error [39564%N; 35777%N; 20986%N; 38169%N; 65306%N] e ;;
       throw e) ;;
  finalize c opts order csr.

(** The statements of [auto] from the challenges on, as one computation. *)
Definition issue (opts : opts) (csr : Buffer) (order : Order)
    (authorizations : list Authz.t) : M World event Certificate :=
  challengePromises <- startAll (map (challengePromise opts) authorizations) ;;
  logger_info (lit "[auto] Waiting for challenge valid status") ;;
  tryCatch
    (PromiseAll challengePromises)
    (fun e =>
       logger_error [39564%N; 35777%N; 20986%N; 38169%N; 65306%N] e ;;
       throw e) ;;
  finalize c opts order csr.
End Inline.

End Inline.

(** ** A small order, used to run the code *)

Module Scenario.
Import Auto.

(** The server offers [dns-01] before [http-01] for [a.com], [dns-01]
    alone for [b.com], and only a type outside the default priority list
    for [c.com]. *)
Definition challenge (type domain : string) : Challenge.t :=
  {| Challenge.type := lit type;
     Challenge.url := lit "https://acme.test/chall/" ++ lit domain ++ lit "/" ++ lit type;
     Challenge.token := lit "token-" ++ lit domain |}.

Definition authorization (domain : string) (types : list string) : Authz.t :=
  {| Authz.identifier := {| Identifier.type := lit "dns"; Identifier.value := lit domain |};
     Authz.challenges := map (fun t => challenge t domain) types |}.

Definition authorizations : list Authz.t :=
  [authorization "a.com" ["dns-01"; "http-01"];
   authorization "b.com" ["dns-01"];
   authorization "c.com" ["tls-alpn-01"]]%string.

(** A client without an account yet, for which every call succeeds. *)
Definition client : Auto.client unit jsstring jsstring jsstring := {|
  getAccountUrl := fun w => (Throw (Error (lit "No account URL found, register account first")), w);
  createAccount := fun _ w => (Ok tt, w);
  createOrder := fun _ w => (Ok (lit "order-1"), w);
  getAuthorizations := fun _ w => (Ok authorizations, w);
  getChallengeKeyAuthorization := fun ch w => (Ok (Challenge.token ch ++ lit ".thumbprint"), w);
  verifyChallenge := fun _ _ w => (Ok tt, w);
  completeChallenge := fun _ w => (Ok tt, w);
  waitForValidStatus := fun _ w => (Ok tt, w);
  finalizeOrder := fun _ _ w => (Ok tt, w);
  getCertificate := fun _ _ w => (Ok (lit "certificate"), w)
|}.

(** The same client once the account exists. *)
Definition registeredClient : Auto.client unit jsstring jsstring jsstring := {|
  getAccountUrl := fun w => (Ok (lit "https://acme.test/acct/1"), w);
  createAccount := createAccount client;
  createOrder := createOrder client;
  getAuthorizations := getAuthorizations client;
  getChallengeKeyAuthorization := getChallengeKeyAuthorization client;
  verifyChallenge := verifyChallenge client;
  completeChallenge := completeChallenge client;
  waitForValidStatus := waitForValidStatus client;
  finalizeOrder := finalizeOrder client;
  getCertificate := getCertificate client
|}.

(** A client whose registration fails. *)
Definition refusingClient : Auto.client unit jsstring jsstring jsstring := {|
  getAccountUrl := getAccountUrl client;
  createAccount := fun _ w => (Throw (Error (lit "account creation refused")), w);
  createOrder := createOrder client;
  getAuthorizations := getAuthorizations client;
  getChallengeKeyAuthorization := getChallengeKeyAuthorization client;
  verifyChallenge := verifyChallenge client;
  completeChallenge := completeChallenge client;
  waitForValidStatus := waitForValidStatus client;
  finalizeOrder := finalizeOrder client;
  getCertificate := getCertificate client
|}.

Definition rt : Auto.runtime unit jsstring := {|
  readCsrDomains := fun _ w =>
    (Ok {| CsrDomains.commonName := lit "a.com";
           CsrDomains.altNames := [lit "b.com"; lit "c.com"] |}, w);
  Buffer_from := fun s => s
|}.

(** A creation hook that fails for [b.com], and a removal hook that
    always fails. *)
Definition createFn : Auto.createFn unit jsstring :=
  fun authz _ _ w =>
    if eqb (Identifier.value (Authz.identifier authz)) (lit "b.com")
    then (Throw (Error (lit "boom")), w)
    else (Ok (lit "record-" ++ Identifier.value (Authz.identifier authz)), w).

Definition removeFn : Auto.removeFn unit jsstring :=
  fun _ _ _ _ w => (Throw (Error (lit "gone")), w).

Definition userOpts : list (Auto.property unit jsstring jsstring) :=
  [Csr (CsrString (lit "-----BEGIN CERTIFICATE REQUEST-----"));
   Email (Some (lit "admin@a.com"));
   TermsOfServiceAgreed true;
   ChallengeCreateFnP createFn;
   ChallengeRemoveFnP removeFn].

(** The same options with a creation hook that never fails. *)
Definition workingOpts : list (Auto.property unit jsstring jsstring) :=
  userOpts ++
  [ChallengeCreateFnP
     (fun authz _ _ w => (Ok (lit "record-" ++ Identifier.value (Authz.identifier authz)), w))].

(** The network of the verifier: the challenge file of [a.com] is served
    with a trailing newline; [_acme-challenge.a.com] is an alias of
    [challenges.example.net], which holds two TXT records. *)
Definition keyAuthorization : jsstring := lit "token-a.com.thumbprint".

Definition net : Verify.network unit := {|
  Verify.axios_get := fun _ w =>
    (Ok {| Verify.data := Verify.DString (keyAuthorization ++ [10%N]); Verify.status := 200 |}, w);
  Verify.httpChallengePort := None;
  Verify.resolveCnameAsync := fun _ w => (Ok [lit "challenges.example.net"], w);
  Verify.resolveTxtAsync := fun name w =>
    if eqb name (lit "challenges.example.net")
    then (Ok [[lit "another-order.thumbprint"]; [keyAuthorization]], w)
    else (Ok [], w)
|}.

(** A network whose HTTP client gives up. *)
Definition unreachable : Verify.network unit := {|
  Verify.axios_get := fun _ w => (Throw (Error (lit "timeout of 10000ms exceeded")), w);
  Verify.httpChallengePort := None;
  Verify.resolveCnameAsync := Verify.resolveCnameAsync net;
  Verify.resolveTxtAsync := Verify.resolveTxtAsync net
|}.
End Scenario.

(** ** Further properties of computations *)

Section Completions.
Context {World Event : Type}.

(** A computation is clean for the projection [f] when its normal
    completion means that none of the events it caused is kept by [f].  *)
Definition clean {X} (f : Event -> option X) {A} (m : M World Event A) : Prop :=
  forall w, isOk (result (m w)) = true -> omap f (trace (m w)) = [].

(** The projections [f] and [g] are balanced in a computation when they
    keep the same values, in the same order, of the events it causes. *)
Definition balanced {X} (f g : Event -> option X) {A} (m : M World Event A) : Prop :=
  forall w, omap f (trace (m w)) = omap g (trace (m w)).

(** A computation stops at the events for which [f] gives a thrown
    value: such an event is the last one it causes, and the value is what
    it throws. *)
Definition stops (f : Event -> option jsval) {A} (m : M World Event A) : Prop :=
  forall w e v,
    In e (trace (m w)) -> f e = Some v ->
    result (m w) = Throw v /\ last (trace (m w)) = Some e.
End Completions.

(** ** Further projections of the trace of an attempt *)

Module Steps.
Import Auto.

Section Steps.
Context {Order Certificate Buffer Rec : Type}.
Abbreviation event := (Auto.event Order Certificate Buffer Rec).

(** The value thrown by a call to the ACME client or to the CSR parser.
    The query for the account URL is left out: that it throws is how
    [auto] learns that there is no account yet. *)
Definition failedCall (e : event) : option jsval :=
  match e with
  | CreateAccount _ (Throw v) | ReadCsrDomains _ (Throw v) | CreateOrder _ (Throw v)
  | GetAuthorizations _ (Throw v) | GetChallengeKeyAuthorization _ (Throw v)
  | VerifyChallenge _ _ (Throw v) | CompleteChallenge _ (Throw v)
  | WaitForValidStatus _ (Throw v) | FinalizeOrder _ _ (Throw v)
  | GetCertificate _ _ (Throw v) => Some v
  | _ => None
  end.

Definition failedCalls (t : list event) : list jsval := omap failedCall t.

(** The value thrown by one of the calls made before the challenges:
    the registration of the account, the parsing of the CSR, the creation
    of the order and the listing of its authorizations. *)
Definition failedPreparation (e : event) : option jsval :=
  match e with
  | CreateAccount _ (Throw v) | ReadCsrDomains _ (Throw v) | CreateOrder _ (Throw v)
  | GetAuthorizations _ (Throw v) => Some v
  | _ => None
  end.

(** The value thrown by a call to [challengeCreateFn]. *)
Definition failedCreation (e : event) : option jsval :=
  match e with
  | ChallengeCreateFn _ _ _ (Throw v) => Some v
  | _ => None
  end.

(** The challenges whose verification, and whose completion, returned. *)
Definition verified (e : event) : option (option Challenge.t) :=
  match e with
  | VerifyChallenge _ ch (Ok _) => Some ch
  | _ => None
  end.

Definition completed (e : event) : option (option Challenge.t) :=
  match e with
  | CompleteChallenge ch (Ok _) => Some ch
  | _ => None
  end.

(** The challenges handed to [completeChallenge] and to
    [waitForValidStatus]. *)
Definition completion (e : event) : option (option Challenge.t) :=
  match e with
  | CompleteChallenge ch _ => Some ch
  | _ => None
  end.

Definition waiting (e : event) : option (option Challenge.t) :=
  match e with
  | WaitForValidStatus ch _ => Some ch
  | _ => None
  end.

(** The challenge and the key authorization of a creation call, and
    those of a key authorization the client returned. *)
Definition hookKey (e : event) : option (Challenge.t * jsstring) :=
  match e with
  | ChallengeCreateFn _ ch k _ => Some (ch, k)
  | _ => None
  end.

Definition clientKey (e : event) : option (Challenge.t * jsstring) :=
  match e with
  | GetChallengeKeyAuthorization ch (Ok k) => Some (ch, k)
  | _ => None
  end.

(** The authorization and the challenge of a creation call that
    returned a record, as a verification call is handed them. *)
Definition provisioned (e : event) : option (option Authz.t * option Challenge.t) :=
  match e with
  | ChallengeCreateFn a ch _ (Ok _) => Some (Some a, Some ch)
  | _ => None
  end.

(** The calls that end an attempt. *)
Definition finalization (e : event) : option (Order * Buffer * outcome unit) :=
  match e with
  | FinalizeOrder order csr r => Some (order, csr, r)
  | _ => None
  end.

Definition download (e : event) : option (Order * option jsstring * outcome Certificate) :=
  match e with
  | GetCertificate order chain r => Some (order, chain, r)
  | _ => None
  end.

(** The orders the client created and the CSR buffers that were parsed. *)
Definition placed (e : event) : option Order :=
  match e with
  | CreateOrder _ (Ok order) => Some order
  | _ => None
  end.

Definition parsed (e : event) : option Buffer :=
  match e with
  | ReadCsrDomains csr (Ok _) => Some csr
  | _ => None
  end.

(** What a run shows about the end of an attempt.  Without a call to
    [finalizeOrder] no certificate is asked for and none is returned.
    Otherwise [finalizeOrder] was called once, for the order that was
    placed and with the CSR that was parsed; when it threw, the attempt
    ends with its error and no certificate is asked for; when it
    returned, the certificate of that order is asked for, with [chain]
    for the preferred chain, that call is the last one of the attempt,
    and its outcome is the outcome of the attempt. *)
Definition ending (chain : option jsstring) {World}
    (x : outcome Certificate * World * list event) : Prop :=
  match omap finalization (trace x) with
  | [] => omap download (trace x) = [] /\ isOk (result x) = false
  | [(order, csr, r)] =>
      omap placed (trace x) = [order] /\
      omap parsed (trace x) = [csr] /\
      match r with
      | Throw e => result x = Throw e /\ omap download (trace x) = []
      | Ok _ =>
          omap download (trace x) = [(order, chain, result x)] /\
          last (trace x) = Some (GetCertificate order chain (result x))
      end
  | _ => False
  end.

(** The timers awaited. *)
Definition timer (e : event) : option N :=
  match e with
  | Sleep ms => Some ms
  | _ => None
  end.

(** The value thrown by a call to [challengeRemoveFn], and the one
    thrown by a request for a key authorization. *)
Definition failedRemoval (e : event) : option jsval :=
  match e with
  | ChallengeRemoveFn _ _ _ _ (Throw v) => Some v
  | _ => None
  end.

Definition failedKey (e : event) : option jsval :=
  match e with
  | GetChallengeKeyAuthorization _ (Throw v) => Some v
  | _ => None
  end.

(** The timers and the hook calls of an attempt, each call with the
    arguments it was made with. *)
Inductive step : Type :=
| Wait (ms : N)
| Creation (a : Authz.t) (ch : Challenge.t) (k : jsstring)
| Removal (a : option Authz.t) (ch : option Challenge.t) (k : option jsstring)
    (rec : option Rec).

Definition hookStep (e : event) : option step :=
  match e with
  | Sleep ms => Some (Wait ms)
  | ChallengeCreateFn a ch k _ => Some (Creation a ch k)
  | ChallengeRemoveFn a ch k rec _ => Some (Removal a ch k rec)
  | _ => None
  end.

Definition creationStep (call : Authz.t * Challenge.t * jsstring * outcome Rec) : step :=
  Creation call.1.1.1 call.1.1.2 call.1.2.

Definition removalStep
    (args : option Authz.t * option Challenge.t * option jsstring * option Rec) : step :=
  Removal args.1.1.1 args.1.1.2 args.1.2 args.2.

(** Hook calls made one behind the other, the one at index [i] right
    after a timer of [i * 2000] ms. *)
Definition staggeredSteps (calls : list step) : list step :=
  concat (imap (fun i call => [Wait (N.of_nat i * 2000); call]) calls).

(** What a step shows on the timeline, and the arguments of the call it
    stands for. *)
Definition stepTick (s : step) : tick :=
  match s with
  | Wait ms => Timer ms
  | Creation _ _ _ => CreateCall
  | Removal _ _ _ _ => RemoveCall
  end.

Definition stepCreation (s : step) : option (Authz.t * Challenge.t * jsstring) :=
  match s with
  | Creation a ch k => Some (a, ch, k)
  | _ => None
  end.

Definition stepRemoval (s : step) :
    option (option Authz.t * option Challenge.t * option jsstring * option Rec) :=
  match s with
  | Removal a ch k r => Some (a, ch, k, r)
  | _ => None
  end.

(** What the [catch] block of a removal throws when the hook threw
    [undefined] or [null]: reading [e.message] fails. *)
Definition unreadable (v : jsval) : jsval :=
  TypeError (lit "Cannot read properties of " ++ toString v ++ lit " (reading 'message')").

(** How a batch attempt ends once the creation hook has failed with the
    [Error] [first]: with a new [Error] made of [first] when every failure
    of the removal hook could be logged; otherwise with the [TypeError] of
    a removal whose hook threw [undefined] or [null]. *)
Definition aborted {A World} (first : jsval) (x : outcome A * World * list event) : Prop :=
  (Forall (fun v => nullish v = false) (omap failedRemoval (trace x)) /\
   result x = Throw (newError first)) \/
  (exists v, In v (omap failedRemoval (trace x)) /\ nullish v = true /\
             result x = Throw (unreadable v)).
End Steps.

Arguments step : clear implicits.

End Steps.

(** ** More runs of the code *)

Module Cases.
Import Auto.

(** The client of the scenario with another list of authorizations for
    its orders, and the one whose orders are refused. *)
Definition clientListing (authorizations : list Authz.t) :
    Auto.client unit jsstring jsstring jsstring := {|
  getAccountUrl := getAccountUrl Scenario.client;
  createAccount := createAccount Scenario.client;
  createOrder := createOrder Scenario.client;
  getAuthorizations := fun _ w => (Ok authorizations, w);
  getChallengeKeyAuthorization := getChallengeKeyAuthorization Scenario.client;
  verifyChallenge := verifyChallenge Scenario.client;
  completeChallenge := completeChallenge Scenario.client;
  waitForValidStatus := waitForValidStatus Scenario.client;
  finalizeOrder := finalizeOrder Scenario.client;
  getCertificate := getCertificate Scenario.client
|}.

Definition rateLimited : Auto.client unit jsstring jsstring jsstring := {|
  getAccountUrl := getAccountUrl Scenario.client;
  createAccount := createAccount Scenario.client;
  createOrder := fun _ w => (Throw (Error (lit "too many new orders recently")), w);
  getAuthorizations := getAuthorizations Scenario.client;
  getChallengeKeyAuthorization := getChallengeKeyAuthorization Scenario.client;
  verifyChallenge := verifyChallenge Scenario.client;
  completeChallenge := completeChallenge Scenario.client;
  waitForValidStatus := waitForValidStatus Scenario.client;
  finalizeOrder := finalizeOrder Scenario.client;
  getCertificate := getCertificate Scenario.client
|}.

(** An order in which [b.com] offers no challenge. *)
Definition unchallenged : list Authz.t :=
  [Scenario.authorization "a.com" ["dns-01"]; Scenario.authorization "b.com" []]%string.

(** An authorization that offers [dns-01] twice, around [http-01]. *)
Definition twice : Authz.t :=
  {| Authz.identifier := {| Identifier.type := lit "dns"; Identifier.value := lit "a.com" |};
     Authz.challenges := [Scenario.challenge "dns-01" "first"; Scenario.challenge "http-01" "a.com";
                          Scenario.challenge "dns-01" "second"] |}.

(** The options of the scenario with verification skipped, and without
    a CSR. *)
Definition skipping : list (Auto.property unit jsstring jsstring) :=
  Scenario.workingOpts ++ [SkipChallengeVerification true].

Definition withoutCsr : list (Auto.property unit jsstring jsstring) :=
  [ChallengeCreateFnP Scenario.createFn; ChallengeRemoveFnP Scenario.removeFn].

(** A creation hook that throws a string, not an [Error], for [b.com]. *)
Definition createFn : Auto.createFn unit jsstring :=
  fun authz _ _ w =>
    if eqb (Identifier.value (Authz.identifier authz)) (lit "b.com")
    then (Throw (VString (lit "quota exceeded")), w)
    else (Ok (lit "record-" ++ Identifier.value (Authz.identifier authz)), w).

Definition throwingStrings : list (Auto.property unit jsstring jsstring) :=
  Scenario.userOpts ++ [ChallengeCreateFnP createFn].

(** A removal hook that rejects with [undefined], as [Promise.reject()]
    does; the options of the scenario with it, creation failing for
    [b.com] or never. *)
Definition removeFn : Auto.removeFn unit jsstring :=
  fun _ _ _ _ w => (Throw VUndefined, w).

Definition rejecting : list (Auto.property unit jsstring jsstring) :=
  Scenario.userOpts ++ [ChallengeRemoveFnP removeFn].

Definition workingButRejecting : list (Auto.property unit jsstring jsstring) :=
  Scenario.workingOpts ++ [ChallengeRemoveFnP removeFn].
End Cases.

(** * Properties *)

(** Source literals stay folded while the code is stepped through. *)
Opaque lit ofNat.

(** ** Strings *)

Lemma eqb_eq (s t : jsstring) : eqb s t = true <-> s = t.
Proof. unfold eqb. apply bool_decide_eq_true. Qed.

Lemma eqb_refl (s : jsstring) : eqb s s = true.
Proof. now apply eqb_eq. Qed.

Lemma eqb_neq (s t : jsstring) : eqb s t = false <-> s <> t.
Proof. unfold eqb. apply bool_decide_eq_false. Qed.

Lemma stripEnd_whitespace (ws : jsstring) :
  Forall (fun c => isWhiteSpace c = true) ws -> stripEnd ws = [].
Proof.
  induction 1 as [|c ws Hc _ IH]; simpl; [reflexivity|].
  now rewrite IH, Hc.
Qed.

Lemma stripEnd_app_whitespace (s ws : jsstring) :
  Forall (fun c => isWhiteSpace c = true) ws -> stripEnd (s ++ ws) = stripEnd s.
Proof.
  intros Hws. induction s as [|c s IH]; simpl.
  - now apply stripEnd_whitespace.
  - now rewrite IH.
Qed.

Lemma startsWith_refl (s : jsstring) : forall t, startsWith s (s ++ t) = true.
Proof.
  induction s as [|c s IH]; intros t; simpl; [reflexivity|].
  now rewrite N.eqb_refl, IH.
Qed.

Lemma includes_app (pre d post : jsstring) : includes d (pre ++ d ++ post) = true.
Proof.
  assert (Hhd : forall hay, startsWith d hay = true -> includes d hay = true).
  { intros hay H. destruct hay; simpl; rewrite H; reflexivity. }
  induction pre as [|c pre IH].
  - apply Hhd. apply (startsWith_refl d post).
  - change (includes d (c :: (pre ++ d ++ post)) = true). simpl.
    rewrite IH. apply orb_true_r.
Qed.

Lemma includes_suffix (pre d : jsstring) : includes d (pre ++ d) = true.
Proof. rewrite <- (app_nil_r d) at 2. apply includes_app. Qed.

(** ** The verifier *)

Section VerifyFacts.
Context {World : Type}.
Implicit Types (net : Verify.network World) (w : World).

Lemma stripData_string net (s : jsstring) w :
  @Verify.stripData World (Verify.DString s) w = (Ok (stripEnd s), w, []).
Proof. reflexivity. Qed.

(** C5 (as amended): http-01 sends one GET to
    [http://<domain>:<port>/.well-known/acme-challenge/<token>] with the
    configured port or 80; a failure of the GET itself propagates as the
    error the HTTP client raised; on a string body verification succeeds
    exactly when the body without its trailing white space is the
    non-empty key authorization, so the key authorization followed by
    white space is accepted, and every other string body is rejected with
    the error that names the domain. *)
Theorem http01_verification net (authz : Authz.t) (challenge : Challenge.t)
    (ka : jsstring) w :
  let d := Identifier.value (Authz.identifier authz) in
  let port := match Verify.httpChallengePort net with Some (S p) => S p | _ => 80 end in
  let url := lit "http://" ++ d ++ lit ":" ++ ofNat port
               ++ lit "/.well-known/acme-challenge/" ++ Challenge.token challenge in
  let run := Verify.verifyHttpChallenge net authz challenge ka None w in
  let notFound := Error (lit "Authorization not found in HTTP response from " ++ d) in
  Verify.httpQueries (trace run) = [url] /\
  includes d (lit "Authorization not found in HTTP response from " ++ d) = true /\
  match Verify.axios_get net url w with
  | (Throw e, _) => result run = Throw e
  | (Ok resp, _) =>
      match Verify.data resp with
      | Verify.DString body =>
          (result run = Ok true <-> stripEnd body = ka /\ ka <> []) /\
          (result run = Ok true \/ result run = Throw notFound) /\
          (forall ws, Forall (fun c => isWhiteSpace c = true) ws ->
                      body = ka ++ ws -> stripEnd ka = ka -> ka <> [] ->
                      result run = Ok true)
      | Verify.DFalsy => result run = Throw notFound
      | Verify.DOther => exists msg, result run = Throw (TypeError msg)
      end
  end.
Proof.
  intros d port url run notFound.
  split; [|split; [apply includes_suffix|]].
  - subst run. unfold Verify.verifyHttpChallenge, Verify.challengeUrl, Verify.defaultSuffix,
      Verify.httpPort, Verify.info, bind, call, emit, trace; simpl.
    fold d port. fold url.
    destruct (Verify.axios_get net url w) as [[resp|e] w1]; simpl; [|reflexivity].
    destruct (Verify.data resp) as [body| |]; simpl; try reflexivity.
    + destruct (eqb (stripEnd body) [] || negb (eqb (stripEnd body) ka)); reflexivity.
  - assert (Hrun : run = Verify.verifyHttpChallenge net authz challenge ka None w) by reflexivity.
    unfold Verify.verifyHttpChallenge, Verify.challengeUrl, Verify.defaultSuffix,
      Verify.httpPort, Verify.info, bind, call, emit in Hrun; simpl in Hrun.
    fold d port in Hrun. fold url in Hrun.
    destruct (Verify.axios_get net url w) as [[resp|e] w1]; simpl in Hrun;
      [|now rewrite Hrun].
    destruct (Verify.data resp) as [body| |]; simpl in Hrun.
    + assert (Hdec : result run =
                if eqb (stripEnd body) [] || negb (eqb (stripEnd body) ka)
                then Throw notFound else Ok true).
      { rewrite Hrun.
        destruct (eqb (stripEnd body) [] || negb (eqb (stripEnd body) ka)); reflexivity. }
      clear Hrun.
      assert (Hiff : result run = Ok true <-> stripEnd body = ka /\ ka <> []).
      { rewrite Hdec.
        destruct (eqb (stripEnd body) []) eqn:E1; simpl.
        - apply eqb_eq in E1. split; [discriminate|].
          intros [H1 H2]. congruence.
        - apply eqb_neq in E1.
          destruct (eqb (stripEnd body) ka) eqn:E2; simpl.
          + apply eqb_eq in E2. split; [intros _; split; congruence|reflexivity].
          + apply eqb_neq in E2. split; [discriminate|]. intros [H1 _]. contradiction. }
      split; [exact Hiff|]. split.
      * rewrite Hdec.
        destruct (eqb (stripEnd body) [] || negb (eqb (stripEnd body) ka)); auto.
      * intros ws Hws -> Hka Hne. apply Hiff.
        rewrite stripEnd_app_whitespace by assumption. auto.
    + rewrite Hrun. reflexivity.
    + rewrite Hrun. eexists. reflexivity.
Qed.

(** C6: dns-01 asks for a CNAME at [_acme-challenge.<domain>]; the TXT
    query goes to the first CNAME target when the answer has one, and to
    the original name when the answer is empty or the lookup fails; the
    segments of all TXT answers are flattened, and verification succeeds
    exactly when the key authorization is one of them, its absence raising
    the error that names the domain. *)
Theorem dns01_verification net (authz : Authz.t) (challenge : Challenge.t)
    (ka : jsstring) w :
  let d := Identifier.value (Authz.identifier authz) in
  let name := lit "_acme-challenge." ++ d in
  let run := Verify.verifyDnsChallenge net authz challenge ka None w in
  let cname := Verify.resolveCnameAsync net name w in
  let target := match cname.1 with Ok (c :: _) => c | _ => name end in
  let notFound := Error (lit "Authorization not found in DNS TXT records for " ++ d) in
  Verify.cnameQueries (trace run) = [name] /\
  Verify.txtQueries (trace run) = [target] /\
  includes d (lit "Authorization not found in DNS TXT records for " ++ d) = true /\
  match Verify.resolveTxtAsync net target cname.2 with
  | (Ok answers, _) =>
      (result run = Ok true <-> In ka (concat answers)) /\
      (~ In ka (concat answers) -> result run = Throw notFound)
  | (Throw e, _) => result run = Throw e
  end.
Proof.
  intros d name run cname target notFound.
  assert (Hidx : forall (l : list jsstring) i,
             (0 <= i)%Z ->
             (indexOfFrom i l ka = -1)%Z <-> ~ In ka l).
  { induction l as [|y l IH]; intros i Hi; simpl.
    - tauto.
    - destruct (eqb y ka) eqn:E.
      + apply eqb_eq in E. split; [lia|]. intros H. exfalso. apply H. now left.
      + apply eqb_neq in E. rewrite IH by lia. split; [intros H [?|?]; auto|tauto]. }
  assert (Hrun : run = Verify.verifyDnsChallenge net authz challenge ka None w) by reflexivity.
  unfold Verify.verifyDnsChallenge, Verify.info, bind, tryCatch, call, emit in Hrun;
    simpl in Hrun. fold d in Hrun. fold name in Hrun.
  subst cname target.
  destruct (Verify.resolveCnameAsync net name w) as [[[|c cs]|e] w1];
    simpl in Hrun |- *;
    match type of Hrun with
    | context [Verify.resolveTxtAsync net ?n w1] =>
        destruct (Verify.resolveTxtAsync net n w1) as [[answers|e'] w2]
    end; simpl in Hrun.
  all: try (unfold indexOf in Hrun;
            destruct (indexOfFrom 0 (concat answers) ka =? -1)%Z eqn:Ei;
            [apply Z.eqb_eq in Ei|apply Z.eqb_neq in Ei];
            rewrite Hidx in Ei by lia).
  all: rewrite Hrun; simpl.
  all: repeat split; try apply includes_suffix; try discriminate; try tauto.
  all: try (intros; exfalso; apply Ei; tauto).
  all: intros _; destruct (decide (ka ∈ concat answers)) as [H|H];
    rewrite list_elem_of_In in H; tauto.
Qed.

End VerifyFacts.

(** ** Traces of composed computations *)

Section TraceFacts.
Context {World Event X : Type}.
Variable f : Event -> option X.
Implicit Types (w : World).

Lemma omap_app_list (t1 t2 : list Event) : omap f (t1 ++ t2) = omap f t1 ++ omap f t2.
Proof. apply omap_app. Qed.

Lemma proj_bind {A B} (m : M World Event A) (k : A -> M World Event B) w :
  omap f (trace (bind m k w)) =
  omap f (trace (m w)) ++
  match result (m w) with
  | Ok a => omap f (trace (k a (final (m w))))
  | Throw _ => []
  end.
Proof.
  unfold bind, trace, result, final.
  destruct (m w) as [[[a|v] w1] t1]; simpl.
  - destruct (k a w1) as [[r w2] t2]; simpl. apply omap_app_list.
  - now rewrite app_nil_r.
Qed.

Lemma proj_bind_quiet {A B} (m : M World Event A) (k : A -> M World Event B) w :
  quiet f m ->
  omap f (trace (bind m k w)) =
  match result (m w) with
  | Ok a => omap f (trace (k a (final (m w))))
  | Throw _ => []
  end.
Proof. intros Hq. rewrite proj_bind, Hq. reflexivity. Qed.

Lemma proj_tryCatch {A} (m : M World Event A) (h : jsval -> M World Event A) w :
  omap f (trace (tryCatch m h w)) =
  omap f (trace (m w)) ++
  match result (m w) with
  | Ok _ => []
  | Throw v => omap f (trace (h v (final (m w))))
  end.
Proof.
  unfold tryCatch, trace, result, final.
  destruct (m w) as [[[a|v] w1] t1]; simpl.
  - now rewrite app_nil_r.
  - destruct (h v w1) as [[r w2] t2]; simpl. apply omap_app_list.
Qed.

Lemma proj_tryFinally {A} (m : M World Event A) (g : M World Event unit) w :
  omap f (trace (tryFinally m g w)) =
  omap f (trace (m w)) ++ omap f (trace (g (final (m w)))).
Proof.
  unfold tryFinally, trace, final.
  destruct (m w) as [[r w1] t1]; simpl.
  destruct (g w1) as [[[[]|v] w2] t2]; simpl; apply omap_app_list.
Qed.

Lemma bind_assoc {A B C} (m : M World Event A) (k1 : A -> M World Event B)
    (k2 : B -> M World Event C) w :
  bind (bind m k1) k2 w = bind m (fun a => bind (k1 a) k2) w.
Proof.
  unfold bind. destruct (m w) as [[[a|v] w1] t1]; [|reflexivity].
  destruct (k1 a w1) as [[[b|v] w2] t2]; [|reflexivity].
  destruct (k2 b w2) as [[r w3] t3]. now rewrite app_assoc.
Qed.

Lemma bind_ext {A B} (m : M World Event A) (k1 k2 : A -> M World Event B) w :
  (forall a w', k1 a w' = k2 a w') -> bind m k1 w = bind m k2 w.
Proof.
  intros H. unfold bind. destruct (m w) as [[[a|v] w1] t1]; [|reflexivity].
  now rewrite H.
Qed.

Lemma bind_ret_l {A B} (a : A) (k : A -> M World Event B) w : bind (ret a) k w = k a w.
Proof. unfold bind, ret. now destruct (k a w) as [[r w2] t2]. Qed.

Lemma bind_ok_run {A B} (m : M World Event A) (k : A -> M World Event B) w a w1 t1 :
  m w = (Ok a, w1, t1) ->
  bind m k w = (result (k a w1), final (k a w1), t1 ++ trace (k a w1)).
Proof.
  intros H. unfold bind, result, final, trace. rewrite H.
  now destruct (k a w1) as [[r w2] t2].
Qed.

Lemma bind_throw_run {A B} (m : M World Event A) (k : A -> M World Event B) w v w1 t1 :
  m w = (Throw v, w1, t1) -> bind m k w = (Throw v, w1, t1).
Proof. intros H. unfold bind. now rewrite H. Qed.

Lemma quiet_ret {A} (a : A) : quiet f (ret a : M World Event A).
Proof. intros w. reflexivity. Qed.

Lemma quiet_throw {A} v : quiet f (@throw World Event A v).
Proof. intros w. reflexivity. Qed.

Lemma quiet_ofOutcome {A} (r : outcome A) : quiet f (ofOutcome r : M World Event A).
Proof. intros w. reflexivity. Qed.

Lemma quiet_PromiseAll {A} (rs : list (outcome A)) :
  quiet f (PromiseAll rs : M World Event (list A)).
Proof. intros w. reflexivity. Qed.

Lemma quiet_emit e : f e = None -> quiet f (emit e : M World Event unit).
Proof. intros H w. unfold emit, trace; simpl. now rewrite H. Qed.

Lemma quiet_call {A} (g : World -> outcome A * World) (ev : outcome A -> Event) :
  (forall r, f (ev r) = None) -> quiet f (call g ev).
Proof.
  intros H w. unfold call, trace. destruct (g w) as [r w1]; simpl. now rewrite H.
Qed.

Lemma quiet_bind {A B} (m : M World Event A) (k : A -> M World Event B) :
  quiet f m -> (forall a, quiet f (k a)) -> quiet f (bind m k).
Proof.
  intros Hm Hk w. rewrite proj_bind, Hm.
  destruct (result (m w)); [apply Hk|reflexivity].
Qed.

Lemma quiet_tryCatch {A} (m : M World Event A) (h : jsval -> M World Event A) :
  quiet f m -> (forall v, quiet f (h v)) -> quiet f (tryCatch m h).
Proof.
  intros Hm Hh w. rewrite proj_tryCatch, Hm.
  destruct (result (m w)); [reflexivity|apply Hh].
Qed.

Lemma quiet_tryFinally {A} (m : M World Event A) (g : M World Event unit) :
  quiet f m -> quiet f g -> quiet f (tryFinally m g).
Proof. intros Hm Hg w. now rewrite proj_tryFinally, Hm, Hg. Qed.

Lemma quiet_tryFinallyLet {A B} (first : M World Event B) (rest : B -> M World Event A)
    (g : option B -> M World Event unit) :
  quiet f first -> (forall b, quiet f (rest b)) -> (forall x, quiet f (g x)) ->
  quiet f (tryFinallyLet first rest g).
Proof.
  intros Hf Hr Hg w. unfold tryFinallyLet.
  specialize (Hf w). unfold trace in Hf.
  destruct (first w) as [[[b|v] w1] t1]; simpl in Hf.
  - pose proof (quiet_tryFinally _ _ (Hr b) (Hg (Some b)) w1) as H. unfold trace in *.
    destruct (tryFinally (rest b) (g (Some b)) w1) as [[r w2] t2]; simpl in *.
    now rewrite omap_app_list, Hf, H.
  - pose proof (quiet_tryFinally _ _ (quiet_throw (A:=A) v) (Hg None) w1) as H.
    unfold trace in *.
    destruct (tryFinally (throw v) (g None) w1) as [[r w2] t2]; simpl in *.
    now rewrite omap_app_list, Hf, H.
Qed.

Lemma quiet_settle {A} (m : M World Event A) : quiet f m -> quiet f (settle m).
Proof.
  intros Hm w. specialize (Hm w). unfold settle, trace in *.
  now destruct (m w) as [[r w1] t1].
Qed.

Lemma quiet_startAll {A} (tasks : list (M World Event A)) :
  Forall (quiet f) tasks -> quiet f (startAll tasks).
Proof.
  induction 1 as [|m tasks Hm _ IH]; simpl.
  - apply quiet_ret.
  - apply quiet_bind; [now apply quiet_settle|].
    intros r. apply quiet_bind; [exact IH|]. intros rs. apply quiet_ret.
Qed.

Lemma trace_startAll_cons {A} (m : M World Event A) (tasks : list (M World Event A)) w :
  trace (startAll (m :: tasks) w) = trace (m w) ++ trace (startAll tasks (final (m w))).
Proof.
  cbn [startAll]. unfold bind, settle, ret, trace, final.
  destruct (m w) as [[r w1] t1]. cbn [fst snd].
  destruct (startAll tasks w1) as [[[rs|v] w2] t2]; cbn [snd]; now rewrite ?app_nil_r.
Qed.

Lemma quiet_trace {A} (m : M World Event A) w : quiet f m -> omap f (trace (m w)) = [].
Proof. intros H. apply H. Qed.

(** Agreement up to [f] is kept by every way computations are put
    together. *)
Lemma agree_refl {A} (m : M World Event A) : agree f m m.
Proof. intros w. auto. Qed.

Lemma agree_bind {A B} (m1 m2 : M World Event A) (k1 k2 : A -> M World Event B) :
  agree f m1 m2 -> (forall a, agree f (k1 a) (k2 a)) -> agree f (bind m1 k1) (bind m2 k2).
Proof.
  intros Hm Hk w. destruct (Hm w) as (Hr & Hw & Ht).
  unfold bind, result, final, trace in *.
  destruct (m1 w) as [[r1 w1] t1], (m2 w) as [[r2 w2] t2]. cbn [fst snd] in *. subst r2 w2.
  destruct r1 as [a|v]; [|auto].
  destruct (Hk a w1) as (Hr' & Hw' & Ht'). unfold result, final, trace in *.
  destruct (k1 a w1) as [[r3 w3] t3], (k2 a w1) as [[r4 w4] t4]. cbn [fst snd] in *.
  rewrite !omap_app, Ht, Ht'. auto.
Qed.

Lemma agree_tryCatch {A} (m1 m2 : M World Event A) (h1 h2 : jsval -> M World Event A) :
  agree f m1 m2 -> (forall v, agree f (h1 v) (h2 v)) ->
  agree f (tryCatch m1 h1) (tryCatch m2 h2).
Proof.
  intros Hm Hh w. destruct (Hm w) as (Hr & Hw & Ht).
  unfold tryCatch, result, final, trace in *.
  destruct (m1 w) as [[r1 w1] t1], (m2 w) as [[r2 w2] t2]. cbn [fst snd] in *. subst r2 w2.
  destruct r1 as [a|v]; [auto|].
  destruct (Hh v w1) as (Hr' & Hw' & Ht'). unfold result, final, trace in *.
  destruct (h1 v w1) as [[r3 w3] t3], (h2 v w1) as [[r4 w4] t4]. cbn [fst snd] in *.
  rewrite !omap_app, Ht, Ht'. auto.
Qed.

Lemma agree_tryFinally {A} (m1 m2 : M World Event A) (g1 g2 : M World Event unit) :
  agree f m1 m2 -> agree f g1 g2 -> agree f (tryFinally m1 g1) (tryFinally m2 g2).
Proof.
  intros Hm Hg w. destruct (Hm w) as (Hr & Hw & Ht).
  unfold tryFinally, result, final, trace in *.
  destruct (m1 w) as [[r1 w1] t1], (m2 w) as [[r2 w2] t2]. cbn [fst snd] in *. subst r2 w2.
  destruct (Hg w1) as (Hr' & Hw' & Ht'). unfold result, final, trace in *.
  destruct (g1 w1) as [[r3 w3] t3], (g2 w1) as [[r4 w4] t4]. cbn [fst snd] in *.
  subst r4 w4. destruct r3 as [[]|v]; cbn [fst snd]; rewrite !omap_app, Ht, Ht'; auto.
Qed.

Lemma agree_tryFinallyLet {A B} (first : M World Event B) (rest : B -> M World Event A)
    (g1 g2 : option B -> M World Event unit) :
  (forall x, agree f (g1 x) (g2 x)) ->
  agree f (tryFinallyLet first rest g1) (tryFinallyLet first rest g2).
Proof.
  intros Hg w. unfold tryFinallyLet.
  destruct (first w) as [[[b|v] w1] t1].
  - destruct (agree_tryFinally (rest b) (rest b) (g1 (Some b)) (g2 (Some b))
                (agree_refl _) (Hg _) w1) as (Hr & Hw & Ht).
    unfold result, final, trace in *.
    destruct (tryFinally (rest b) (g1 (Some b)) w1) as [[r3 w3] t3],
             (tryFinally (rest b) (g2 (Some b)) w1) as [[r4 w4] t4].
    cbn [fst snd] in *. rewrite !omap_app, Ht. auto.
  - destruct (agree_tryFinally (throw v) (throw v) (g1 None) (g2 None)
                (agree_refl (A:=A) _) (Hg _) w1) as (Hr & Hw & Ht).
    unfold result, final, trace in *.
    destruct (tryFinally (throw v) (g1 None) w1) as [[r3 w3] t3],
             (tryFinally (throw v) (g2 None) w1) as [[r4 w4] t4].
    cbn [fst snd] in *. rewrite !omap_app, Ht. auto.
Qed.

Lemma agree_settle {A} (m1 m2 : M World Event A) :
  agree f m1 m2 -> agree f (settle m1) (settle m2).
Proof.
  intros Hm w. destruct (Hm w) as (Hr & Hw & Ht).
  unfold settle, result, final, trace in *.
  destruct (m1 w) as [[r1 w1] t1], (m2 w) as [[r2 w2] t2]. cbn [fst snd] in *.
  subst. auto.
Qed.

Lemma agree_startAll {A} (tasks1 tasks2 : list (M World Event A)) :
  Forall2 (agree f) tasks1 tasks2 -> agree f (startAll tasks1) (startAll tasks2).
Proof.
  induction 1 as [|m1 m2 l1 l2 Hm _ IH]; cbn [startAll].
  - apply agree_refl.
  - apply agree_bind; [now apply agree_settle|]. intros r.
    apply agree_bind; [exact IH|]. intros rs. apply agree_refl.
Qed.
End TraceFacts.

(** ** The sort *)

Section SortFacts.
Context {A : Type}.
Variable comparefn : A -> A -> Z.
Variable key : A -> nat.
Hypothesis comparefn_key : forall x y, (comparefn x y <? 0)%Z = (key x <? key y).

Abbreviation le_key := (fun x y => key x <= key y).
Abbreviation ins := (Array.insertByKey key).

Lemma insertByKey_perm x l : Permutation (ins x l) (x :: l).
Proof.
  induction l as [|y l IH]; simpl; [reflexivity|].
  destruct (key x <? key y); [reflexivity|].
  rewrite IH. apply perm_swap.
Qed.

Lemma insertByKey_length x l : length (ins x l) = S (length l).
Proof. apply (Permutation_length (insertByKey_perm x l)). Qed.

Lemma insertByKey_sorted x l :
  StronglySorted le_key l -> StronglySorted le_key (ins x l).
Proof.
  induction 1 as [|y l Hs IH Hy]; simpl.
  - repeat constructor.
  - destruct (key x <? key y) eqn:E.
    + apply Nat.ltb_lt in E. constructor; [now constructor|].
      constructor; [lia|]. eapply Forall_impl; [exact Hy|]. simpl. intros; lia.
    + apply Nat.ltb_ge in E. constructor; [exact IH|].
      rewrite (insertByKey_perm x l). constructor; [exact E|exact Hy].
Qed.

Lemma insertByKey_last x l :
  Forall (fun y => key y <= key x) l -> ins x l = l ++ [x].
Proof.
  induction 1 as [|y l Hy _ IH]; simpl; [reflexivity|].
  destruct (key x <? key y) eqn:E; [apply Nat.ltb_lt in E; lia|].
  now rewrite IH.
Qed.

(** The slot of [x] by position: behind every key that is not greater,
    before every key that is. *)
Lemma insertByKey_slot x l n :
  (forall i y, i < n -> l !! i = Some y -> key y <= key x) ->
  (forall i y, n <= i -> l !! i = Some y -> key x < key y) ->
  n <= length l ->
  ins x l = take n l ++ x :: drop n l.
Proof.
  revert n. induction l as [|y l IH]; intros n Hlo Hhi Hn; simpl in *.
  - now replace n with 0 by lia.
  - destruct (key x <? key y) eqn:E.
    + apply Nat.ltb_lt in E. destruct n as [|n]; [reflexivity|].
      specialize (Hlo 0 y). simpl in Hlo. specialize (Hlo ltac:(lia) eq_refl). lia.
    + apply Nat.ltb_ge in E. destruct n as [|n].
      * specialize (Hhi 0 y). simpl in Hhi. specialize (Hhi ltac:(lia) eq_refl). lia.
      * simpl. f_equal. apply IH; [| |lia].
        -- intros i z Hi Hz. apply (Hlo (S i) z); [lia|exact Hz].
        -- intros i z Hi Hz. apply (Hhi (S i) z); [lia|exact Hz].
Qed.

Lemma StronglySorted_lookup_le (l : list A) i j x y :
  StronglySorted le_key l -> i <= j -> l !! i = Some x -> l !! j = Some y ->
  key x <= key y.
Proof.
  intros Hs. revert i j. induction Hs as [|z l Hs IH Hz]; intros i j Hij Hi Hj.
  - discriminate.
  - destruct i as [|i], j as [|j]; simpl in *; try lia.
    + inversion Hi; inversion Hj; subst; lia.
    + inversion Hi; subst. rewrite Forall_forall in Hz. apply Hz.
      eapply list_elem_of_lookup_2. exact Hj.
    + eapply IH; [|exact Hi|exact Hj]. lia.
Qed.

Lemma findSlot_spec fuel (S R : list A) pivot left right :
  StronglySorted le_key S ->
  left <= right -> right <= length S -> right - left <= fuel ->
  (forall i y, i < left -> S !! i = Some y -> key y <= key pivot) ->
  (forall i y, right <= i -> S !! i = Some y -> key pivot < key y) ->
  let slot := Array.findSlot comparefn fuel (S ++ R) pivot left right in
  slot <= length S /\
  (forall i y, i < slot -> S !! i = Some y -> key y <= key pivot) /\
  (forall i y, slot <= i -> S !! i = Some y -> key pivot < key y).
Proof.
  intros Hs. revert left right.
  induction fuel as [|fuel IH]; intros left right Hlr Hr Hfuel Hlo Hhi; simpl.
  - assert (left = right) by lia. subst. split; [lia|]. split; assumption.
  - destruct (left <? right) eqn:E.
    2:{ apply Nat.ltb_ge in E. assert (left = right) by lia. subst.
        split; [lia|]. split; assumption. }
    apply Nat.ltb_lt in E.
    pose proof (Nat.le_div2_diag_l (right - left)) as Hd1.
    pose proof (Nat.lt_div2 (right - left) ltac:(lia)) as Hd2.
    revert Hd1 Hd2. generalize (Nat.div2 (right - left)). intros half Hd1 Hd2.
    remember (left + half) as mid eqn:Emid.
    assert (Hmid : mid < length S) by lia.
    rewrite lookup_app_l by exact Hmid.
    destruct (lookup_lt_is_Some_2 S mid Hmid) as [x Hx]. rewrite Hx.
    rewrite comparefn_key.
    destruct (key pivot <? key x) eqn:Ek.
    + apply Nat.ltb_lt in Ek. apply (IH left mid); [lia|lia|lia|exact Hlo|].
      intros i y Hi Hy.
      pose proof (StronglySorted_lookup_le S mid i x y Hs Hi Hx Hy). lia.
    + apply Nat.ltb_ge in Ek. apply (IH (mid + 1) right); [lia|lia|lia| |exact Hhi].
      intros i y Hi Hy.
      pose proof (StronglySorted_lookup_le S i mid y x Hs ltac:(lia) Hy Hx). lia.
Qed.

Lemma insertPivot_spec (S R : list A) pivot :
  StronglySorted le_key S ->
  Array.insertPivot comparefn (S ++ pivot :: R) (length S) = ins pivot S ++ R.
Proof.
  intros Hs. unfold Array.insertPivot.
  rewrite lookup_app_r by lia. rewrite Nat.sub_diag. simpl.
  assert (H0 : forall i y, i < 0 -> S !! i = Some y -> key y <= key pivot)
    by (intros; lia).
  assert (H1 : forall i y, length S <= i -> S !! i = Some y -> key pivot < key y)
    by (intros i y Hi Hy; apply lookup_lt_Some in Hy; lia).
  destruct (findSlot_spec (length S) S (pivot :: R) pivot 0 (length S) Hs
              ltac:(lia) ltac:(lia) ltac:(lia) H0 H1) as (Hlen & Hlo & Hhi).
  set (slot := Array.findSlot comparefn (length S) (S ++ pivot :: R) pivot 0 (length S)) in *.
  rewrite (insertByKey_slot pivot S slot Hlo Hhi Hlen).
  rewrite take_app_le by exact Hlen.
  rewrite (take_app_length S (pivot :: R)).
  replace (Datatypes.S (length S)) with (length (S ++ [pivot])) by (rewrite length_app; simpl; lia).
  replace (S ++ pivot :: R) with ((S ++ [pivot]) ++ R) by (now rewrite <- app_assoc).
  rewrite drop_app_length.
  rewrite <- !app_assoc. reflexivity.
Qed.

Lemma BinaryInsertionSort_spec (R S : list A) :
  StronglySorted le_key S ->
  Array.BinaryInsertionSort comparefn (length R) (length S) (S ++ R) =
  fold_left (fun acc x => ins x acc) R S.
Proof.
  revert S. induction R as [|pivot R IH]; intros S Hs; simpl.
  - apply app_nil_r.
  - rewrite insertPivot_spec by exact Hs.
    rewrite <- (insertByKey_length pivot S).
    apply IH. now apply insertByKey_sorted.
Qed.

Lemma fold_insert_sorted (R S : list A) :
  StronglySorted le_key S ->
  StronglySorted le_key (fold_left (fun acc x => ins x acc) R S).
Proof.
  revert S. induction R as [|x R IH]; intros S Hs; simpl; [exact Hs|].
  apply IH. now apply insertByKey_sorted.
Qed.

Lemma fold_insert_perm (R S : list A) :
  Permutation (fold_left (fun acc x => ins x acc) R S) (S ++ R).
Proof.
  revert S. induction R as [|x R IH]; intros S; simpl.
  - now rewrite app_nil_r.
  - rewrite IH, insertByKey_perm. apply Permutation_middle.
Qed.

Lemma stableSort_sorted (l : list A) : StronglySorted le_key (Array.stableSort key l).
Proof. apply fold_insert_sorted. constructor. Qed.

Lemma stableSort_perm (l : list A) : Permutation (Array.stableSort key l) l.
Proof. unfold Array.stableSort. now rewrite fold_insert_perm. Qed.

(** An ascending run is already in its sorted place. *)
Lemma runTail_ascending (rest acc : list A) p :
  StronglySorted le_key (acc ++ [p]) ->
  let k := Array.runTail comparefn false p rest in
  fold_left (fun acc x => ins x acc) (take k rest) (acc ++ [p]) = acc ++ p :: take k rest.
Proof.
  revert acc p. induction rest as [|cur rest IH]; intros acc p Hs; simpl.
  - reflexivity.
  - rewrite comparefn_key.
    destruct (key cur <? key p) eqn:E; simpl; [reflexivity|].
    apply Nat.ltb_ge in E.
    assert (Hall : Forall (fun y => key y <= key cur) (acc ++ [p])).
    { apply StronglySorted_app in Hs as (Hap & _ & _).
      apply Forall_app. split; [|now repeat constructor].
      apply Forall_forall. intros y Hy.
      specialize (Hap y p Hy ltac:(apply list_elem_of_singleton; reflexivity)).
      simpl in Hap. lia. }
    rewrite (insertByKey_last cur _ Hall).
    specialize (IH (acc ++ [p]) cur).
    rewrite IH.
    + now rewrite <- app_assoc.
    + apply StronglySorted_app_2; [|exact Hs|repeat constructor].
      intros x1 x2 H1 H2. apply list_elem_of_singleton in H2. subst x2.
      rewrite Forall_forall in Hall. now apply Hall.
Qed.

(** A strictly descending run is sorted by reversing it. *)
Lemma runTail_descending (rest acc : list A) p :
  let k := Array.runTail comparefn true p rest in
  fold_left (fun acc x => ins x acc) (take k rest) (p :: acc) = rev (take k rest) ++ p :: acc.
Proof.
  revert acc p. induction rest as [|cur rest IH]; intros acc p; simpl; [reflexivity|].
  replace (0 <=? comparefn cur p)%Z with (negb (comparefn cur p <? 0)%Z)
    by (destruct (Z.ltb_spec (comparefn cur p) 0), (Z.leb_spec 0 (comparefn cur p)); simpl; lia).
  rewrite comparefn_key.
  destruct (key cur <? key p) eqn:E; simpl; [|reflexivity].
  rewrite E. rewrite IH. now rewrite <- app_assoc.
Qed.

Lemma CountAndMakeRun_spec (array : list A) :
  2 <= length array ->
  let '(runLength, workArray) := Array.CountAndMakeRun comparefn array in
  runLength <= length array /\
  workArray = Array.stableSort key (take runLength array) ++ drop runLength array /\
  length (Array.stableSort key (take runLength array)) = runLength.
Proof.
  destruct array as [|x0 [|x1 rest]]; simpl; try lia. intros _.
  rewrite comparefn_key.
  pose proof (length_take_le rest) as Htl.
  assert (Hk : forall b p, Array.runTail comparefn b p rest <= length rest).
  { clear. intros b p. revert p. induction rest as [|cur rest IH]; intros p; simpl; [lia|].
    destruct (if b then _ else _); [lia|]. specialize (IH cur). lia. }
  destruct (key x1 <? key x0) eqn:E.
  - set (k := Array.runTail comparefn true x1 rest).
    split; [specialize (Hk true x1); fold k in Hk; lia|].
    unfold Array.stableSort; simpl. rewrite E.
    pose proof (runTail_descending rest [x0] x1) as H. simpl in H. fold k in H.
    rewrite H. split.
    + rewrite <- !app_assoc. reflexivity.
    + rewrite length_app, length_rev; simpl. rewrite length_take.
      specialize (Hk true x1). fold k in Hk. lia.
  - set (k := Array.runTail comparefn false x1 rest).
    split; [specialize (Hk false x1); fold k in Hk; lia|].
    unfold Array.stableSort; simpl. rewrite E.
    apply Nat.ltb_ge in E.
    pose proof (runTail_ascending rest [x0] x1) as H. simpl in H. fold k in H.
    rewrite H.
    + split; [simpl; now rewrite take_drop|].
      simpl. rewrite length_take. specialize (Hk false x1). fold k in Hk. lia.
    + constructor; [repeat constructor|]. repeat constructor. exact E.
Qed.

(** The engine's sort is the stable sort by the key. *)
Lemma sort_stableSort (array : list A) :
  Array.sort comparefn array = Array.stableSort key array.
Proof.
  unfold Array.sort. destruct (length array <? 2) eqn:E.
  - apply Nat.ltb_lt in E. destruct array as [|x [|y l]]; simpl in *; try lia; reflexivity.
  - apply Nat.ltb_ge in E.
    pose proof (CountAndMakeRun_spec array E) as H.
    destruct (Array.CountAndMakeRun comparefn array) as [runLength workArray].
    destruct H as (Hle & -> & Hlen).
    set (S := Array.stableSort key (take runLength array)) in *.
    replace (length array - runLength) with (length (drop runLength array))
      by (rewrite length_drop; lia).
    pose proof (BinaryInsertionSort_spec (drop runLength array) S
                  (stableSort_sorted _)) as HB.
    rewrite Hlen in HB. rewrite HB.
    subst S. unfold Array.stableSort. rewrite <- fold_left_app, take_drop. reflexivity.
Qed.

Lemma firstMin_snoc (l : list A) x :
  Array.firstMin key (l ++ [x]) =
  match Array.firstMin key l with
  | Some y => if key x <? key y then Some x else Some y
  | None => Some x
  end.
Proof.
  induction l as [|z l IH]; simpl; [reflexivity|].
  rewrite IH. destruct (Array.firstMin key l) as [y|]; simpl.
  - destruct (key x <? key y) eqn:E1, (key y <? key z) eqn:E2, (key x <? key z) eqn:E3;
      simpl; rewrite ?E1, ?E2, ?E3; try reflexivity;
      apply Nat.ltb_lt in E1 || apply Nat.ltb_ge in E1;
      apply Nat.ltb_lt in E2 || apply Nat.ltb_ge in E2;
      apply Nat.ltb_lt in E3 || apply Nat.ltb_ge in E3; lia.
  - destruct (key x <? key z); reflexivity.
Qed.

Lemma head_insertByKey x l :
  head (ins x l) =
  match head l with
  | Some y => if key x <? key y then Some x else Some y
  | None => Some x
  end.
Proof. destruct l as [|y l]; simpl; [reflexivity|]. now destruct (key x <? key y). Qed.

Lemma head_stableSort_snoc (l : list A) x :
  head (Array.stableSort key (l ++ [x])) =
  match head (Array.stableSort key l) with
  | Some y => if key x <? key y then Some x else Some y
  | None => Some x
  end.
Proof.
  unfold Array.stableSort. rewrite fold_left_app. simpl. apply head_insertByKey.
Qed.

Lemma head_stableSort (l : list A) :
  head (Array.stableSort key l) = Array.firstMin key l.
Proof.
  induction l as [|x l IH] using rev_ind; [reflexivity|].
  now rewrite head_stableSort_snoc, firstMin_snoc, IH.
Qed.

Lemma firstMin_spec (l : list A) m :
  Array.firstMin key l = Some m ->
  exists l1 l2, l = l1 ++ m :: l2 /\
    Forall (fun y => key m < key y) l1 /\ Forall (fun y => key m <= key y) l2.
Proof.
  revert m. induction l as [|x l IH]; intros m; simpl; [discriminate|].
  destruct (Array.firstMin key l) as [y|] eqn:E.
  - destruct (IH y eq_refl) as (l1 & l2 & -> & H1 & H2).
    destruct (key y <? key x) eqn:Ek; intros [= <-].
    + apply Nat.ltb_lt in Ek. exists (x :: l1), l2. repeat split; auto.
    + apply Nat.ltb_ge in Ek. exists [], (l1 ++ y :: l2). repeat split; auto.
      apply Forall_app. split.
      * eapply Forall_impl; [exact H1|]. simpl. intros; lia.
      * constructor; [lia|]. eapply Forall_impl; [exact H2|]. simpl. intros; lia.
  - intros [= <-]. destruct l; [|simpl in E; destruct (Array.firstMin key l); [destruct (_ <? _)|]; discriminate].
    exists [], []. repeat split; constructor.
Qed.
End SortFacts.

(** ** Challenge selection *)

Section SelectionFacts.
Implicit Types (priority : list jsstring) (authz : Authz.t) (a b : Challenge.t).

Lemma indexOfFrom_range (arr : list jsstring) x i :
  indexOfFrom i arr x = (-1)%Z \/
  (i <= indexOfFrom i arr x < i + Z.of_nat (length arr))%Z.
Proof.
  revert i. induction arr as [|y arr IH]; intros i; simpl; [now left|].
  destruct (eqb y x); [right; lia|].
  destruct (IH (i + 1)%Z) as [H|H]; [now left|right; lia].
Qed.

Lemma indexOf_range priority x :
  indexOf priority x = (-1)%Z \/
  (0 <= indexOf priority x < Z.of_nat (length priority))%Z.
Proof. apply (indexOfFrom_range priority x 0). Qed.

Lemma byPriority_rank priority a b :
  (Auto.byPriority priority a b <? 0)%Z = (Auto.rank priority a <? Auto.rank priority b).
Proof.
  unfold Auto.byPriority, Auto.rank.
  destruct (indexOf_range priority (Challenge.type a)) as [Ha|Ha],
           (indexOf_range priority (Challenge.type b)) as [Hb|Hb].
  - rewrite Ha, Hb. simpl. symmetry. apply Nat.ltb_ge. lia.
  - rewrite Ha. simpl.
    destruct (Z.eqb_spec (indexOf priority (Challenge.type b)) (-1)); [lia|].
    symmetry. apply Nat.ltb_ge. lia.
  - rewrite Hb.
    destruct (Z.eqb_spec (indexOf priority (Challenge.type a)) (-1)); [lia|].
    simpl. symmetry. apply Nat.ltb_lt. lia.
  - destruct (Z.eqb_spec (indexOf priority (Challenge.type a)) (-1)); [lia|].
    destruct (Z.eqb_spec (indexOf priority (Challenge.type b)) (-1)); [lia|].
    destruct (Z.ltb_spec (indexOf priority (Challenge.type a)
                            - indexOf priority (Challenge.type b)) 0);
      symmetry; [apply Nat.ltb_lt|apply Nat.ltb_ge]; lia.
Qed.

Lemma sort_byPriority priority (l : list Challenge.t) :
  Array.sort (Auto.byPriority priority) l = Array.stableSort (Auto.rank priority) l.
Proof. apply sort_stableSort. apply byPriority_rank. Qed.

Lemma rank_absent priority a :
  indexOf priority (Challenge.type a) = (-1)%Z -> Auto.rank priority a = length priority.
Proof. unfold Auto.rank. now intros ->. Qed.

Lemma rank_present priority a :
  indexOf priority (Challenge.type a) <> (-1)%Z ->
  Auto.rank priority a = Z.to_nat (indexOf priority (Challenge.type a)) /\
  Auto.rank priority a < length priority.
Proof.
  intros H. unfold Auto.rank.
  destruct (Z.eqb_spec (indexOf priority (Challenge.type a)) (-1)); [contradiction|].
  split; [reflexivity|].
  destruct (indexOf_range priority (Challenge.type a)); lia.
Qed.

Lemma selectChallenge_first priority authz :
  Auto.selectChallenge priority authz =
  match Array.firstMin (Auto.rank priority) (Authz.challenges authz) with
  | Some challenge =>
      Ok ({| Authz.identifier := Authz.identifier authz;
             Authz.challenges :=
               Array.stableSort (Auto.rank priority) (Authz.challenges authz) |},
          challenge)
  | None => Throw (Auto.noChallenge (Identifier.value (Authz.identifier authz)))
  end.
Proof.
  unfold Auto.selectChallenge. rewrite sort_byPriority.
  rewrite <- head_stableSort.
  destruct (Array.stableSort (Auto.rank priority) (Authz.challenges authz)); reflexivity.
Qed.

Lemma firstMin_None {A} (key : A -> nat) (l : list A) :
  Array.firstMin key l = None <-> l = [].
Proof.
  destruct l as [|x l]; simpl; [tauto|].
  split; [|discriminate].
  destruct (Array.firstMin key l); [destruct (_ <? _)|]; discriminate.
Qed.
End SelectionFacts.

(** C3: the selected challenge is the first one, in the order the server
    sent them, among those whose type comes earliest in the priority
    list; when no type is listed it is the first challenge; when there is
    no challenge, selection throws the error that names the domain. *)
Theorem challenge_selection (priority : list jsstring) (authz : Authz.t) :
  let challenges := Authz.challenges authz in
  let d := Identifier.value (Authz.identifier authz) in
  let idx := fun c => indexOf priority (Challenge.type c) in
  match Auto.selectChallenge priority authz with
  | Ok (_, selected) =>
      (exists before after,
          challenges = before ++ selected :: after /\
          Forall (fun c => idx c <> idx selected) before) /\
      (forall c, In c challenges -> idx c <> (-1)%Z ->
                 idx selected <> (-1)%Z /\ (idx selected <= idx c)%Z) /\
      ((forall c, In c challenges -> idx c = (-1)%Z) -> head challenges = Some selected)
  | Throw e =>
      challenges = [] /\
      e = Error (lit "Unable to select challenge for " ++ d ++ lit ", no challenge found") /\
      includes d (lit "Unable to select challenge for " ++ d ++ lit ", no challenge found") = true
  end.
Proof.
  intros challenges d idx. rewrite selectChallenge_first. fold challenges.
  destruct (Array.firstMin (Auto.rank priority) challenges) as [selected|] eqn:E.
  - destruct (firstMin_spec _ _ _ E) as (before & after & Hsplit & Hb & Ha).
    assert (Hrank : forall c, In c challenges ->
                      Auto.rank priority selected <= Auto.rank priority c).
    { intros c Hc. rewrite Hsplit in Hc. apply in_app_or in Hc as [Hc|[<-|Hc]].
      - rewrite Forall_forall in Hb. apply list_elem_of_In in Hc.
        specialize (Hb c Hc). simpl in Hb. lia.
      - lia.
      - rewrite Forall_forall in Ha. apply list_elem_of_In in Hc. apply (Ha c Hc). }
    split; [|split].
    + exists before, after. split; [exact Hsplit|].
      eapply Forall_impl; [exact Hb|]. simpl. intros c Hlt Heq.
      unfold Auto.rank in Hlt. fold (idx c) (idx selected) in Hlt.
      rewrite Heq in Hlt. lia.
    + intros c Hc Hpresent. specialize (Hrank c Hc).
      destruct (rank_present priority c Hpresent) as [Hc1 Hc2].
      assert (Hsel : idx selected <> (-1)%Z).
      { intros Habs. rewrite (rank_absent priority selected Habs) in Hrank. lia. }
      split; [exact Hsel|].
      destruct (rank_present priority selected Hsel) as [Hs1 _].
      destruct (indexOf_range priority (Challenge.type c)) as [?|?]; [contradiction|].
      destruct (indexOf_range priority (Challenge.type selected)) as [?|?]; [contradiction|].
      unfold idx. lia.
    + intros Hnone. rewrite Hsplit. destruct before as [|c before]; [reflexivity|].
      exfalso. apply Forall_cons in Hb as [Hb _].
      rewrite (rank_absent priority c) in Hb
        by (apply Hnone; rewrite Hsplit; now left).
      rewrite (rank_absent priority selected) in Hb
        by (apply Hnone; rewrite Hsplit; apply in_or_app; right; now left).
      lia.
  - apply firstMin_None in E. split; [exact E|]. split; [reflexivity|].
    apply includes_app.
Qed.

(** ** The orchestrators *)

Lemma Forall_imap_intro {A B} (P : B -> Prop) (g : nat -> A -> B) (l : list A) :
  (forall i x, P (g i x)) -> Forall P (imap g l).
Proof.
  revert g. induction l as [|x l IH]; intros g H; simpl; constructor.
  - apply H.
  - apply IH. intros i y. apply H.
Qed.

Ltac quiet_step :=
  first
    [ apply quiet_ret | apply quiet_throw | apply quiet_ofOutcome | apply quiet_PromiseAll
    | apply quiet_emit; reflexivity
    | apply quiet_call; intros; reflexivity
    | apply quiet_bind; [|intros]
    | apply quiet_tryCatch; [|intros]
    | apply quiet_tryFinally
    | apply quiet_tryFinallyLet; [|intros|intros]
    | apply quiet_settle
    | apply quiet_startAll
    | match goal with
      | |- Forall _ (imap _ _) => apply Forall_imap_intro; intros
      | |- Forall _ (map _ _) => apply Forall_map; apply Forall_forall; intros
      end
    | match goal with
      | |- quiet _ (match ?x with _ => _ end) => destruct x
      | |- quiet _ (if ?x then _ else _) => destruct x
      end ].

Ltac quiet_unfold :=
  progress unfold Auto.prepare, Auto.csrBuffer, Auto.registerAccount, Auto.parseDomains,
    Auto.placeOrder, Auto.finalize, Auto.triggerRemove, Auto.messageOf,
    Batch.issue, Batch.challengePromise, Batch.verifyOrLog, Batch.verifyAll,
    Batch.verifyPromise, Batch.destructure,
    Batch.satisfy, Batch.removeAll, Batch.removePromise, Batch.challengeCreatePromise,
    Inline.issue, Inline.challengePromise,
    Auto.logger_info, Auto.logger_error, Auto.sleep.

Ltac quiet_tac := repeat first [quiet_step | quiet_unfold].

Section OrchestratorFacts.
Context {World Order Certificate Buffer Rec : Type}.
Abbreviation event := (Auto.event Order Certificate Buffer Rec).
Abbreviation opts := (Auto.opts World Buffer Rec).
Abbreviation property := (Auto.property World Buffer Rec).
Variable rt : Auto.runtime World Buffer.
Variable c : Auto.client World Order Certificate Buffer.
Implicit Types (o : opts) (w : World) (userOpts : list property).
Abbreviation createPromise := (@Batch.challengeCreatePromise World Order Certificate Buffer Rec).
Abbreviation removePromise := (@Batch.removePromise World Order Certificate Buffer Rec).
Abbreviation removeAll := (@Batch.removeAll World Order Certificate Buffer Rec).
Abbreviation triggerRemove := (@Auto.triggerRemove World Order Certificate Buffer Rec).
Abbreviation destructure := (@Batch.destructure World Order Certificate Buffer Rec).

(** Both files: [auto] is [prepare] followed by [issue]. *)
Lemma Batch_auto_split userOpts w :
  Batch.auto rt c userOpts w =
  bind (Auto.prepare rt c (Auto.assign Auto.defaultOpts userOpts))
       (fun p => Batch.issue c (Auto.assign Auto.defaultOpts userOpts) p.1.1 p.1.2 p.2) w.
Proof.
  unfold Batch.auto, Batch.issue, Auto.prepare. symmetry.
  repeat (rewrite bind_assoc; apply bind_ext; intros).
  destruct a2 as [order authorizations].
  rewrite bind_assoc. apply bind_ext; intros.
  now rewrite bind_ret_l.
Qed.

Lemma Inline_auto_split userOpts w :
  Inline.auto rt c userOpts w =
  bind (Auto.prepare rt c (Auto.assign Auto.defaultOpts userOpts))
       (fun p => Inline.issue c (Auto.assign Auto.defaultOpts userOpts) p.1.1 p.1.2 p.2) w.
Proof.
  unfold Inline.auto, Inline.issue, Auto.prepare. symmetry.
  repeat (rewrite bind_assoc; apply bind_ext; intros).
  destruct a2 as [order authorizations].
  rewrite bind_assoc. apply bind_ext; intros.
  now rewrite bind_ret_l.
Qed.

Lemma flat_map_seq_S {X} (F : nat -> list X) n :
  flat_map F (seq 0 (S n)) = F 0 ++ flat_map (fun i => F (S i)) (seq 0 n).
Proof.
  simpl. f_equal. rewrite <- seq_shift. rewrite flat_map_concat_map, map_map.
  now rewrite <- flat_map_concat_map.
Qed.

(** *** Provisioning *)

Lemma createPromise_run o index (ci : ChallengeInfo.t Rec) w :
  let a := ChallengeInfo.authz ci in
  let ch := ChallengeInfo.challenge ci in
  let k := ChallengeInfo.keyAuthorization ci in
  let d := ChallengeInfo.domain ci in
  let call := Auto.challengeCreateFn o a ch k w in
  createPromise o index ci w =
  match call.1 return outcome (Batch.item Rec) * World * list event with
  | Ok r =>
      (Ok (Batch.Provisioned
             (ChallengeInfo.mk a k d ch (Some r))),
       call.2,
       [Auto.Sleep (N.of_nat index * 2000);
        Auto.Logger Auto.info (lit "[auto] [" ++ d ++ lit "] Trigger challengeCreateFn()") None;
        Auto.ChallengeCreateFn a ch k (Ok r)])
  | Throw e =>
      (Ok (Batch.Caught e), call.2,
       [Auto.Sleep (N.of_nat index * 2000);
        Auto.Logger Auto.info (lit "[auto] [" ++ d ++ lit "] Trigger challengeCreateFn()") None;
        Auto.ChallengeCreateFn a ch k (Throw e);
        Auto.Logger Auto.error (lit "challengeCreate error") (Some e)])
  end.
Proof.
  intros a ch k d call. subst call.
  unfold Batch.challengeCreatePromise, tryCatch, bind, call, Auto.sleep, Auto.logger_info,
    Auto.logger_error, emit, ret.
  fold a ch k d. simpl.
  destruct (Auto.challengeCreateFn o a ch k w) as [[r|e] w1]; reflexivity.
Qed.

Lemma createPhase_spec o (infos : list (ChallengeInfo.t Rec)) (g : nat -> nat) w :
  exists outs w' (t : list event),
    startAll (imap (fun i => createPromise o (g i)) infos) w
      = (Ok (map Ok (zip_with Batch.itemOf infos outs)), w', t) /\
    length outs = length infos /\
    Forall2 (fun ci r =>
               exists w0,
                 (Auto.challengeCreateFn o (ChallengeInfo.authz ci)
                    (ChallengeInfo.challenge ci) (ChallengeInfo.keyAuthorization ci) w0).1
                 = r) infos outs /\
    Auto.createCalls t = zip_with Batch.callOf infos outs /\
    Auto.removeCalls t = [] /\
    Auto.verifyCalls t = [] /\
    Auto.completeCalls t = [] /\
    Auto.timeline t =
      flat_map (fun i => [Auto.Timer (N.of_nat (g i) * 2000); Auto.CreateCall])
               (seq 0 (length infos)).
Proof.
  revert g w. induction infos as [|ci infos IH]; intros g w.
  - exists [], w, []. simpl. repeat split; constructor.
  - destruct (IH (fun i => g (S i))
                (Auto.challengeCreateFn o (ChallengeInfo.authz ci)
                   (ChallengeInfo.challenge ci) (ChallengeInfo.keyAuthorization ci) w).2)
      as (outs & w' & t & Hrun & Hlen & Hrel & Hcalls & Hrm & Hv & Hk & Htl).
    change (imap (fun i => createPromise o (g i)) (ci :: infos))
      with (createPromise o (g 0) ci
              :: imap (fun i => createPromise o (g (S i))) infos).
    cbn [startAll]. unfold bind at 1, settle.
    rewrite createPromise_run. cbn zeta.
    destruct (Auto.challengeCreateFn o (ChallengeInfo.authz ci)
                (ChallengeInfo.challenge ci) (ChallengeInfo.keyAuthorization ci) w)
      as [[r|e] w1] eqn:Ecall; cbn [fst snd] in *;
      unfold bind; rewrite Hrun; cbn [ret];
      [exists (Ok r :: outs), w' | exists (Throw e :: outs), w'];
      eexists; (split; [reflexivity|]);
      change (length (ci :: infos)) with (S (length infos));
      rewrite app_nil_r, flat_map_seq_S;
      unfold Auto.removeCalls, Auto.timeline, Auto.createCalls, Auto.verifyCalls,
        Auto.completeCalls in *;
      rewrite !omap_app;
      rewrite Hrm, Hcalls, Hv, Hk, Htl; cbn [omap list_omap app length];
      (split; [now rewrite Hlen|]);
      (split; [constructor; [exists w; now rewrite Ecall|exact Hrel]|]);
      repeat split; reflexivity.
Qed.

(** *** Removal *)

Lemma omap_nil_mono {X Y} (f1 : event -> option X) (f2 : event -> option Y) (t : list event) :
  (forall e, f1 e = None -> f2 e = None) -> omap f1 t = [] -> omap f2 t = [].
Proof.
  intros H. induction t as [|e t IH]; simpl; [reflexivity|].
  destruct (f1 e) eqn:E; [discriminate|].
  rewrite (H e E). exact IH.
Qed.

Lemma messageOf_run (e : jsval) w :
  @Auto.messageOf World Order Certificate Buffer Rec e w =
  (match e with
   | VUndefined =>
       Throw (TypeError (lit "Cannot read properties of undefined (reading 'message')"))
   | VNull => Throw (TypeError (lit "Cannot read properties of null (reading 'message')"))
   | _ => Ok (Auto.messageText e)
   end, w, []).
Proof. destruct e; reflexivity. Qed.

Lemma triggerRemove_run o d a ch k r w :
  let call := Auto.challengeRemoveFn o a ch k r w in
  let base : list event :=
    [Auto.Logger Auto.info (lit "[auto] [" ++ d ++ lit "] Trigger challengeRemoveFn()") None;
     Auto.ChallengeRemoveFn a ch k r call.1] in
  triggerRemove o d a ch k r w =
  match call.1 with
  | Ok _ => (Ok tt, call.2, base)
  | Throw e =>
      match e with
      | VUndefined =>
          (Throw (TypeError (lit "Cannot read properties of undefined (reading 'message')")),
           call.2, base)
      | VNull =>
          (Throw (TypeError (lit "Cannot read properties of null (reading 'message')")),
           call.2, base)
      | _ =>
          (Ok tt, call.2,
           base ++ [Auto.Logger Auto.info
                      (lit "[auto] [" ++ d ++ lit "] challengeRemoveFn threw error: "
                         ++ Auto.messageText e) None])
      end
  end.
Proof.
  intros call base. subst call base.
  unfold Auto.triggerRemove, tryCatch, bind, call, Auto.logger_info, emit.
  destruct (Auto.challengeRemoveFn o a ch k r w) as [[[]|e] w1]; cbn [fst snd];
    [reflexivity|].
  rewrite messageOf_run. destruct e; reflexivity.
Qed.

Lemma destructure_record first (it : Batch.item Rec) w :
  Batch.isRecord it = true ->
  exists d,
    destructure first it w =
    (Ok {| Batch.f_authz := (Batch.removalArgs it).1.1.1;
           Batch.f_challenge := (Batch.removalArgs it).1.1.2;
           Batch.f_keyAuthorization := (Batch.removalArgs it).1.2;
           Batch.f_record := (Batch.removalArgs it).2;
           Batch.f_domain := d |}, w, []).
Proof.
  destruct it as [ci|[]]; simpl; try discriminate; intros _; eexists; reflexivity.
Qed.

(** One removal task: the timer, then the hook with the arguments of the
    element; the hook's failure ends the task normally unless the thrown
    value has no [message] to read. *)
Lemma removePromise_run o index (it : Batch.item Rec) w :
  Batch.isRecord it = true ->
  let args := Batch.removalArgs it in
  let call := Auto.challengeRemoveFn o args.1.1.1 args.1.1.2 args.1.2 args.2 w in
  exists out t,
    removePromise o index it w = (out, call.2, t) /\
    Auto.removeCalls t = [args] /\
    Auto.timeline t = [Auto.Timer (N.of_nat index * 2000); Auto.RemoveCall] /\
    Auto.createCalls t = [] /\
    Auto.verifyCalls t = [] /\
    Auto.completeCalls t = [] /\
    match call.1 with
    | Throw e => nullish e = false -> out = Ok tt
    | Ok _ => out = Ok tt
    end.
Proof.
  intros Hrec args call.
  destruct (destructure_record (lit "authz") it w Hrec) as [d Hd].
  unfold Batch.removePromise, bind at 1, Auto.sleep, emit. unfold bind at 1.
  rewrite Hd. cbn [Batch.f_authz Batch.f_challenge Batch.f_keyAuthorization
                   Batch.f_record Batch.f_domain].
  rewrite triggerRemove_run. fold args. fold call.
  destruct args as [[[a ch] k] r] eqn:Eargs. cbn [fst snd] in *.
  destruct call.1 as [[]|e] eqn:Ecall.
  - eexists _, _. split; [reflexivity|]. repeat split; reflexivity.
  - destruct e; eexists _, _; (split; [reflexivity|]);
      repeat split; try reflexivity; try discriminate.
Qed.

Lemma removePhase_spec o (items : list (Batch.item Rec)) (g : nat -> nat) w :
  Forall (fun it => Batch.isRecord it = true) items ->
  exists rs w' (t : list event),
    startAll (imap (fun i => removePromise o (g i)) items) w = (Ok rs, w', t) /\
    Auto.removeCalls t = map Batch.removalArgs items /\
    Auto.timeline t =
      flat_map (fun i => [Auto.Timer (N.of_nat (g i) * 2000); Auto.RemoveCall])
               (seq 0 (length items)) /\
    Auto.createCalls t = [] /\
    Auto.verifyCalls t = [] /\
    Auto.completeCalls t = [] /\
    (Auto.failsReadably (Auto.challengeRemoveFn o) -> joinAll rs = Ok (map (fun _ => tt) items)).
Proof.
  intros Hrec. revert g w. induction Hrec as [|it items Hit _ IH]; intros g w.
  - exists [], w, []. simpl. repeat split; reflexivity.
  - destruct (removePromise_run o (g 0) it w Hit)
      as (out & t1 & Hrun1 & Hrm1 & Htl1 & Hc1 & Hv1 & Hk1 & Hout).
    cbn zeta in *.
    destruct (IH (fun i => g (S i))
                (Auto.challengeRemoveFn o (Batch.removalArgs it).1.1.1
                   (Batch.removalArgs it).1.1.2 (Batch.removalArgs it).1.2
                   (Batch.removalArgs it).2 w).2)
      as (rs & w' & t & Hrun & Hrm & Htl & Hc & Hv & Hk & Hjoin).
    change (imap (fun i => removePromise o (g i)) (it :: items))
      with (removePromise o (g 0) it :: imap (fun i => removePromise o (g (S i))) items).
    cbn [startAll]. unfold bind at 1, settle. rewrite Hrun1.
    unfold bind. rewrite Hrun. cbn [ret].
    exists (out :: rs), w', (t1 ++ t ++ []).
    split; [reflexivity|].
    change (length (it :: items)) with (S (length items)).
    rewrite app_nil_r, flat_map_seq_S.
    unfold Auto.removeCalls, Auto.timeline, Auto.createCalls, Auto.verifyCalls,
      Auto.completeCalls in *.
    rewrite !omap_app, Hrm1, Htl1, Hc1, Hv1, Hk1, Hrm, Htl, Hc, Hv, Hk.
    repeat split; try reflexivity.
    intros Hread. specialize (Hjoin Hread).
    assert (out = Ok tt) as ->.
    { destruct (Auto.challengeRemoveFn o _ _ _ _ w).1 as [[]|e] eqn:E; [exact Hout|].
      apply Hout. eapply Hread. exact E. }
    simpl. now rewrite Hjoin.
Qed.

Lemma removeAll_run o (items : list (Batch.item Rec)) w :
  exists out w' (t : list event),
    removeAll o items w = (out, w', t) /\
    Auto.removeCalls t = map Batch.removalArgs (List.filter Batch.isRecord items) /\
    Auto.timeline t =
      Auto.staggered Auto.RemoveCall (length (List.filter Batch.isRecord items)) /\
    Auto.createCalls t = [] /\
    Auto.verifyCalls t = [] /\
    Auto.completeCalls t = [] /\
    (Auto.failsReadably (Auto.challengeRemoveFn o) -> out = Ok tt).
Proof.
  assert (Hrec : Forall (fun it => Batch.isRecord it = true)
                   (List.filter Batch.isRecord items)).
  { apply Forall_forall. intros it Hin. apply list_elem_of_In, filter_In in Hin. tauto. }
  destruct (removePhase_spec o _ (fun i => i) w Hrec)
    as (rs & w' & t & Hrun & Hrm & Htl & Hc & Hv & Hk & Hjoin).
  unfold Batch.removeAll, bind at 1.
  change (imap (Batch.removePromise o) (List.filter Batch.isRecord items))
    with (imap (fun i => removePromise o i) (List.filter Batch.isRecord items)).
  rewrite Hrun. unfold bind, PromiseAll, ofOutcome, ret.
  destruct (joinAll rs) as [l|v] eqn:Ejoin.
  - exists (Ok tt), w', (t ++ [] ++ []). split; [reflexivity|].
    rewrite !app_nil_r. repeat split; assumption || reflexivity.
  - exists (Throw v), w', (t ++ []). split; [reflexivity|].
    rewrite !app_nil_r. repeat split; try assumption.
    intros Hread. specialize (Hjoin Hread). discriminate.
Qed.

(** *** Selection and verification *)

Abbreviation bookkeeping := (quiet (@Auto.challengeEvent Order Certificate Buffer Rec)).

Lemma prepare_bookkeeping o : bookkeeping (Auto.prepare rt c o).
Proof. quiet_tac. Qed.

Lemma finalize_bookkeeping o order csr : bookkeeping (Auto.finalize c o order csr).
Proof. quiet_tac. Qed.

Lemma selectPhase_bookkeeping o authorizations :
  bookkeeping (startAll (map (Batch.challengePromise c o) authorizations)).
Proof. quiet_tac. Qed.

Lemma selectPhase_spec o authorizations w rs w' (t : list event) infos :
  startAll (map (Batch.challengePromise c o) authorizations) w = (Ok rs, w', t) ->
  joinAll rs = Ok infos ->
  Forall2 (fun authz (ci : ChallengeInfo.t Rec) =>
             Auto.selectChallenge (Auto.challengePriority o) authz
               = Ok (ChallengeInfo.authz ci, ChallengeInfo.challenge ci))
          authorizations infos.
Proof.
  revert w rs t infos. induction authorizations as [|authz l IH]; intros w rs t infos; simpl.
  - unfold ret. intros [= <- <- <-]. simpl. intros [= <-]. constructor.
  - unfold bind at 1, settle.
    destruct (Batch.challengePromise c o authz w) as [[r1 w1] t1] eqn:E1.
    unfold bind.
    destruct (startAll (map (Batch.challengePromise c o) l) w1) as [[[rs'|v] w2] t2] eqn:E2;
      [|discriminate].
    unfold ret. intros [= <- <- <-]. simpl.
    destruct r1 as [ci|v]; [|discriminate].
    destruct (joinAll rs') as [infos'|v] eqn:Ej; [|discriminate].
    intros [= <-]. constructor; [|eapply IH; eauto].
    unfold Batch.challengePromise, bind at 1, ofOutcome in E1.
    destruct (Auto.selectChallenge (Auto.challengePriority o) authz) as [[a ch]|v];
      [|discriminate].
    unfold bind, Auto.logger_info, emit, call, ret in E1.
    destruct (Auto.getChallengeKeyAuthorization c ch w) as [[k|v] w3]; [|discriminate].
    injection E1 as <- _ _. reflexivity.
Qed.

Lemma verifyOrLog_quiet {X} (f : event -> option X) o (items : list (Batch.item Rec)) :
  (forall ms, f (Auto.Sleep ms) = None) ->
  (forall a ch r, f (Auto.VerifyChallenge a ch r) = None) ->
  (forall ch r, f (Auto.CompleteChallenge ch r) = None) ->
  (forall ch r, f (Auto.WaitForValidStatus ch r) = None) ->
  (forall l m a, f (Auto.Logger l m a) = None) ->
  quiet f (Batch.verifyOrLog c o items).
Proof.
  intros Hs Hv Hc Hw Hl.
  unfold Batch.verifyOrLog, Batch.verifyAll, Batch.verifyPromise, Batch.destructure,
    Auto.logger_info, Auto.logger_error, Auto.sleep.
  repeat first
    [ apply quiet_ret | apply quiet_throw | apply quiet_ofOutcome | apply quiet_PromiseAll
    | apply quiet_emit; solve [apply Hs | apply Hl]
    | apply quiet_call; intros; solve [apply Hv | apply Hc | apply Hw]
    | apply quiet_bind; [|intros]
    | apply quiet_tryCatch; [|intros]
    | apply quiet_startAll
    | apply Forall_map; apply Forall_forall; intros
    | match goal with
      | |- quiet _ (match ?x with _ => _ end) => destruct x
      | |- quiet _ (if ?x then _ else _) => destruct x
      end ].
Qed.

(** A caught [Error] stops the attempt before the settle wait. *)
Lemma verifyOrLog_abort o (items : list (Batch.item Rec)) e rest w :
  List.filter Batch.isError items = Batch.Caught e :: rest ->
  Batch.verifyOrLog c o items w =
  (Throw (newError e), w,
   [Auto.Logger Auto.error [30003%N; 35831%N; 26102%N; 20986%N; 38169%N; 58%N]
      (Some (newError e))]).
Proof.
  intros H. unfold Batch.verifyOrLog, Batch.verifyAll. rewrite H. reflexivity.
Qed.

Lemma verifyOrLog_timeline o (items : list (Batch.item Rec)) w :
  Auto.timeline (trace (Batch.verifyOrLog c o items w)) =
  match List.filter Batch.isError items with
  | [] => [Auto.Timer 30000]
  | _ => []
  end.
Proof.
  unfold Batch.verifyOrLog, Auto.timeline. rewrite proj_tryCatch.
  assert (Hh : forall v w',
             omap (fun e : event => match e with
                          | Auto.Sleep ms => Some (Auto.Timer ms)
                          | Auto.ChallengeCreateFn _ _ _ _ => Some Auto.CreateCall
                          | Auto.ChallengeRemoveFn _ _ _ _ _ => Some Auto.RemoveCall
                          | _ => None
                          end)
               (trace ((Auto.logger_error [30003%N; 35831%N; 26102%N; 20986%N; 38169%N; 58%N] v ;;
                        throw (A:=unit) v) w')) = []).
  { intros v w'. reflexivity. }
  match goal with
  | |- _ ++ match ?r with Ok _ => [] | Throw v => _ end = _ =>
      replace (match r with Ok _ => [] | Throw v => _ end) with (@nil Auto.tick)
        by (destruct r; [reflexivity|symmetry; apply Hh])
  end.
  rewrite app_nil_r. unfold Batch.verifyAll.
  destruct (List.filter Batch.isError items) as [|[ci|e] rest]; try reflexivity.
  rewrite proj_bind. rewrite proj_bind. rewrite proj_bind.
  cbn [trace result final ret snd fst omap list_omap app Auto.logger_info Auto.sleep emit].
  f_equal.
  apply (quiet_trace _ (_ ;; _)).
  unfold Batch.verifyPromise, Batch.destructure, Auto.logger_info.
  repeat quiet_step.
Qed.

(** *** The challenge phase of the batch orchestrator, step by step *)

Lemma startAll_ok {E A} (tasks : list (M World E A)) w :
  exists rs w' t, startAll tasks w = (Ok rs, w', t).
Proof.
  revert w. induction tasks as [|m tasks IH]; intros w; simpl.
  - now exists [], w, [].
  - unfold bind at 1, settle. destruct (m w) as [[r w1] t1].
    destruct (IH w1) as (rs & w' & t & H). unfold bind. rewrite H.
    now eexists _, _, _.
Qed.

Lemma joinAll_map_Ok {A} (l : list A) : joinAll (map Ok l) = Ok l.
Proof. induction l as [|x l IH]; simpl; [reflexivity|now rewrite IH]. Qed.

Lemma Batch_issue_run o csr order authorizations w :
  exists rs w0 (t0 : list event),
    startAll (map (Batch.challengePromise c o) authorizations) w = (Ok rs, w0, t0) /\
    match joinAll rs with
    | Throw v => Batch.issue c o csr order authorizations w = (Throw v, w0, t0)
    | Ok infos =>
        exists outs w1 (t1 : list event),
          let items := zip_with Batch.itemOf infos outs in
          (length outs = length infos /\
           Forall2 (fun ci r =>
                      exists w0,
                        (Auto.challengeCreateFn o (ChallengeInfo.authz ci)
                           (ChallengeInfo.challenge ci)
                           (ChallengeInfo.keyAuthorization ci) w0).1 = r) infos outs /\
           Auto.createCalls t1 = zip_with Batch.callOf infos outs /\
           Auto.removeCalls t1 = [] /\
           Auto.verifyCalls t1 = [] /\
           Auto.completeCalls t1 = [] /\
           Auto.timeline t1 = Auto.staggered Auto.CreateCall (length infos)) /\
          let g := Batch.verifyOrLog c o items w1 in
          let r := removeAll o items (final g) in
          Batch.issue c o csr order authorizations w =
          match result r, result g with
          | Throw v, _ | Ok _, Throw v =>
              (Throw v, final r, t0 ++ t1 ++ trace g ++ trace r)
          | Ok _, Ok _ =>
              let f := Auto.finalize c o order csr (final r) in
              (result f, final f, t0 ++ t1 ++ trace g ++ trace r ++ trace f)
          end
    end.
Proof.
  destruct (startAll_ok (map (Batch.challengePromise c o) authorizations) w)
    as (rs & w0 & t0 & Hsel).
  exists rs, w0, t0. split; [exact Hsel|].
  destruct (joinAll rs) as [infos|v] eqn:Ejoin.
  2:{ unfold Batch.issue. unfold bind at 1. rewrite Hsel.
      unfold bind at 1, PromiseAll at 1, ofOutcome. rewrite Ejoin.
      now rewrite app_nil_r. }
  destruct (createPhase_spec o infos (fun i => i) w0) as (outs & w1 & t1 & Hcreate & Hfacts).
  exists outs, w1, t1. cbn zeta. split; [exact Hfacts|].
  set (items := zip_with Batch.itemOf infos outs) in *.
  unfold Batch.issue. unfold bind at 1. rewrite Hsel.
  unfold bind at 1, PromiseAll at 1, ofOutcome. rewrite Ejoin.
  unfold bind at 1.
  change (imap (Batch.challengeCreatePromise o) infos)
    with (imap (fun i => createPromise o i) infos).
  rewrite Hcreate.
  unfold bind at 1, PromiseAll at 1, ofOutcome. rewrite joinAll_map_Ok.
  unfold bind, Batch.satisfy, tryFinally, result, final, trace.
  destruct (Batch.verifyOrLog c o items w1) as [[rg wg] tg]. cbn [fst snd].
  destruct (Batch.removeAll o items wg) as [[[[]|v] w2] trm]; cbn [fst snd].
  - destruct rg as [[]|v]; cbn [fst snd].
    + destruct (Auto.finalize c o order csr w2) as [[rf wf] tf]. cbn [fst snd app].
      rewrite <- ?app_assoc. reflexivity.
    + cbn [app]. rewrite <- ?app_assoc. reflexivity.
  - destruct rg; cbn [app]; rewrite <- ?app_assoc; reflexivity.
Qed.

Lemma map_Ok_inj {A} (l1 l2 : list A) : map (@Ok A) l1 = map Ok l2 -> l1 = l2.
Proof.
  revert l2. induction l1 as [|x l1 IH]; intros [|y l2]; simpl; try discriminate.
  - reflexivity.
  - intros [= -> H]. f_equal. now apply IH.
Qed.

Lemma challengeEvent_none {X} (f : event -> option X) (t : list event) :
  (forall e, Auto.challengeEvent e = None -> f e = None) ->
  omap Auto.challengeEvent t = [] -> omap f t = [].
Proof. apply omap_nil_mono. Qed.

Ltac bookkeeping_event :=
  let e := fresh "e" in intros e; destruct e; simpl; intros; congruence.


(** The hook-level projections of a trace that holds bookkeeping only. *)
Lemma bookkeeping_projections (t : list event) :
  omap Auto.challengeEvent t = [] ->
  Auto.createCalls t = [] /\ Auto.removeCalls t = [] /\ Auto.timeline t = [] /\
  Auto.verifyCalls t = [] /\ Auto.completeCalls t = [].
Proof.
  intros H. repeat split; apply (challengeEvent_none _ t); try exact H; bookkeeping_event.
Qed.

(** What the challenge phase of the batch orchestrator calls, in terms
    of the aggregates selected and the outcomes of the creation calls. *)
Lemma Batch_issue_summary o csr order authorizations w :
  let x := Batch.issue c o csr order authorizations w in
  let t := trace x in
  (Auto.createCalls t = [] /\ Auto.removeCalls t = [] /\ Auto.timeline t = [] /\
   Auto.verifyCalls t = [] /\ Auto.completeCalls t = [])
  \/
  exists (infos : list (ChallengeInfo.t Rec)) (outs : list (outcome Rec)),
    let items := zip_with Batch.itemOf infos outs in
    Forall2 (fun authz (ci : ChallengeInfo.t Rec) =>
               Auto.selectChallenge (Auto.challengePriority o) authz
                 = Ok (ChallengeInfo.authz ci, ChallengeInfo.challenge ci))
            authorizations infos /\
    length outs = length infos /\
    Forall2 (fun ci r =>
               exists w0,
                 (Auto.challengeCreateFn o (ChallengeInfo.authz ci)
                    (ChallengeInfo.challenge ci) (ChallengeInfo.keyAuthorization ci) w0).1
                 = r) infos outs /\
    Auto.createCalls t = zip_with Batch.callOf infos outs /\
    Auto.removeCalls t = map Batch.removalArgs (List.filter Batch.isRecord items) /\
    Auto.timeline t =
      Auto.staggered Auto.CreateCall (length infos)
        ++ match List.filter Batch.isError items with
           | [] => [Auto.Timer 30000]
           | _ => []
           end
        ++ Auto.staggered Auto.RemoveCall (length (List.filter Batch.isRecord items)) /\
    (forall e rest,
        List.filter Batch.isError items = Batch.Caught e :: rest ->
        Auto.verifyCalls t = [] /\ Auto.completeCalls t = [] /\
        (Auto.failsReadably (Auto.challengeRemoveFn o) -> result x = Throw (newError e))).
Proof.
  intros x t. subst x t.
  destruct (Batch_issue_run o csr order authorizations w) as (rs & w0 & t0 & Hsel & Hrun).
  pose proof (selectPhase_bookkeeping o authorizations w) as Hq.
  rewrite Hsel in Hq. cbn [trace snd] in Hq.
  destruct (bookkeeping_projections t0 Hq) as (Hc0 & Hr0 & Ht0 & Hv0 & Hk0).
  destruct (joinAll rs) as [infos|v] eqn:Ejoin.
  2:{ left. rewrite Hrun. cbn [trace snd]. auto. }
  right.
  destruct Hrun as (outs & w1 & t1 & Hfacts & Hrun). cbn zeta in Hfacts, Hrun.
  destruct Hfacts as (Hlen & Hrel & Hc1 & Hr1 & Hv1 & Hk1 & Ht1).
  exists infos, outs. cbn zeta.
  set (items := zip_with Batch.itemOf infos outs) in *.
  split; [eapply selectPhase_spec; eauto|].
  split; [exact Hlen|]. split; [exact Hrel|].
  pose proof (verifyOrLog_quiet
                (fun e : event => match e with
                                  | Auto.ChallengeRemoveFn a ch k r _ => Some (a, ch, k, r)
                                  | _ => None
                                  end) o items
                ltac:(reflexivity) ltac:(reflexivity) ltac:(reflexivity)
                ltac:(reflexivity) ltac:(reflexivity) w1) as Hrg.
  pose proof (verifyOrLog_quiet
                (fun e : event => match e with
                                  | Auto.ChallengeCreateFn a ch k r => Some (a, ch, k, r)
                                  | _ => None
                                  end) o items
                ltac:(reflexivity) ltac:(reflexivity) ltac:(reflexivity)
                ltac:(reflexivity) ltac:(reflexivity) w1) as Hcg.
  pose proof (verifyOrLog_timeline o items w1) as Htg.
  assert (Hab : forall e rest,
             List.filter Batch.isError items = Batch.Caught e :: rest ->
             Batch.verifyOrLog c o items w1 =
             (Throw (newError e), w1,
              [Auto.Logger Auto.error [30003%N; 35831%N; 26102%N; 20986%N; 38169%N; 58%N]
                 (Some (newError e))]))
    by (intros e rest He; exact (verifyOrLog_abort o items e rest w1 He)).
  unfold result, final, trace in *.
  destruct (Batch.verifyOrLog c o items w1) as [[rg wg] tg]. cbn [fst snd] in *.
  destruct (removeAll_run o items wg)
    as (out & w2 & trm & Hrem & Hr2 & Ht2 & Hc2 & Hv2 & Hk2 & Hout).
  rewrite Hrem in Hrun. cbn [fst snd] in Hrun.
  pose proof (finalize_bookkeeping o order csr w2) as Hqf. unfold trace in Hqf.
  destruct (bookkeeping_projections _ Hqf) as (Hcf & Hrf & Htf & Hvf & Hkf).
  unfold Auto.removeCalls, Auto.createCalls, Auto.timeline, Auto.verifyCalls,
    Auto.completeCalls in *.
  rewrite Hrun.
  split; [|split; [|split]].
  - destruct out as [[]|v], rg as [[]|v']; cbn [snd]; rewrite !omap_app;
      rewrite ?Hc0, ?Hc1, ?Hcg, ?Hc2, ?Hcf; now rewrite ?app_nil_r.
  - destruct out as [[]|v], rg as [[]|v']; cbn [snd]; rewrite !omap_app;
      rewrite ?Hr0, ?Hr1, ?Hrg, ?Hr2, ?Hrf; now rewrite ?app_nil_r.
  - destruct out as [[]|v], rg as [[]|v']; cbn [snd]; rewrite !omap_app;
      rewrite ?Ht0, ?Ht1, ?Htg, ?Ht2, ?Htf; now rewrite ?app_nil_r.
  - intros e rest He. specialize (Hab e rest He). injection Hab as -> -> ->.
    destruct out as [[]|v]; cbn [snd fst]; rewrite !omap_app;
      rewrite ?Hv0, ?Hv1, ?Hv2, ?Hk0, ?Hk1, ?Hk2; cbn [omap list_omap app];
      (split; [reflexivity|]); (split; [reflexivity|]); intros Hread;
      [reflexivity|specialize (Hout Hread); discriminate].
Qed.

(** *** The whole attempt *)

Lemma prepare_authorizations o w csr order authorizations w' (t : list event) :
  Auto.prepare rt c o w = (Ok (csr, order, authorizations), w', t) ->
  Auto.authorizationLists t = [authorizations].
Proof.
  intros Hp. unfold Auto.prepare in Hp.
  unfold bind at 1 in Hp.
  destruct (Auto.csrBuffer rt o w) as [[[csr'|v] w1] t1] eqn:E1; [|discriminate].
  assert (Ht1 : t1 = []) by (unfold Auto.csrBuffer in E1; destruct (Auto.csr o);
                             unfold ret, throw in E1; congruence).
  subst t1.
  unfold bind at 1 in Hp.
  assert (Hreg : quiet (fun e : event => match e with
                                         | Auto.GetAuthorizations _ (Ok l) => Some l
                                         | _ => None
                                         end) (Auto.registerAccount c o)) by quiet_tac.
  specialize (Hreg w1). unfold trace in Hreg.
  destruct (Auto.registerAccount c o w1) as [[[[]|v] w2] t2]; [|discriminate].
  cbn [snd] in Hreg.
  unfold bind at 1, Auto.parseDomains, bind at 1, Auto.logger_info at 1, emit, bind at 1, call
    in Hp.
  destruct (Auto.readCsrDomains rt csr' w2) as [[domains|v] w3]; [|discriminate].
  unfold bind at 1, Auto.logger_info at 1, emit, ret in Hp.
  unfold bind at 1, Auto.placeOrder, bind at 1, Auto.logger_info at 1, emit, bind at 1, call
    in Hp.
  destruct (Auto.createOrder c _ w3) as [[order'|v] w4]; [|discriminate].
  unfold bind at 1 in Hp.
  destruct (Auto.getAuthorizations c order' w4) as [[authorizations'|v] w5]; [|discriminate].
  unfold bind, Auto.logger_info, emit, ret in Hp.
  injection Hp as <- <- <- <- <-.
  unfold Auto.authorizationLists.
  rewrite !omap_app, Hreg. reflexivity.
Qed.

Lemma Batch_auto_summary userOpts w :
  let o := Auto.assign Auto.defaultOpts userOpts in
  let x := Batch.auto rt c userOpts w in
  let t := trace x in
  (Auto.createCalls t = [] /\ Auto.removeCalls t = [] /\ Auto.timeline t = [] /\
   Auto.verifyCalls t = [] /\ Auto.completeCalls t = [])
  \/
  exists authorizations (infos : list (ChallengeInfo.t Rec)) (outs : list (outcome Rec)),
    let items := zip_with Batch.itemOf infos outs in
    Auto.authorizationLists t = [authorizations] /\
    Forall2 (fun authz (ci : ChallengeInfo.t Rec) =>
               Auto.selectChallenge (Auto.challengePriority o) authz
                 = Ok (ChallengeInfo.authz ci, ChallengeInfo.challenge ci))
            authorizations infos /\
    length outs = length infos /\
    Forall2 (fun ci r =>
               exists w0,
                 (Auto.challengeCreateFn o (ChallengeInfo.authz ci)
                    (ChallengeInfo.challenge ci) (ChallengeInfo.keyAuthorization ci) w0).1
                 = r) infos outs /\
    Auto.createCalls t = zip_with Batch.callOf infos outs /\
    Auto.removeCalls t = map Batch.removalArgs (List.filter Batch.isRecord items) /\
    Auto.timeline t =
      Auto.staggered Auto.CreateCall (length infos)
        ++ match List.filter Batch.isError items with
           | [] => [Auto.Timer 30000]
           | _ => []
           end
        ++ Auto.staggered Auto.RemoveCall (length (List.filter Batch.isRecord items)) /\
    (forall e rest,
        List.filter Batch.isError items = Batch.Caught e :: rest ->
        Auto.verifyCalls t = [] /\ Auto.completeCalls t = [] /\
        (Auto.failsReadably (Auto.challengeRemoveFn o) -> result x = Throw (newError e))).
Proof.
  intros o x t. subst x t. rewrite Batch_auto_split. fold o.
  pose proof (prepare_bookkeeping o w) as Hq.
  pose proof (prepare_authorizations o w) as Hauth.
  unfold bind, trace in *.
  destruct (Auto.prepare rt c o w) as [[[[[csr order] authorizations]|v] w1] tp];
    cbn [snd fst] in *.
  2:{ left. now apply bookkeeping_projections. }
  destruct (bookkeeping_projections tp Hq) as (Hc0 & Hr0 & Ht0 & Hv0 & Hk0).
  specialize (Hauth _ _ _ _ _ eq_refl).
  pose proof (Batch_issue_summary o csr order authorizations w1) as Hsum.
  assert (Hqa : quiet (fun e : event => match e with
                                        | Auto.GetAuthorizations _ (Ok l) => Some l
                                        | _ => None
                                        end) (Batch.issue c o csr order authorizations))
    by quiet_tac.
  specialize (Hqa w1).
  cbn zeta in Hsum. unfold trace, result in *.
  destruct (Batch.issue c o csr order authorizations w1) as [[r w2] ti]. cbn [fst snd] in *.
  unfold Auto.removeCalls, Auto.createCalls, Auto.timeline, Auto.verifyCalls,
    Auto.completeCalls, Auto.authorizationLists in *.
  rewrite !omap_app, Hc0, Hr0, Ht0, Hv0, Hk0, Hauth, Hqa. cbn [app].
  destruct Hsum as [Hsum|(infos & outs & Hsum)]; [left; exact Hsum|right].
  exists authorizations, infos, outs. split; [reflexivity|exact Hsum].
Qed.

(** *** The inline orchestrator *)

Lemma Inline_task o authz w :
  let t := trace (Inline.challengePromise c o authz w) in
  Auto.removeCalls t = map Auto.attempted (Auto.createCalls t) /\
  Forall (fun call =>
            Auto.selectChallenge (Auto.challengePriority o) authz
              = Ok (call.1.1.1, call.1.1.2)) (Auto.createCalls t).
Proof.
  cbn zeta. unfold trace.
  destruct (Inline.challengePromise c o authz w) as [[res w'] t] eqn:Hrun. cbn [snd].
  unfold Inline.challengePromise in Hrun.
  unfold bind at 1, ofOutcome in Hrun.
  destruct (Auto.selectChallenge (Auto.challengePriority o) authz) as [[a ch]|v];
    [|injection Hrun as <- <- <-; split; [reflexivity|constructor]].
  unfold bind at 1, Auto.logger_info at 1, emit in Hrun.
  unfold bind at 1, Auto.logger_info at 1, emit in Hrun.
  unfold bind at 1, call at 1 in Hrun.
  destruct (Auto.getChallengeKeyAuthorization c ch w) as [[k|v] w1];
    [|injection Hrun as <- <- <-; split; [reflexivity|constructor]].
  match type of Hrun with
  | context [tryFinallyLet _ ?r _ w1] => set (body := r) in Hrun
  end.
  unfold tryFinallyLet, call at 1 in Hrun.
  destruct (Auto.challengeCreateFn o a ch k w1) as [[r|e] w2].
  - unfold tryFinally in Hrun.
    assert (Hb1 : quiet (fun e : event => match e with
                              | Auto.ChallengeRemoveFn a ch k r _ => Some (a, ch, k, r)
                              | _ => None
                              end) (body r)) by (subst body; quiet_tac).
    assert (Hb2 : quiet (fun e : event => match e with
                              | Auto.ChallengeCreateFn a ch k r => Some (a, ch, k, r)
                              | _ => None
                              end) (body r)) by (subst body; quiet_tac).
    specialize (Hb1 w2). specialize (Hb2 w2). unfold trace in Hb1, Hb2.
    destruct (body r w2) as [[rb w3] tb].
    cbn [snd] in Hb1, Hb2.
    rewrite triggerRemove_run in Hrun. cbn zeta in Hrun.
    unfold Auto.removeCalls, Auto.createCalls.
    destruct (Auto.challengeRemoveFn o (Some a) (Some ch) (Some k) (Some r) w3)
      as [[[]|e] w4]; cbn [fst snd] in Hrun; [|destruct e];
      injection Hrun as <- <- <-.
    all: cbn; rewrite !omap_app, ?Hb1, ?Hb2; cbn; (split; [reflexivity|repeat constructor]).
  - unfold tryFinally, throw in Hrun.
    rewrite triggerRemove_run in Hrun. cbn zeta in Hrun.
    unfold Auto.removeCalls, Auto.createCalls.
    destruct (Auto.challengeRemoveFn o (Some a) (Some ch) (Some k) None w2)
      as [[[]|e'] w4]; cbn [fst snd] in Hrun; [|destruct e'];
      injection Hrun as <- <- <-; cbn;
      (split; [reflexivity|repeat constructor]).
Qed.

Lemma Inline_tasks o authorizations w :
  let t := trace (startAll (map (Inline.challengePromise c o) authorizations) w) in
  Auto.removeCalls t = map Auto.attempted (Auto.createCalls t) /\
  Forall (fun call =>
            exists authz, In authz authorizations /\
              Auto.selectChallenge (Auto.challengePriority o) authz
                = Ok (call.1.1.1, call.1.1.2)) (Auto.createCalls t).
Proof.
  revert w. induction authorizations as [|authz l IH]; intros w; cbn zeta.
  - split; [reflexivity|constructor].
  - cbn [map]. rewrite trace_startAll_cons.
    pose proof (Inline_task o authz w) as [H1 H2].
    specialize (IH (final (Inline.challengePromise c o authz w))). cbn zeta in IH.
    destruct IH as [H3 H4].
    unfold Auto.removeCalls, Auto.createCalls in *.
    rewrite !omap_app, H1, H3, <- List.map_app.
    split; [reflexivity|].
    apply Forall_app. split.
    + eapply Forall_impl; [exact H2|]. cbn beta. intros call Hc. exists authz.
      split; [now left|exact Hc].
    + eapply Forall_impl; [exact H4|]. cbn beta. intros call (az & Hin & Hc).
      exists az. split; [now right|exact Hc].
Qed.

Lemma prepare_authorizations' o w csr order authorizations :
  result (Auto.prepare rt c o w) = Ok (csr, order, authorizations) ->
  Auto.authorizationLists (trace (Auto.prepare rt c o w)) = [authorizations].
Proof.
  unfold result, trace. intros H.
  destruct (Auto.prepare rt c o w) as [[r w'] t] eqn:E. cbn [fst snd] in *. subst r.
  eapply prepare_authorizations. exact E.
Qed.

Lemma Inline_issue_calls {X} (f : event -> option X) o csr order authorizations w :
  (forall l m a, f (Auto.Logger l m a) = None) ->
  (forall or cs r, f (Auto.FinalizeOrder or cs r) = None) ->
  (forall or ch r, f (Auto.GetCertificate or ch r) = None) ->
  omap f (trace (Inline.issue c o csr order authorizations w)) =
  omap f (trace (startAll (map (Inline.challengePromise c o) authorizations) w)).
Proof.
  intros Hl Hf Hg. unfold Inline.issue. rewrite proj_bind.
  match goal with
  | |- _ ++ ?rest = _ => assert (Hnil : rest = []); [|now rewrite Hnil, app_nil_r]
  end.
  destruct (result _); [|reflexivity].
  apply (quiet_trace f). unfold Auto.finalize, Auto.logger_info, Auto.logger_error.
  repeat first
    [ apply quiet_ret | apply quiet_throw | apply quiet_PromiseAll
    | apply quiet_emit; apply Hl
    | apply quiet_call; intros; first [apply Hf|apply Hg]
    | apply quiet_bind; [|intros]
    | apply quiet_tryCatch; [|intros] ].
Qed.

Lemma Inline_auto_summary userOpts w :
  let o := Auto.assign Auto.defaultOpts userOpts in
  let t := trace (Inline.auto rt c userOpts w) in
  Auto.removeCalls t = map Auto.attempted (Auto.createCalls t) /\
  (Auto.createCalls t = [] \/
   exists authorizations,
     Auto.authorizationLists t = [authorizations] /\
     Forall (fun call =>
               exists authz, In authz authorizations /\
                 Auto.selectChallenge (Auto.challengePriority o) authz
                   = Ok (call.1.1.1, call.1.1.2)) (Auto.createCalls t)).
Proof.
  intros o t. subst t. rewrite Inline_auto_split. fold o.
  pose proof (prepare_bookkeeping o w) as Hq.
  destruct (bookkeeping_projections _ Hq) as (Hc0 & Hr0 & _).
  pose proof (prepare_authorizations' o w) as Hauth.
  unfold Auto.removeCalls, Auto.createCalls, Auto.authorizationLists in *.
  rewrite !proj_bind, Hc0, Hr0. cbn [app].
  destruct (result (Auto.prepare rt c o w)) as [[[csr order] authorizations]|v].
  2:{ split; [reflexivity|now left]. }
  cbn [fst snd].
  rewrite (Hauth _ _ _ eq_refl).
  rewrite !Inline_issue_calls by reflexivity.
  pose proof (Inline_tasks o authorizations (final (Auto.prepare rt c o w))) as [H1 H2].
  split; [exact H1|]. right. exists authorizations. split; [|exact H2].
  assert (Hqa : quiet (fun e : event => match e with
                                        | Auto.GetAuthorizations _ (Ok l) => Some l
                                        | _ => None
                                        end)
                  (startAll (map (Inline.challengePromise c o) authorizations)))
    by quiet_tac.
  now rewrite Hqa.
Qed.
End OrchestratorFacts.

(** ** The claims about the orchestrators *)

Section Claims.
Context {World Order Certificate Buffer Rec : Type}.
Abbreviation event' := (Auto.event Order Certificate Buffer Rec).
Variable rt : Auto.runtime World Buffer.
Variable c : Auto.client World Order Certificate Buffer.
Implicit Types (w : World) (userOpts : list (Auto.property World Buffer Rec)).
Implicit Types (o : Auto.opts World Buffer Rec).

Lemma owed_removals (create : Auto.createFn World Rec)
    (infos : list (ChallengeInfo.t Rec)) (outs : list (outcome Rec)) :
  Auto.failsWithErrors create ->
  Forall2 (fun ci r =>
             exists w0,
               (create (ChallengeInfo.authz ci) (ChallengeInfo.challenge ci)
                  (ChallengeInfo.keyAuthorization ci) w0).1 = r) infos outs ->
  map Batch.removalArgs (List.filter Batch.isRecord (zip_with Batch.itemOf infos outs))
    = omap Auto.removalOwed (zip_with Batch.callOf infos outs) /\
  List.filter Batch.isError (zip_with Batch.itemOf infos outs)
    = map Batch.Caught (omap Auto.failureOf (zip_with Batch.callOf infos outs)).
Proof.
  intros Herr Hrel. induction Hrel as [|ci r infos outs [w0 Hr] _ [IH1 IH2]]; [easy|].
  destruct r as [rec|e]; simpl.
  - rewrite IH1, IH2. easy.
  - rewrite (Herr _ _ _ _ _ Hr). simpl. rewrite andb_false_r, IH1, IH2. easy.
Qed.

(** *** Account registration and order placement *)

Lemma registerAccount_run o w :
  Auto.registerAccount c o w =
  match Auto.getAccountUrl c w return outcome unit * World * list event' with
  | (Ok url, w1) =>
      (Ok tt, w1,
       [Auto.Logger Auto.info (lit "[auto] Checking account") None;
        Auto.GetAccountUrl (Ok url);
        Auto.Logger Auto.info
          (lit "[auto] Account URL already exists, skipping account registration") None])
  | (Throw e, w1) =>
      let call := Auto.createAccount c (Auto.accountPayload o) w1 in
      (call.1, call.2,
       [Auto.Logger Auto.info (lit "[auto] Checking account") None;
        Auto.GetAccountUrl (Throw e);
        Auto.Logger Auto.info (lit "[auto] Registering account") None;
        Auto.CreateAccount (Auto.accountPayload o) call.1])
  end.
Proof.
  unfold Auto.registerAccount, tryCatch, bind, call, Auto.logger_info, emit.
  destruct (Auto.getAccountUrl c w) as [[url|e] w1]; [reflexivity|].
  now destruct (Auto.createAccount c (Auto.accountPayload o) w1) as [[[]|e'] w2].
Qed.

Lemma csrBuffer_run o w :
  exists r, Auto.csrBuffer (Order:=Order) (Certificate:=Certificate) (Rec:=Rec) rt o w
            = (r, w, []).
Proof. unfold Auto.csrBuffer. destruct (Auto.csr o); eexists; reflexivity. Qed.

Lemma prepare_account o {A} (k : Buffer * Order * list Authz.t -> M World event' A) w :
  (forall p, quiet (fun e : event' => match e with
                                      | Auto.GetAccountUrl r => Some r
                                      | _ => None
                                      end) (k p)) ->
  (forall p, quiet (fun e : event' => match e with
                                      | Auto.CreateAccount p r => Some (p, r)
                                      | _ => None
                                      end) (k p)) ->
  Auto.accountOutcome o (bind (Auto.prepare rt c o) k w).
Proof.
  intros Hq Hc. unfold Auto.accountOutcome, Auto.accountQueries, Auto.accountCalls.
  destruct (csrBuffer_run o w) as [r1 E1].
  destruct r1 as [csr|v].
  2:{ assert (Hp : Auto.prepare rt c o w = (Throw v, w, []))
        by (unfold Auto.prepare; now rewrite (bind_throw_run _ _ _ _ _ _ E1)).
      rewrite (bind_throw_run _ _ _ _ _ _ Hp). reflexivity. }
  pose proof (registerAccount_run o w) as E2.
  match type of Hq with
  | forall p, quiet ?f _ => set (fq := f) in *
  end.
  match type of Hc with
  | forall p, quiet ?f _ => set (fc := f) in *
  end.
  (* the statements after the account *)
  set (rest := fun _ : unit =>
                 (domains <- Auto.parseDomains rt csr ;;
                  placed <- Auto.placeOrder c domains ;;
                  let '(order, authorizations) := placed in
                  Auto.logger_info
                    (lit "[auto] Resolving and satisfying authorization challenges") ;;
                  ret (csr, order, authorizations))
                 : M World event' (Buffer * Order * list Authz.t)).
  assert (Hrq : forall u, quiet fq (rest u)) by (intros; subst rest fq; quiet_tac).
  assert (Hrc : forall u, quiet fc (rest u)) by (intros; subst rest fc; quiet_tac).
  assert (Hprep : Auto.prepare rt c o w = bind (Auto.registerAccount c o) rest w).
  { unfold Auto.prepare. rewrite (bind_ok_run _ _ _ _ _ _ E1).
    subst rest. cbn beta.
    destruct (bind (Auto.registerAccount c o) _ w) as [[r w'] t]. reflexivity. }
  destruct (Auto.getAccountUrl c w) as [[url|e] w1].
  - (* the account URL is there *)
    assert (Hx : omap fq (trace (bind (Auto.prepare rt c o) k w)) = [Ok url] /\
                 omap fc (trace (bind (Auto.prepare rt c o) k w)) = []).
    { rewrite !proj_bind, Hprep, !proj_bind, E2. cbn [trace result final fst snd].
      cbn [omap list_omap fq fc app]. rewrite Hrq, Hrc.
      rewrite (bind_ok_run _ _ _ _ _ _ E2). cbn [result final trace fst snd].
      split; (destruct (rest tt w1) as [[[p|v] w2] t2];
              unfold result, final; cbn [fst snd];
              [rewrite ?Hq, ?Hc|]; reflexivity). }
    destruct Hx as [-> ->]. reflexivity.
  - (* asking for it threw *)
    cbn zeta in E2.
    destruct (Auto.createAccount c (Auto.accountPayload o) w1) as [[[]|e'] w2];
      cbn [fst snd] in E2.
    + assert (Hx : omap fq (trace (bind (Auto.prepare rt c o) k w)) = [Throw e] /\
                   omap fc (trace (bind (Auto.prepare rt c o) k w))
                     = [(Auto.accountPayload o, Ok tt)]).
      { rewrite !proj_bind, Hprep, !proj_bind, E2. cbn [trace result final fst snd].
        cbn [omap list_omap fq fc app]. rewrite Hrq, Hrc.
        rewrite (bind_ok_run _ _ _ _ _ _ E2). cbn [result final trace fst snd].
        split; (destruct (rest tt w2) as [[[p|v] w3] t2];
                unfold result, final; cbn [fst snd];
                [rewrite ?Hq, ?Hc|]; reflexivity). }
      destruct Hx as [-> ->]. exists (Ok tt). split; [reflexivity|exact I].
    + assert (Hp : Auto.prepare rt c o w =
                   (Throw e', w2,
                    [Auto.Logger Auto.info (lit "[auto] Checking account") None;
                     Auto.GetAccountUrl (Throw e);
                     Auto.Logger Auto.info (lit "[auto] Registering account") None;
                     Auto.CreateAccount (Auto.accountPayload o) (Throw e')]))
        by (rewrite Hprep; now rewrite (bind_throw_run _ _ _ _ _ _ E2)).
      rewrite (bind_throw_run _ _ _ _ _ _ Hp). cbn [trace snd omap list_omap fq fc].
      exists (Throw e'). split; [reflexivity|]. split; [reflexivity|].
      eexists [_; _; _]. reflexivity.
Qed.

Lemma prepare_order o w :
  let t : list event' := trace (Auto.prepare rt c o w) in
  forall commonName altNames,
    Auto.csrParses t = [Ok (CsrDomains.mk commonName altNames)] ->
    Auto.orderCalls t =
      [{| OrderPayload.identifiers :=
            map (Identifier.mk (lit "dns")) (commonName :: altNames) |}].
Proof.
  cbn zeta. intros cn alts. unfold trace.
  destruct (Auto.prepare rt c o w) as [[res w'] t] eqn:Hp. cbn [snd].
  unfold Auto.prepare in Hp.
  destruct (csrBuffer_run o w) as [[csr|v] E1].
  2:{ rewrite (bind_throw_run _ _ _ _ _ _ E1) in Hp. injection Hp as <- <- <-. discriminate. }
  rewrite (bind_ok_run _ _ _ _ _ _ E1) in Hp.
  assert (Hreg1 : quiet (fun e : event' => match e with
                                           | Auto.ReadCsrDomains _ r => Some r
                                           | _ => None
                                           end) (Auto.registerAccount c o)) by quiet_tac.
  assert (Hreg2 : quiet (fun e : event' => match e with
                                           | Auto.CreateOrder p _ => Some p
                                           | _ => None
                                           end) (Auto.registerAccount c o)) by quiet_tac.
  specialize (Hreg1 w). specialize (Hreg2 w). unfold trace in Hreg1, Hreg2.
  destruct (Auto.registerAccount c o w) as [[[[]|v] w1] t1] eqn:E2; cbn [snd] in *.
  2:{ rewrite (bind_throw_run _ _ _ _ _ _ E2) in Hp. cbn in Hp. injection Hp as <- <- <-.
      unfold Auto.csrParses. rewrite Hreg1. discriminate. }
  rewrite (bind_ok_run _ _ _ _ _ _ E2) in Hp.
  assert (E3 : Auto.parseDomains rt csr w1 =
               match Auto.readCsrDomains rt csr w1
                     return outcome (list jsstring) * World * list event' with
               | (Ok d, w2) =>
                   (Ok ([CsrDomains.commonName d] ++ CsrDomains.altNames d), w2,
                    [Auto.Logger Auto.info
                       (lit "[auto] Parsing domains from Certificate Signing Request") None;
                     Auto.ReadCsrDomains csr (Ok d);
                     Auto.Logger Auto.info
                       (lit "[auto] Resolved "
                          ++ ofNat (length ([CsrDomains.commonName d]
                                              ++ CsrDomains.altNames d))
                          ++ lit " domains from parsing the Certificate Signing Request")
                       None])
               | (Throw e, w2) =>
                   (Throw e, w2,
                    [Auto.Logger Auto.info
                       (lit "[auto] Parsing domains from Certificate Signing Request") None;
                     Auto.ReadCsrDomains csr (Throw e)])
               end).
  { unfold Auto.parseDomains, bind, call, Auto.logger_info, emit, ret.
    now destruct (Auto.readCsrDomains rt csr w1) as [[d|e] w2]. }
  destruct (Auto.readCsrDomains rt csr w1) as [[d|e] w2].
  2:{ rewrite (bind_throw_run _ _ _ _ _ _ E3) in Hp. cbn in Hp. injection Hp as <- <- <-.
      unfold Auto.csrParses. rewrite !omap_app, Hreg1. cbn. discriminate. }
  rewrite (bind_ok_run _ _ _ _ _ _ E3) in Hp.
  set (domains := [CsrDomains.commonName d] ++ CsrDomains.altNames d) in *.
  set (rest := fun placed : Order * list Authz.t =>
                 (let '(order, authorizations) := placed in
                  Auto.logger_info
                    (lit "[auto] Resolving and satisfying authorization challenges") ;;
                  ret (csr, order, authorizations))
                 : M World event' (Buffer * Order * list Authz.t)) in *.
  assert (Hrest1 : forall p, quiet (fun e : event' => match e with
                                           | Auto.ReadCsrDomains _ r => Some r
                                           | _ => None
                                           end) (rest p))
    by (intros [? ?]; subst rest; quiet_tac).
  assert (Hrest2 : forall p, quiet (fun e : event' => match e with
                                           | Auto.CreateOrder p _ => Some p
                                           | _ => None
                                           end) (rest p))
    by (intros [? ?]; subst rest; quiet_tac).
  assert (Hplace1 : Auto.csrParses (trace (bind (Auto.placeOrder c domains) rest w2)) = []).
  { apply (quiet_trace _ (bind _ _)). apply quiet_bind; [quiet_tac|exact Hrest1]. }
  assert (Hplace2 : Auto.orderCalls (trace (bind (Auto.placeOrder c domains) rest w2))
                    = [Auto.orderPayload domains]).
  { unfold Auto.orderCalls. rewrite proj_bind.
    match goal with |- _ ++ ?m = _ => assert (Hn : m = []) end.
    { destruct (result (Auto.placeOrder c domains w2)); [apply Hrest2|reflexivity]. }
    rewrite Hn, app_nil_r. clear Hn.
    unfold Auto.placeOrder. rewrite proj_bind. cbn [Auto.logger_info emit trace result final
                                                      fst snd omap list_omap app].
    rewrite proj_bind. unfold call at 1 2 3.
    destruct (Auto.createOrder c (Auto.orderPayload domains) w2) as [[order|v] w3];
      cbn [trace result fst snd omap list_omap app]; [|reflexivity].
    f_equal. apply (quiet_trace _ (bind _ _)). quiet_tac. }
  unfold trace in Hplace1, Hplace2.
  cbn [result final trace fst snd] in Hp.
  destruct (bind (Auto.placeOrder c domains) rest w2) as [[r3 w3] t3]. cbn [fst snd] in *.
  unfold result, final, trace in Hp. cbn [fst snd] in Hp.
  injection Hp as <- <- <-.
  unfold Auto.csrParses, Auto.orderCalls in *.
  rewrite !omap_app, Hreg1, Hreg2. cbn [omap list_omap app]. rewrite Hplace1, Hplace2.
  intros [= ->]. reflexivity.
Qed.

Lemma prepare_then_order o {A} (k : Buffer * Order * list Authz.t -> M World event' A) w :
  (forall p, quiet (fun e : event' => match e with
                                      | Auto.ReadCsrDomains _ r => Some r
                                      | _ => None
                                      end) (k p)) ->
  (forall p, quiet (fun e : event' => match e with
                                      | Auto.CreateOrder p _ => Some p
                                      | _ => None
                                      end) (k p)) ->
  Auto.orderOutcome (bind (Auto.prepare rt c o) k w).
Proof.
  intros Hq Hc cn alts. unfold Auto.csrParses, Auto.orderCalls.
  rewrite !proj_bind.
  destruct (result (Auto.prepare rt c o w)); rewrite ?Hq, ?Hc, !app_nil_r;
    apply (prepare_order o w).
Qed.

Lemma Batch_issue_account {X} (f : event' -> option X) o csr order authorizations :
  (forall l m a, f (Auto.Logger l m a) = None) ->
  (forall ms, f (Auto.Sleep ms) = None) ->
  (forall ch r, f (Auto.GetChallengeKeyAuthorization ch r) = None) ->
  (forall a ch k r, f (Auto.ChallengeCreateFn a ch k r) = None) ->
  (forall a ch r, f (Auto.VerifyChallenge a ch r) = None) ->
  (forall ch r, f (Auto.CompleteChallenge ch r) = None) ->
  (forall ch r, f (Auto.WaitForValidStatus ch r) = None) ->
  (forall a ch k rec r, f (Auto.ChallengeRemoveFn a ch k rec r) = None) ->
  (forall or cs r, f (Auto.FinalizeOrder or cs r) = None) ->
  (forall or ch r, f (Auto.GetCertificate or ch r) = None) ->
  quiet f (Batch.issue c o csr order authorizations) /\
  quiet f (Inline.issue c o csr order authorizations).
Proof.
  intros H1 H2 H3 H4 H5 H6 H7 H8 H9 H10.
  split;
    repeat first
      [ apply quiet_ret | apply quiet_throw | apply quiet_ofOutcome | apply quiet_PromiseAll
      | apply quiet_emit; solve [apply H1|apply H2]
      | apply quiet_call; intros;
        solve [apply H3|apply H4|apply H5|apply H6|apply H7|apply H8|apply H9|apply H10]
      | apply quiet_bind; [|intros]
      | apply quiet_tryCatch; [|intros]
      | apply quiet_tryFinally
      | apply quiet_tryFinallyLet; [|intros|intros]
      | apply quiet_settle
      | apply quiet_startAll
      | match goal with
        | |- Forall _ (imap _ _) => apply Forall_imap_intro; intros
        | |- Forall _ (map _ _) => apply Forall_map; apply Forall_forall; intros
        end
      | match goal with
        | |- quiet _ (match ?x with _ => _ end) => destruct x
        | |- quiet _ (if ?x then _ else _) => destruct x
        end
      | quiet_unfold ].
Qed.

(** C7: when asking the client for the account URL succeeds, no account
    is created; when it throws, one account is created, with the
    terms-of-service flag of the options and, for a non-empty email, the
    contact [mailto:<email>]; when that creation fails, the attempt ends
    there with its error. *)
Theorem account_registered_when_missing userOpts w :
  let o := Auto.assign Auto.defaultOpts userOpts in
  Auto.accountOutcome o (Batch.auto rt c userOpts w) /\
  Auto.accountOutcome o (Inline.auto rt c userOpts w).
Proof.
  intros o. rewrite Batch_auto_split, Inline_auto_split. fold o.
  split; apply prepare_account; intros p;
    apply Batch_issue_account; reflexivity.
Qed.

(** C9: the order is created once, for the common name of the CSR
    followed by its alternative names in their order, each as an
    identifier of type [dns]. *)
Theorem order_lists_csr_domains userOpts w :
  Auto.orderOutcome (Batch.auto rt c userOpts w) /\
  Auto.orderOutcome (Inline.auto rt c userOpts w).
Proof.
  rewrite Batch_auto_split, Inline_auto_split.
  split; apply prepare_then_order; intros p;
    apply Batch_issue_account; reflexivity.
Qed.

Lemma selectChallenge_sorted (priority : list jsstring) (authz a : Authz.t) ch :
  Auto.selectChallenge priority authz = Ok (a, ch) ->
  Authz.identifier a = Authz.identifier authz /\
  Permutation (Authz.challenges a) (Authz.challenges authz) /\
  StronglySorted (fun x y => Auto.rank priority x <= Auto.rank priority y)
    (Authz.challenges a) /\
  head (Authz.challenges a) = Some ch.
Proof.
  rewrite selectChallenge_first.
  destruct (Array.firstMin _ _) as [m|] eqn:E; [|discriminate].
  intros [= <- <-]. cbn [Authz.identifier Authz.challenges].
  split; [reflexivity|]. split; [apply stableSort_perm|].
  split; [apply stableSort_sorted|]. now rewrite head_stableSort.
Qed.

(** C10: the authorization that reaches the hooks is the one the server
    sent with its challenges sorted: same identifier, the same challenges
    in non-decreasing position of type in the priority list, the selected
    challenge in front. *)
Theorem hooks_see_sorted_challenges userOpts w :
  let o := Auto.assign Auto.defaultOpts userOpts in
  let priority := Auto.challengePriority o in
  let sortedFrom (a : Authz.t) (ch : Challenge.t) (t : list event') :=
    exists authorizations authz,
      Auto.authorizationLists t = [authorizations] /\
      In authz authorizations /\
      Authz.identifier a = Authz.identifier authz /\
      Permutation (Authz.challenges a) (Authz.challenges authz) /\
      StronglySorted (fun x y => Auto.rank priority x <= Auto.rank priority y)
        (Authz.challenges a) /\
      head (Authz.challenges a) = Some ch in
  forall t,
    t = trace (Batch.auto rt c userOpts w) \/ t = trace (Inline.auto rt c userOpts w) ->
    (forall a ch k r, In (a, ch, k, r) (Auto.createCalls t) -> sortedFrom a ch t) /\
    (forall a ch k r, In (Some a, Some ch, k, r) (Auto.removeCalls t) -> sortedFrom a ch t).
Proof.
  intros o priority sortedFrom t Ht.
  assert (Hgoal : forall a ch,
             (exists authorizations authz,
                 Auto.authorizationLists t = [authorizations] /\
                 In authz authorizations /\
                 Auto.selectChallenge priority authz = Ok (a, ch)) ->
             sortedFrom a ch t).
  { intros a ch (authorizations & authz & Hl & Hin & Hsel).
    exists authorizations, authz. split; [exact Hl|]. split; [exact Hin|].
    now apply selectChallenge_sorted. }
  destruct Ht as [-> | ->].
  - destruct (Batch_auto_summary rt c userOpts w)
      as [(Hc & Hr & _)|(authorizations & infos & outs & Hsum)].
    + rewrite Hc, Hr. split; intros ? ? ? ? [].
    + cbn zeta in Hsum. fold o priority in Hsum.
      destruct Hsum as (Hauth & Hsel & Hlen & _ & Hc & Hr & _).
      assert (Hinfo : forall ci, In ci infos ->
                 exists authz, In authz authorizations /\
                   Auto.selectChallenge priority authz
                     = Ok (ChallengeInfo.authz ci, ChallengeInfo.challenge ci)).
      { clear -Hsel. induction Hsel as [|authz ci l infos Hs _ IH]; intros ci' [].
        - subst. exists authz. split; [now left|exact Hs].
        - destruct (IH ci' H) as (az & Hin & Hz). exists az. split; [now right|exact Hz]. }
      split; intros a ch k r Hin; apply Hgoal.
      * rewrite Hc in Hin.
        assert (exists ci, In ci infos /\ a = ChallengeInfo.authz ci
                           /\ ch = ChallengeInfo.challenge ci) as (ci & Hci & -> & ->).
        { clear -Hin. revert outs Hin. induction infos as [|ci infos IH]; intros [|r' outs];
            simpl; try tauto.
          intros [[= <- <- _ _]|Hin].
          - exists ci. auto.
          - destruct (IH _ Hin) as (ci' & ? & ? & ?). exists ci'. auto. }
        destruct (Hinfo ci Hci) as (authz & Hz1 & Hz2). now exists authorizations, authz.
      * rewrite Hr in Hin.
        assert (exists ci, In ci infos /\ a = ChallengeInfo.authz ci
                           /\ ch = ChallengeInfo.challenge ci) as (ci & Hci & -> & ->).
        { clear -Hin. revert outs Hin. induction infos as [|ci infos IH]; intros [|r' outs];
            simpl; try tauto.
          destruct r' as [rec|e]; simpl.
          - intros [[= <- <- _ _]|Hin].
            + exists ci. auto.
            + destruct (IH _ Hin) as (ci' & ? & ? & ?). exists ci'. auto.
          - destruct (truthy e && negb (instanceofError e)); simpl.
            + intros [[=]|Hin]. destruct (IH _ Hin) as (ci' & ? & ? & ?). exists ci'. auto.
            + intros Hin. destruct (IH _ Hin) as (ci' & ? & ? & ?). exists ci'. auto. }
        destruct (Hinfo ci Hci) as (authz & Hz1 & Hz2). now exists authorizations, authz.
  - destruct (Inline_auto_summary rt c userOpts w) as [Hr [Hc|(authorizations & Hauth & Hall)]].
    + rewrite Hr, Hc. split; intros ? ? ? ? [].
    + fold o priority in Hall. rewrite Forall_forall in Hall.
      split; intros a ch k r Hin; apply Hgoal.
      * apply list_elem_of_In in Hin. destruct (Hall _ Hin) as (authz & Hz1 & Hz2).
        now exists authorizations, authz.
      * rewrite Hr in Hin. apply in_map_iff in Hin as ([[[a' ch'] k'] r'] & Heq & Hin).
        apply list_elem_of_In in Hin. destruct (Hall _ Hin) as (authz & Hz1 & Hz2).
        cbn [fst snd] in Hz2.
        assert (a = a' /\ ch = ch') as [-> ->]
          by (destruct r'; simpl in Heq; injection Heq; auto).
        now exists authorizations, authz.
Qed.

(** *** Failures of the removal hook *)

Abbreviation removalProj :=
  (fun e : event' => match e with
                     | Auto.ChallengeRemoveFn a ch k r _ => Some (a, ch, k, r)
                     | _ => None
                     end).

Abbreviation quieted := (@Auto.quieted World Buffer Rec).

Lemma triggerRemove_agree o d a ch k r :
  Auto.failsReadably (Auto.challengeRemoveFn o) ->
  agree removalProj
    (Auto.triggerRemove (Order:=Order) (Certificate:=Certificate) (Buffer:=Buffer) o d a ch k r)
    (Auto.triggerRemove (quieted o) d a ch k r).
Proof.
  intros Hread w. rewrite !triggerRemove_run. cbn zeta.
  unfold Auto.quieted. cbn [Auto.setProperty Auto.challengeRemoveFn Auto.silenced fst snd].
  specialize (Hread a ch k r w).
  destruct (Auto.challengeRemoveFn o a ch k r w) as [[[]|e] w1]; cbn [fst snd] in *.
  - repeat split.
  - specialize (Hread e eq_refl). destruct e; try discriminate; repeat split.
Qed.

Lemma Forall2_imap_same {A B} (P : B -> B -> Prop) (g1 g2 : nat -> A -> B) (l : list A) :
  (forall i x, P (g1 i x) (g2 i x)) -> Forall2 P (imap g1 l) (imap g2 l).
Proof.
  revert g1 g2. induction l as [|x l IH]; intros g1 g2 H; simpl; constructor.
  - apply H.
  - apply IH. intros i y. apply H.
Qed.

Lemma Forall2_map_same {A B} (P : B -> B -> Prop) (g1 g2 : A -> B) (l : list A) :
  (forall x, P (g1 x) (g2 x)) -> Forall2 P (map g1 l) (map g2 l).
Proof. intros H. induction l; simpl; constructor; auto. Qed.

Lemma Batch_issue_agree o csr order authorizations :
  Auto.failsReadably (Auto.challengeRemoveFn o) ->
  agree removalProj (Batch.issue c o csr order authorizations)
                    (Batch.issue c (quieted o) csr order authorizations).
Proof.
  intros Hread. unfold Batch.issue.
  apply agree_bind; [apply agree_refl|intros ps].
  apply agree_bind; [apply agree_refl|intros infos].
  apply agree_bind; [apply agree_refl|intros cs].
  apply agree_bind; [apply agree_refl|intros items].
  apply agree_bind; [|intros; apply agree_refl].
  unfold Batch.satisfy. apply agree_tryFinally; [apply agree_refl|].
  unfold Batch.removeAll.
  apply agree_bind; [|intros; apply agree_refl].
  apply agree_startAll. apply Forall2_imap_same. intros i it.
  unfold Batch.removePromise.
  apply agree_bind; [apply agree_refl|intros].
  apply agree_bind; [apply agree_refl|intros].
  now apply triggerRemove_agree.
Qed.

Lemma Inline_issue_agree o csr order authorizations :
  Auto.failsReadably (Auto.challengeRemoveFn o) ->
  agree removalProj (Inline.issue c o csr order authorizations)
                    (Inline.issue c (quieted o) csr order authorizations).
Proof.
  intros Hread. unfold Inline.issue.
  apply agree_bind; [|intros; apply agree_refl].
  apply agree_startAll. apply Forall2_map_same. intros authz.
  unfold Inline.challengePromise.
  apply agree_bind; [apply agree_refl|intros [a ch]].
  apply agree_bind; [apply agree_refl|intros].
  apply agree_bind; [apply agree_refl|intros].
  apply agree_bind; [apply agree_refl|intros k].
  apply agree_tryFinallyLet. intros r.
  now apply triggerRemove_agree.
Qed.

Lemma assign_snoc (defaults : Auto.opts World Buffer Rec) userOpts p :
  Auto.assign defaults (userOpts ++ [p]) = Auto.setProperty (Auto.assign defaults userOpts) p.
Proof. unfold Auto.assign. now rewrite fold_left_app. Qed.

(** X19: when the removal hook never throws [undefined] or [null], a
    failure of the hook is logged and the removal block completes
    normally; the attempt then ends exactly as it would have had the hook
    returned: with the same result, in the same world, after the same
    removal calls. *)
Theorem removal_failures_are_suppressed userOpts w :
  let o := Auto.assign Auto.defaultOpts userOpts in
  let quietOpts :=
    userOpts ++ [Auto.ChallengeRemoveFnP (Auto.silenced (Auto.challengeRemoveFn o))] in
  Auto.failsReadably (Auto.challengeRemoveFn o) ->
  (forall d a ch k r w0 e,
      (Auto.challengeRemoveFn o a ch k r w0).1 = Throw e ->
      Auto.triggerRemove o d a ch k r w0 =
      (Ok tt, (Auto.challengeRemoveFn o a ch k r w0).2,
       [Auto.Logger Auto.info (lit "[auto] [" ++ d ++ lit "] Trigger challengeRemoveFn()") None;
        Auto.ChallengeRemoveFn a ch k r (Throw e);
        Auto.Logger Auto.info
          (lit "[auto] [" ++ d ++ lit "] challengeRemoveFn threw error: "
             ++ Auto.messageText e) None] : list event')) /\
  (let x := Batch.auto rt c userOpts w in
   let y := Batch.auto rt c quietOpts w in
   result x = result y /\ final x = final y /\
   Auto.removeCalls (trace x) = Auto.removeCalls (trace y)) /\
  (let x := Inline.auto rt c userOpts w in
   let y := Inline.auto rt c quietOpts w in
   result x = result y /\ final x = final y /\
   Auto.removeCalls (trace x) = Auto.removeCalls (trace y)).
Proof.
  intros o quietOpts Hread. split; [|split].
  - intros d a ch k r w0 e He. rewrite triggerRemove_run. cbn zeta.
    specialize (Hread a ch k r w0 e He).
    destruct (Auto.challengeRemoveFn o a ch k r w0) as [[[]|e'] w1]; cbn [fst snd] in *;
      [discriminate|].
    injection He as ->. destruct e; try discriminate; reflexivity.
  - cbn zeta. subst quietOpts. rewrite !Batch_auto_split, assign_snoc. fold o.
    apply (agree_bind removalProj (Auto.prepare rt c o) (Auto.prepare rt c (quieted o)));
      [apply agree_refl|].
    intros p. now apply Batch_issue_agree.
  - cbn zeta. subst quietOpts. rewrite !Inline_auto_split, assign_snoc. fold o.
    apply (agree_bind removalProj (Auto.prepare rt c o) (Auto.prepare rt c (quieted o)));
      [apply agree_refl|].
    intros p. now apply Inline_issue_agree.
Qed.
End Claims.

(** ** The claims on the runs of the scenario *)

Lemma createFn_failsWithErrors : Auto.failsWithErrors Scenario.createFn.
Proof.
  intros a ch k w e. unfold Scenario.createFn.
  destruct (eqb _ _); cbn [fst]; [intros [= <-]; reflexivity|discriminate].
Defined.

Lemma removeFn_failsReadably : Auto.failsReadably Scenario.removeFn.
Proof. intros a ch k r w e. unfold Scenario.removeFn. cbn [fst]. intros [= <-]. reflexivity. Defined.



(** With the default priority, [http-01] is selected for an authorization
    that lists [dns-01] first. *)
Lemma challenge_selection_witness :
  let priority := [lit "http-01"; lit "dns-01"] in
  let authz := Scenario.authorization "a.com" ["dns-01"; "http-01"]%string in
  let dns := Scenario.challenge "dns-01" "a.com" in
  let http := Scenario.challenge "http-01" "a.com" in
  (In dns (Authz.challenges authz) /\
   indexOf priority (Challenge.type dns) <> (-1)%Z) /\
  Auto.selectChallenge priority authz
    = Ok (Scenario.authorization "a.com" ["http-01"; "dns-01"]%string, http) /\
  indexOf priority (Challenge.type http) <> (-1)%Z /\
  (indexOf priority (Challenge.type http) <= indexOf priority (Challenge.type dns))%Z.
Proof.
  intros priority authz dns http.
  assert (Hin : In dns (Authz.challenges authz)) by (left; reflexivity).
  assert (Hidx : indexOf priority (Challenge.type dns) <> (-1)%Z)
    by (vm_compute; discriminate).
  assert (Hsel : Auto.selectChallenge priority authz
                 = Ok (Scenario.authorization "a.com" ["http-01"; "dns-01"]%string, http))
    by (vm_compute; reflexivity).
  pose proof (challenge_selection priority authz) as Hthm. cbv zeta in Hthm.
  rewrite Hsel in Hthm. destruct Hthm as (_ & Hmin & _).
  split; [split; [exact Hin|exact Hidx]|].
  split; [exact Hsel|]. exact (Hmin dns Hin Hidx).
Defined.

(** The removal hook of the scenario always fails; the batch run ends
    with the creation failure all the same, as it does with the hook
    silenced. *)
Lemma removal_failures_are_suppressed_witness :
  let o := Auto.assign Auto.defaultOpts Scenario.userOpts in
  let quietOpts :=
    Scenario.userOpts ++ [Auto.ChallengeRemoveFnP (Auto.silenced Scenario.removeFn)] in
  let x := Batch.auto Scenario.rt Scenario.client Scenario.userOpts tt in
  let y := Batch.auto Scenario.rt Scenario.client quietOpts tt in
  let x' := Inline.auto Scenario.rt Scenario.client Scenario.userOpts tt in
  let y' := Inline.auto Scenario.rt Scenario.client quietOpts tt in
  Auto.failsReadably Scenario.removeFn /\
  (result x = result y /\ final x = final y /\
   Auto.removeCalls (trace x) = Auto.removeCalls (trace y)) /\
  (result x' = result y' /\ final x' = final y' /\
   Auto.removeCalls (trace x') = Auto.removeCalls (trace y')).
Proof.
  intros o quietOpts x y x' y'.
  destruct (removal_failures_are_suppressed Scenario.rt Scenario.client Scenario.userOpts tt
              removeFn_failsReadably) as (_ & Hbatch & Hinline).
  split; [exact removeFn_failsReadably|]. split; [exact Hbatch|exact Hinline].
Defined.

(** The challenge file of [a.com] is served with a trailing newline, and
    accepted. *)
Lemma http01_verification_witness :
  let authz := Scenario.authorization "a.com" ["http-01"%string] in
  let challenge := Scenario.challenge "http-01" "a.com" in
  let ka := Scenario.keyAuthorization in
  let run := Verify.verifyHttpChallenge Scenario.net authz challenge ka None tt in
  (Forall (fun c => isWhiteSpace c = true) [10%N] /\
   stripEnd ka = ka /\ ka <> []) /\
  Verify.httpQueries (trace run)
    = [lit "http://a.com:80/.well-known/acme-challenge/token-a.com"] /\
  result run = Ok true.
Proof.
  intros authz challenge ka run.
  assert (Hws : Forall (fun c => isWhiteSpace c = true) [10%N])
    by (repeat constructor).
  assert (Hka : stripEnd ka = ka) by (vm_compute; reflexivity).
  assert (Hne : ka <> []) by (vm_compute; discriminate).
  pose proof (http01_verification Scenario.net authz challenge ka tt) as Hthm.
  cbv zeta in Hthm. destruct Hthm as (Hurl & _ & Hbody).
  split; [exact (conj Hws (conj Hka Hne))|].
  split; [exact Hurl|].
  cbn [Verify.axios_get Scenario.net Verify.data] in Hbody.
  destruct Hbody as (_ & _ & Hstrip).
  exact (Hstrip [10%N] Hws eq_refl Hka Hne).
Defined.

(** C5 as stated fails for network errors: the error of the HTTP client
    comes out as it is, and it does not name the domain. *)
Lemma network_error_propagates :
  let authz := Scenario.authorization "a.com" ["http-01"%string] in
  let challenge := Scenario.challenge "http-01" "a.com" in
  let run := Verify.verifyHttpChallenge Scenario.unreachable authz challenge
               Scenario.keyAuthorization None tt in
  result run = Throw (Error (lit "timeout of 10000ms exceeded")) /\
  includes (lit "a.com") (lit "timeout of 10000ms exceeded") = false /\
  result run <> Throw (Error (lit "Authorization not found in HTTP response from a.com")).
Proof. vm_compute. repeat split. discriminate. Qed.

(** [_acme-challenge.a.com] is an alias: the TXT query goes to its
    target, where the key authorization is the second of two records. *)
Lemma dns01_verification_witness :
  let authz := Scenario.authorization "a.com" ["dns-01"%string] in
  let challenge := Scenario.challenge "dns-01" "a.com" in
  let ka := Scenario.keyAuthorization in
  let run := Verify.verifyDnsChallenge Scenario.net authz challenge ka None tt in
  In ka (concat [[lit "another-order.thumbprint"]; [ka]]) /\
  Verify.cnameQueries (trace run) = [lit "_acme-challenge.a.com"] /\
  Verify.txtQueries (trace run) = [lit "challenges.example.net"] /\
  result run = Ok true.
Proof.
  intros authz challenge ka run.
  assert (Hin : In ka (concat [[lit "another-order.thumbprint"]; [ka]]))
    by (right; left; reflexivity).
  pose proof (dns01_verification Scenario.net authz challenge ka tt) as Hthm.
  cbv zeta in Hthm. destruct Hthm as (Hcname & Htxt & _ & Hanswers).
  split; [exact Hin|]. split; [exact Hcname|]. split; [exact Htxt|].
  assert (Htarget :
            Verify.resolveTxtAsync Scenario.net (lit "challenges.example.net") tt
            = (Ok [[lit "another-order.thumbprint"]; [ka]], tt))
    by (vm_compute; reflexivity).
  change (match Verify.resolveTxtAsync Scenario.net (lit "challenges.example.net") tt with
          | (Ok answers, _) =>
              (result run = Ok true <-> In ka (concat answers)) /\
              (~ In ka (concat answers) ->
               result run = Throw (Error (lit "Authorization not found in DNS TXT records for "
                                            ++ Identifier.value (Authz.identifier authz))))
          | (Throw e, _) => result run = Throw e
          end) in Hanswers.
  rewrite Htarget in Hanswers. destruct Hanswers as [Hiff _].
  apply Hiff. exact Hin.
Defined.

(** A client that refuses the registration: the attempt ends with its
    error. *)
Lemma account_registered_when_missing_witness :
  let x := Batch.auto Scenario.rt Scenario.refusingClient Scenario.userOpts tt in
  Auto.accountCalls (trace x)
    = [({| AccountPayload.termsOfServiceAgreed := true;
           AccountPayload.contact := Some [lit "mailto:admin@a.com"] |},
        Throw (Error (lit "account creation refused")))] /\
  result x = Throw (Error (lit "account creation refused")).
Proof.
  intros x.
  assert (Hcalls : Auto.accountCalls (trace x)
            = [({| AccountPayload.termsOfServiceAgreed := true;
                   AccountPayload.contact := Some [lit "mailto:admin@a.com"] |},
                Throw (Error (lit "account creation refused")))])
    by (vm_compute; reflexivity).
  assert (Hquery : Auto.accountQueries (trace x)
            = [Throw (Error (lit "No account URL found, register account first"))])
    by (vm_compute; reflexivity).
  destruct (account_registered_when_missing Scenario.rt Scenario.refusingClient
              Scenario.userOpts tt) as [Hbatch _].
  unfold Auto.accountOutcome in Hbatch. fold x in Hbatch. rewrite Hquery in Hbatch.
  destruct Hbatch as (r & Hr & Hend).
  rewrite Hcalls in Hr. injection Hr as <-.
  split; [reflexivity|]. exact (proj1 Hend).
Defined.

(** The CSR of the scenario: [a.com] with [b.com] and [c.com]. *)
Lemma order_lists_csr_domains_witness :
  let x := Batch.auto Scenario.rt Scenario.client Scenario.userOpts tt in
  let y := Inline.auto Scenario.rt Scenario.client Scenario.userOpts tt in
  let identifiers :=
    [Identifier.mk (lit "dns") (lit "a.com");
     Identifier.mk (lit "dns") (lit "b.com");
     Identifier.mk (lit "dns") (lit "c.com")] in
  (Auto.csrParses (trace x) = [Ok (CsrDomains.mk (lit "a.com") [lit "b.com"; lit "c.com"])] /\
   Auto.csrParses (trace y) = [Ok (CsrDomains.mk (lit "a.com") [lit "b.com"; lit "c.com"])]) /\
  Auto.orderCalls (trace x) = [{| OrderPayload.identifiers := identifiers |}] /\
  Auto.orderCalls (trace y) = [{| OrderPayload.identifiers := identifiers |}].
Proof.
  intros x y identifiers.
  assert (Hx : Auto.csrParses (trace x)
               = [Ok (CsrDomains.mk (lit "a.com") [lit "b.com"; lit "c.com"])])
    by (vm_compute; reflexivity).
  assert (Hy : Auto.csrParses (trace y)
               = [Ok (CsrDomains.mk (lit "a.com") [lit "b.com"; lit "c.com"])])
    by (vm_compute; reflexivity).
  destruct (order_lists_csr_domains Scenario.rt Scenario.client Scenario.userOpts tt)
    as [Hbatch Hinline].
  split; [split; [exact Hx|exact Hy]|].
  split; [exact (Hbatch _ _ Hx)|exact (Hinline _ _ Hy)].
Defined.

(** The server lists [dns-01] before [http-01] for [a.com]; both hooks
    receive the authorization with [http-01] in front. *)
Lemma hooks_see_sorted_challenges_witness :
  let t := trace (Batch.auto Scenario.rt Scenario.client Scenario.userOpts tt) in
  let priority := [lit "http-01"; lit "dns-01"] in
  let passed := Scenario.authorization "a.com" ["http-01"; "dns-01"]%string in
  let http := Scenario.challenge "http-01" "a.com" in
  let k := lit "token-a.com.thumbprint" in
  let r := lit "record-a.com" in
  (In (passed, http, k, Ok r) (Auto.createCalls t) /\
   In (Some passed, Some http, Some k, Some r) (Auto.removeCalls t)) /\
  exists authorizations authz,
    Auto.authorizationLists t = [authorizations] /\
    In authz authorizations /\
    Authz.identifier passed = Authz.identifier authz /\
    Permutation (Authz.challenges passed) (Authz.challenges authz) /\
    StronglySorted (fun x y => Auto.rank priority x <= Auto.rank priority y)
      (Authz.challenges passed) /\
    head (Authz.challenges passed) = Some http.
Proof.
  intros t priority passed http k r.
  assert (Hcreate : In (passed, http, k, Ok r) (Auto.createCalls t))
    by (vm_compute; left; reflexivity).
  assert (Hremove : In (Some passed, Some http, Some k, Some r) (Auto.removeCalls t))
    by (vm_compute; left; reflexivity).
  destruct (hooks_see_sorted_challenges Scenario.rt Scenario.client Scenario.userOpts tt
              t (or_introl eq_refl)) as [Hc _].
  split; [split; [exact Hcreate|exact Hremove]|].
  exact (Hc passed http k (Ok r) Hcreate).
Defined.

(** * Further properties of the code *)

(** ** The verifier, whatever the suffix and the prefix *)

Lemma stripEnd_split (s : jsstring) :
  exists ws, s = stripEnd s ++ ws /\ Forall (fun c => isWhiteSpace c = true) ws.
Proof.
  induction s as [|c s (ws & Hs & Hws)]; [exists []; split; [reflexivity|constructor]|].
  simpl. destruct (stripEnd s) as [|x t] eqn:E.
  - simpl in Hs. subst s. destruct (isWhiteSpace c) eqn:Hc.
    + exists (c :: ws). split; [reflexivity|now constructor].
    + exists ws. split; [reflexivity|assumption].
  - exists ws. split; [|assumption]. now rewrite Hs at 1.
Qed.

Lemma stripEnd_last (s : jsstring) c :
  last (stripEnd s) = Some c -> isWhiteSpace c = false.
Proof.
  induction s as [|c0 s IH]; simpl; [discriminate|].
  destruct (stripEnd s) as [|x t] eqn:E.
  - destruct (isWhiteSpace c0) eqn:Hc; simpl; [discriminate|]. now intros [= <-].
  - intros H. apply IH. exact H.
Qed.

Lemma stripEnd_idempotent (s : jsstring) : stripEnd (stripEnd s) = stripEnd s.
Proof.
  induction s as [|c s IH]; simpl; [reflexivity|].
  destruct (stripEnd s) as [|x t] eqn:E.
  - destruct (isWhiteSpace c) eqn:Hc; simpl; [reflexivity|now rewrite Hc].
  - change (stripEnd (c :: x :: t)) with
      (match stripEnd (x :: t) with [] => if isWhiteSpace c then [] else [c] | t' => c :: t' end).
    now rewrite IH.
Qed.

(** X1: [replace(/\s+$/, '')] removes a suffix made of white space only,
    leaves a string that does not end in white space, and changes nothing
    when applied again. *)
Theorem stripEnd_removes_trailing_whitespace (s : jsstring) :
  (exists ws, s = stripEnd s ++ ws /\ Forall (fun c => isWhiteSpace c = true) ws) /\
  (forall c, last (stripEnd s) = Some c -> isWhiteSpace c = false) /\
  stripEnd (stripEnd s) = stripEnd s.
Proof.
  split; [apply stripEnd_split|]. split; [apply stripEnd_last|apply stripEnd_idempotent].
Qed.

Section VerifierRuns.
Context {World : Type}.
Implicit Types (net : Verify.network World) (w : World).

Lemma verifyHttpChallenge_run net (authz : Authz.t) (challenge : Challenge.t)
    (ka : jsstring) (suffix : option jsstring) w :
  let url := Verify.challengeUrl net authz (default (Verify.defaultSuffix challenge) suffix) in
  let run := Verify.verifyHttpChallenge net authz challenge ka suffix w in
  Verify.httpQueries (trace run) = [url] /\
  Verify.cnameQueries (trace run) = [] /\
  Verify.txtQueries (trace run) = [] /\
  final run = (Verify.axios_get net url w).2 /\
  result run =
    match (Verify.axios_get net url w).1 with
    | Throw e => Throw e
    | Ok resp =>
        match Verify.data resp with
        | Verify.DString body =>
            if eqb (stripEnd body) [] || negb (eqb (stripEnd body) ka)
            then Throw (Verify.httpNotFound authz) else Ok true
        | Verify.DFalsy => Throw (Verify.httpNotFound authz)
        | Verify.DOther => Throw (TypeError Verify.noReplace)
        end
    end.
Proof.
  intros url run. subst run.
  unfold Verify.verifyHttpChallenge, Verify.info, bind, call, emit, trace, result, final.
  fold url. cbn [fst snd].
  destruct (Verify.axios_get net url w) as [[resp|e] w1]; cbn [fst snd]; [|easy].
  unfold Verify.stripData.
  destruct (Verify.data resp) as [body| |]; cbn; try easy.
  destruct (eqb (stripEnd body) [] || negb (eqb (stripEnd body) ka)); cbn; easy.
Qed.

(** X2: whatever the suffix and whatever the answer, http-01 sends its
    one GET to [http://<domain>:<port><suffix>] and makes no DNS query; a
    failure of the GET is the error of the verification; on a string body
    and for a non-empty key authorization, the bodies it accepts are
    exactly the key authorization followed by white space only, so that
    white space in front of it is not forgiven, and a key authorization
    that itself ends in white space is never found. *)
Theorem http01_accepted_bodies net (authz : Authz.t) (challenge : Challenge.t)
    (ka : jsstring) (suffix : option jsstring) w :
  let d := Identifier.value (Authz.identifier authz) in
  let port := match Verify.httpChallengePort net with Some (S p) => S p | _ => 80 end in
  let path := match suffix with
              | Some s => s
              | None => lit "/.well-known/acme-challenge/" ++ Challenge.token challenge
              end in
  let url := lit "http://" ++ d ++ lit ":" ++ ofNat port ++ path in
  let run := Verify.verifyHttpChallenge net authz challenge ka suffix w in
  Verify.httpQueries (trace run) = [url] /\
  Verify.cnameQueries (trace run) = [] /\
  Verify.txtQueries (trace run) = [] /\
  match Verify.axios_get net url w with
  | (Throw e, w') => result run = Throw e /\ final run = w'
  | (Ok resp, w') =>
      final run = w' /\
      forall body,
        Verify.data resp = Verify.DString body ->
        ka <> [] ->
        (result run = Ok true <->
         stripEnd ka = ka /\
         exists ws, Forall (fun c => isWhiteSpace c = true) ws /\ body = ka ++ ws) /\
        (result run <> Ok true ->
         result run
         = Throw (Error (lit "Authorization not found in HTTP response from " ++ d)))
  end.
Proof.
  intros d port path url run.
  destruct (verifyHttpChallenge_run net authz challenge ka suffix w)
    as (Hq & Hc & Ht & Hfin & Hres).
  assert (Hurl : Verify.challengeUrl net authz (default (Verify.defaultSuffix challenge) suffix)
                 = url) by (destruct suffix; reflexivity).
  rewrite Hurl in Hq, Hres, Hfin. fold run in Hq, Hc, Ht, Hres, Hfin.
  split; [exact Hq|]. split; [exact Hc|]. split; [exact Ht|].
  destruct (Verify.axios_get net url w) as [[resp|e] w1]; cbn [fst snd] in Hres, Hfin;
    [|exact (conj Hres Hfin)].
  split; [exact Hfin|]. intros body Hdata Hne. rewrite Hdata in Hres.
  rewrite Hres. unfold Verify.httpNotFound. fold d.
  destruct (eqb (stripEnd body) []) eqn:E1; cbn [orb].
  - apply eqb_eq in E1. split; [|auto]. split; [discriminate|].
    intros (Hka & ws & Hws & ->). rewrite stripEnd_app_whitespace, Hka in E1 by assumption.
    contradiction.
  - destruct (eqb (stripEnd body) ka) eqn:E2; cbn [negb].
    + apply eqb_eq in E2. split; [|intros H; now contradiction H]. split; [|reflexivity].
      intros _. split.
      * rewrite <- E2. apply stripEnd_idempotent.
      * destruct (stripEnd_split body) as (ws & Hb & Hws). exists ws. split; [exact Hws|].
        now rewrite <- E2.
    + apply eqb_neq in E2. split; [|auto]. split; [discriminate|].
      intros (Hka & ws & Hws & ->). rewrite stripEnd_app_whitespace, Hka in E2 by assumption.
      contradiction.
Qed.

Lemma indexOf_absent (l : list jsstring) (x : jsstring) :
  indexOf l x = (-1)%Z <-> ~ In x l.
Proof.
  assert (H : forall i, (0 <= i)%Z -> indexOfFrom i l x = (-1)%Z <-> ~ In x l).
  { induction l as [|y l IH]; intros i Hi; simpl.
    - tauto.
    - destruct (eqb y x) eqn:E.
      + apply eqb_eq in E. split; [lia|]. intros H. exfalso. apply H. now left.
      + apply eqb_neq in E. rewrite IH by lia. split; [intros H [?|?]; auto|tauto]. }
  apply H. lia.
Qed.

Lemma verifyDnsChallenge_run net (authz : Authz.t) (challenge : Challenge.t)
    (ka : jsstring) (prefix : option jsstring) w :
  let name := default (lit "_acme-challenge.") prefix
                ++ Identifier.value (Authz.identifier authz) in
  let cname := Verify.resolveCnameAsync net name w in
  let target := match cname.1 with Ok (c :: _) => c | _ => name end in
  let txt := Verify.resolveTxtAsync net target cname.2 in
  let run := Verify.verifyDnsChallenge net authz challenge ka prefix w in
  Verify.cnameQueries (trace run) = [name] /\
  Verify.txtQueries (trace run) = [target] /\
  Verify.httpQueries (trace run) = [] /\
  final run = txt.2 /\
  result run =
    match txt.1 with
    | Throw e => Throw e
    | Ok answers =>
        if (indexOf (concat answers) ka =? -1)%Z
        then Throw (Verify.dnsNotFound authz) else Ok true
    end.
Proof.
  intros name cname target txt run. subst run txt target cname.
  unfold Verify.verifyDnsChallenge, Verify.info, bind, tryCatch, call, emit,
    trace, result, final.
  fold name.
  destruct (Verify.resolveCnameAsync net name w) as [[[|c0 cs]|e] w1]; simpl;
    match goal with
    | |- context [Verify.resolveTxtAsync ?nt ?n ?w1] =>
        destruct (Verify.resolveTxtAsync nt n w1) as [[answers|e'] w2]
    end; simpl; try easy;
    unfold indexOf;
    match goal with
    | |- context [if ?b then _ else _] => destruct b
    end; simpl; easy.
Qed.

(** X3: whatever the prefix, dns-01 makes one CNAME query, at
    [<prefix><domain>], one TXT query, at the first CNAME target or else
    at that same name, and no HTTP request.  A failure of the TXT query
    is the error of the verification, and an answer makes it succeed
    exactly when one of its segments is the key authorization. *)
Theorem dns01_queries net (authz : Authz.t) (challenge : Challenge.t)
    (ka : jsstring) (prefix : option jsstring) w :
  let d := Identifier.value (Authz.identifier authz) in
  let name := match prefix with Some p => p | None => lit "_acme-challenge." end ++ d in
  let cname := Verify.resolveCnameAsync net name w in
  let target := match cname.1 with Ok (c :: _) => c | _ => name end in
  let run := Verify.verifyDnsChallenge net authz challenge ka prefix w in
  Verify.cnameQueries (trace run) = [name] /\
  Verify.txtQueries (trace run) = [target] /\
  Verify.httpQueries (trace run) = [] /\
  match Verify.resolveTxtAsync net target cname.2 with
  | (Throw e, w') => result run = Throw e /\ final run = w'
  | (Ok answers, w') =>
      final run = w' /\
      (result run = Ok true <-> exists answer, In answer answers /\ In ka answer) /\
      (result run <> Ok true ->
       result run
       = Throw (Error (lit "Authorization not found in DNS TXT records for " ++ d)))
  end.
Proof.
  intros d name cname target run.
  destruct (verifyDnsChallenge_run net authz challenge ka prefix w)
    as (Hc & Ht & Hh & Hw & Hres).
  assert (Hname : default (lit "_acme-challenge.") prefix
                    ++ Identifier.value (Authz.identifier authz) = name)
    by (destruct prefix; reflexivity).
  rewrite Hname in Hc, Ht, Hw, Hres. fold cname target run in Hc, Ht, Hh, Hw, Hres.
  split; [exact Hc|]. split; [exact Ht|]. split; [exact Hh|].
  destruct (Verify.resolveTxtAsync net target cname.2) as [[answers|e] w'];
    cbn [fst snd] in Hw, Hres; [|easy].
  split; [exact Hw|]. rewrite Hres. unfold Verify.dnsNotFound. fold d.
  destruct (indexOf (concat answers) ka =? -1)%Z eqn:E.
  - apply Z.eqb_eq, indexOf_absent in E. split; [|auto]. split; [discriminate|].
    intros (answer & Hin & Hka). exfalso. apply E.
    apply in_concat. eauto.
  - apply Z.eqb_neq in E. split; [|intros H; now contradiction H]. split; [|reflexivity].
    intros _. rewrite indexOf_absent in E.
    destruct (decide (ka ∈ concat answers)) as [H|H]; rewrite list_elem_of_In in H;
      [|contradiction].
    apply in_concat in H as (answer & H1 & H2). eauto.
Qed.

End VerifierRuns.

(** ** The comparator and the order of the sorted challenges *)

Section StableFacts.
Context {A : Type}.
Variable key : A -> nat.
Variable r : nat.

Lemma filter_insertByKey_other x (l : list A) :
  key x <> r ->
  List.filter (fun y => key y =? r) (Array.insertByKey key x l)
  = List.filter (fun y => key y =? r) l.
Proof.
  intros Hx. apply Nat.eqb_neq in Hx.
  induction l as [|y l IH]; simpl; [now rewrite Hx|].
  destruct (key x <? key y); simpl; [now rewrite Hx|].
  now rewrite IH.
Qed.

Lemma filter_insertByKey_same x (l : list A) :
  StronglySorted (fun a b => key a <= key b) l ->
  key x = r ->
  List.filter (fun y => key y =? r) (Array.insertByKey key x l)
  = List.filter (fun y => key y =? r) l ++ [x].
Proof.
  intros Hs Hx. induction Hs as [|y l Hs IH Hy]; simpl.
  - apply Nat.eqb_eq in Hx. now rewrite Hx.
  - destruct (key x <? key y) eqn:E; simpl.
    + apply Nat.ltb_lt in E.
      assert (Hy' : (key y =? r) = false) by (apply Nat.eqb_neq; lia).
      rewrite Hy'.
      assert (Hnone : List.filter (fun y => key y =? r) l = []).
      { clear -Hy E Hx. induction l as [|z l IH]; [reflexivity|].
        apply Forall_cons in Hy as [Hz Hl]. simpl.
        assert (Hz' : (key z =? r) = false) by (apply Nat.eqb_neq; lia).
        rewrite Hz'. now apply IH. }
      rewrite Hnone. apply Nat.eqb_eq in Hx. now rewrite Hx.
    + rewrite IH. now destruct (key y =? r).
Qed.

Lemma filter_stableSort (l : list A) :
  List.filter (fun y => key y =? r) (Array.stableSort key l)
  = List.filter (fun y => key y =? r) l.
Proof.
  unfold Array.stableSort.
  assert (H : forall R S,
             StronglySorted (fun a b => key a <= key b) S ->
             List.filter (fun y => key y =? r)
               (fold_left (fun acc x => Array.insertByKey key x acc) R S)
             = List.filter (fun y => key y =? r) S ++ List.filter (fun y => key y =? r) R).
  { induction R as [|x R IH]; intros S Hs; simpl; [now rewrite app_nil_r|].
    rewrite IH by now apply insertByKey_sorted.
    destruct (Nat.eqb_spec (key x) r) as [Hx|Hx].
    - rewrite filter_insertByKey_same by assumption. now rewrite <- app_assoc.
    - now rewrite filter_insertByKey_other. }
  apply (H l []). constructor.
Qed.
End StableFacts.

(** X4: the comparator handed to [sort] puts a challenge before another
    exactly when its type comes strictly earlier in the priority list, a
    type that is not listed counting as last; between two listed types it
    is the difference of their positions, and it answers [1] whenever the
    first type is not listed, the second be listed or not. *)
Theorem byPriority_compares_ranks (priority : list jsstring) (a b : Challenge.t) :
  let idx := fun c => indexOf priority (Challenge.type c) in
  ((Auto.byPriority priority a b < 0)%Z <-> Auto.rank priority a < Auto.rank priority b) /\
  (idx a = (-1)%Z -> Auto.byPriority priority a b = 1%Z) /\
  (idx a <> (-1)%Z -> idx b <> (-1)%Z ->
   Auto.byPriority priority a b = (idx a - idx b)%Z).
Proof.
  intros idx. split; [|split].
  - pose proof (byPriority_rank priority a b) as H.
    destruct (Z.ltb_spec (Auto.byPriority priority a b) 0),
             (Nat.ltb_spec (Auto.rank priority a) (Auto.rank priority b));
      try discriminate; split; intros; lia.
  - intros Ha. unfold Auto.byPriority. fold (idx a). now rewrite Ha.
  - intros Ha Hb. unfold Auto.byPriority. fold (idx a) (idx b).
    destruct (Z.eqb_spec (idx a) (-1)); [contradiction|].
    destruct (Z.eqb_spec (idx b) (-1)); [contradiction|]. reflexivity.
Qed.

(** X5: sorting keeps the order the server gave to the challenges
    that have the same position in the priority list: those of one listed
    type, and those of the types that are not listed. *)
Theorem selection_is_stable (priority : list jsstring) (authz sorted : Authz.t)
    (selected : Challenge.t) (position : nat) :
  Auto.selectChallenge priority authz = Ok (sorted, selected) ->
  List.filter (fun c => Auto.rank priority c =? position) (Authz.challenges sorted)
  = List.filter (fun c => Auto.rank priority c =? position) (Authz.challenges authz).
Proof.
  unfold Auto.selectChallenge. rewrite sort_byPriority.
  destruct (Array.stableSort (Auto.rank priority) (Authz.challenges authz)) eqn:E;
    [discriminate|].
  intros [= <- _]. cbn [Authz.challenges]. rewrite <- E. apply filter_stableSort.
Qed.

(** ** Normal completions *)

Section CleanFacts.
Context {World Event X : Type}.
Variable f : Event -> option X.
Implicit Types (w : World).

Lemma clean_quiet {A} (m : M World Event A) : quiet f m -> clean f m.
Proof. intros H w _. apply H. Qed.

Lemma clean_call {A} (g : World -> outcome A * World) (ev : outcome A -> Event) :
  (forall a, f (ev (Ok a)) = None) -> clean f (call g ev).
Proof.
  intros H w. unfold call, result, trace. destruct (g w) as [[a|v] w1]; simpl.
  - intros _. now rewrite H.
  - discriminate.
Qed.

Lemma clean_bind {A B} (m : M World Event A) (k : A -> M World Event B) :
  clean f m -> (forall a, clean f (k a)) -> clean f (bind m k).
Proof.
  intros Hm Hk w. specialize (Hm w). unfold bind, result, trace in *.
  destruct (m w) as [[[a|v] w1] t1]; simpl in *; [|discriminate].
  specialize (Hk a w1). unfold result, trace in Hk.
  destruct (k a w1) as [[r w2] t2]; simpl in *.
  intros Hr. now rewrite omap_app, Hm, Hk.
Qed.

Lemma clean_tryCatch {A} (m : M World Event A) (h : jsval -> M World Event A) :
  quiet f m -> (forall v, clean f (h v)) -> clean f (tryCatch m h).
Proof.
  intros Hm Hh w. specialize (Hm w). unfold tryCatch, result, trace in *.
  destruct (m w) as [[[a|v] w1] t1]; simpl in *; [auto|].
  specialize (Hh v w1). unfold result, trace in Hh.
  destruct (h v w1) as [[r w2] t2]; simpl in *.
  intros Hr. now rewrite omap_app, Hm, Hh.
Qed.

Lemma clean_tryCatch_rethrow {A} (m : M World Event A) (h : jsval -> M World Event A) :
  clean f m -> (forall v w, isOk (result (h v w)) = false) -> clean f (tryCatch m h).
Proof.
  intros Hm Hh w. specialize (Hm w). unfold tryCatch, result, trace in *.
  destruct (m w) as [[[a|v] w1] t1]; simpl in *; [auto|].
  specialize (Hh v w1). unfold result in Hh.
  destruct (h v w1) as [[r w2] t2]; simpl in *. congruence.
Qed.

Lemma clean_tryFinally {A} (m : M World Event A) (g : M World Event unit) :
  clean f m -> clean f g -> clean f (tryFinally m g).
Proof.
  intros Hm Hg w. specialize (Hm w). unfold tryFinally, result, trace in *.
  destruct (m w) as [[r w1] t1]; simpl in *.
  specialize (Hg w1). unfold result, trace in Hg.
  destruct (g w1) as [[[[]|v] w2] t2]; simpl in *; [|discriminate].
  intros Hr. now rewrite omap_app, Hm, Hg.
Qed.

Lemma clean_tryFinallyLet {A B} (first : M World Event B) (rest : B -> M World Event A)
    (g : option B -> M World Event unit) :
  clean f first -> (forall b, clean f (rest b)) -> (forall x, clean f (g x)) ->
  clean f (tryFinallyLet first rest g).
Proof.
  intros Hf Hr Hg w. specialize (Hf w). unfold tryFinallyLet, result, trace in *.
  destruct (first w) as [[[b|v] w1] t1]; simpl in *.
  - pose proof (clean_tryFinally (rest b) (g (Some b)) (Hr b) (Hg (Some b)) w1) as H.
    unfold result, trace in H.
    destruct (tryFinally (rest b) (g (Some b)) w1) as [[r w2] t2]; simpl in *.
    intros Hok. now rewrite omap_app, Hf, H.
  - unfold tryFinally, throw.
    destruct (g None w1) as [[[[]|v'] w2] t2]; simpl; discriminate.
Qed.

Lemma startAll_clean {A} (tasks : list (M World Event A)) w :
  Forall (clean f) tasks ->
  exists rs,
    result (startAll tasks w) = Ok rs /\
    (isOk (joinAll rs) = true -> omap f (trace (startAll tasks w)) = []).
Proof.
  intros H. revert w. induction H as [|m tasks Hm _ IH]; intros w.
  - exists []. split; reflexivity.
  - specialize (Hm w). simpl. unfold bind, settle, ret, result, trace in *.
    destruct (m w) as [[r w1] t1]; simpl in *.
    destruct (IH w1) as (rs & Hrs & Hclean).
    destruct (startAll tasks w1) as [[r' w2] t2]; simpl in *. subst r'.
    exists (r :: rs). split; [reflexivity|].
    simpl. intros Hjoin. rewrite app_nil_r, omap_app.
    destruct r as [a|v]; [|discriminate].
    rewrite Hm by reflexivity.
    destruct (joinAll rs); [|discriminate]. now rewrite Hclean.
Qed.

Lemma clean_startAll {A B} (tasks : list (M World Event A))
    (k : list (outcome A) -> M World Event B) :
  Forall (clean f) tasks ->
  (forall rs, clean f (k rs)) ->
  (forall rs w, isOk (result (k rs w)) = true -> isOk (joinAll rs) = true) ->
  clean f (bind (startAll tasks) k).
Proof.
  intros Ht Hk Hjoin w.
  destruct (startAll_clean tasks w Ht) as (rs & Hrs & Hclean).
  specialize (Hk rs). unfold bind, result, trace in *.
  destruct (startAll tasks w) as [[r w1] t1]; simpl in *. subst r.
  specialize (Hk w1). specialize (Hjoin rs w1). unfold result, trace in Hk, Hjoin.
  destruct (k rs w1) as [[r w2] t2]; simpl in *.
  intros Hok. now rewrite omap_app, Hclean, Hk by auto.
Qed.
End CleanFacts.

(** ** Computations that stop at a failure *)

Section StopFacts.
Context {World Event : Type}.
Variable f : Event -> option jsval.
Implicit Types (w : World).

Lemma omap_nil_In {X} (g : Event -> option X) (t : list Event) e :
  omap g t = [] -> In e t -> g e = None.
Proof.
  induction t as [|e0 t IH]; [easy|]. cbn.
  destruct (g e0) eqn:E; [discriminate|]. intros Ht [<-|Hin]; auto.
Qed.

Lemma stops_quiet {A} (m : M World Event A) : quiet f m -> stops f m.
Proof.
  intros Hq w e v Hin He. rewrite (omap_nil_In f _ e (Hq w) Hin) in He. discriminate.
Qed.

Lemma stops_call {A} (g : World -> outcome A * World) (ev : outcome A -> Event) :
  (forall r v, f (ev r) = Some v -> r = Throw v) -> stops f (call g ev).
Proof.
  intros H w e v. unfold call, result, trace. destruct (g w) as [r w1]; cbn [fst snd].
  intros [<-|[]] He. now rewrite (H r v He).
Qed.

Lemma stops_bind {A B} (m : M World Event A) (k : A -> M World Event B) :
  stops f m -> clean f m -> (forall a, stops f (k a)) -> stops f (bind m k).
Proof.
  intros Hm Hc Hk w e v. specialize (Hm w e v). specialize (Hc w).
  unfold bind, result, trace in *.
  destruct (m w) as [[[a|v0] w1] t1]; cbn [fst snd] in *;
    [|intros Hin He; destruct (Hm Hin He) as [[= ->] Hl]; now split].
  specialize (Hk a w1 e v). unfold result, trace in Hk.
  destruct (k a w1) as [[r w2] t2]; cbn [fst snd] in *.
  intros Hin He. apply in_app_or in Hin as [Hin|Hin].
  - rewrite (omap_nil_In f _ e (Hc eq_refl) Hin) in He. discriminate.
  - destruct (Hk Hin He) as [Hr Hl]. split; [exact Hr|].
    rewrite last_app, Hl. reflexivity.
Qed.

Lemma stops_tryCatch {A} (m : M World Event A) (h : jsval -> M World Event A) :
  quiet f m -> (forall v, stops f (h v)) -> stops f (tryCatch m h).
Proof.
  intros Hq Hh w e v. specialize (Hq w). unfold tryCatch, result, trace in *.
  destruct (m w) as [[[a|v0] w1] t1]; cbn [fst snd] in *.
  - intros Hin He. rewrite (omap_nil_In f _ e Hq Hin) in He. discriminate.
  - specialize (Hh v0 w1 e v). unfold result, trace in Hh.
    destruct (h v0 w1) as [[r w2] t2]; cbn [fst snd] in *.
    intros Hin He. apply in_app_or in Hin as [Hin|Hin].
    + rewrite (omap_nil_In f _ e Hq Hin) in He. discriminate.
    + destruct (Hh Hin He) as [Hr Hl]. split; [exact Hr|].
      rewrite last_app, Hl. reflexivity.
Qed.
End StopFacts.

Lemma call_run {World Event A} (g : World -> outcome A * World) (ev : outcome A -> Event)
    (w : World) :
  result (call g ev w) = (g w).1 /\ final (call g ev w) = (g w).2 /\
  trace (call g ev w) = [ev (g w).1].
Proof. unfold call, result, final, trace. now destruct (g w). Qed.

Lemma proj_tryFinallyLet {World Event X A B} (f : Event -> option X)
    (first : M World Event B) (rest : B -> M World Event A)
    (fin : option B -> M World Event unit) (w : World) :
  omap f (trace (tryFinallyLet first rest fin w)) =
  omap f (trace (first w)) ++
  match result (first w) with
  | Ok b =>
      omap f (trace (rest b (final (first w))))
        ++ omap f (trace (fin (Some b) (final (rest b (final (first w))))))
  | Throw _ => omap f (trace (fin None (final (first w))))
  end.
Proof.
  unfold tryFinallyLet, result, final, trace.
  destruct (first w) as [[[b|v] w1] t1]; cbn [fst snd].
  - pose proof (proj_tryFinally f (rest b) (fin (Some b)) w1) as H.
    unfold final, trace in H.
    destruct (tryFinally (rest b) (fin (Some b)) w1) as [[r w2] t2]; cbn [fst snd] in *.
    now rewrite omap_app, H.
  - pose proof (proj_tryFinally f (@throw World Event A v) (fin None) w1) as H.
    unfold final, trace in H.
    destruct (tryFinally (throw v) (fin None) w1) as [[r w2] t2]; cbn [fst snd] in *.
    now rewrite omap_app, H.
Qed.

(** ** Projections that keep the same values *)

Section BalancedFacts.
Context {World Event X : Type}.
Variables f g : Event -> option X.
Implicit Types (w : World).

Lemma balanced_quiet {A} (m : M World Event A) : quiet f m -> quiet g m -> balanced f g m.
Proof. intros Hf Hg w. now rewrite Hf, Hg. Qed.

Lemma balanced_bind {A B} (m : M World Event A) (k : A -> M World Event B) :
  balanced f g m -> (forall a, balanced f g (k a)) -> balanced f g (bind m k).
Proof.
  intros Hm Hk w. rewrite !proj_bind, Hm.
  destruct (result (m w)); [now rewrite Hk|reflexivity].
Qed.

Lemma balanced_tryCatch {A} (m : M World Event A) (h : jsval -> M World Event A) :
  balanced f g m -> (forall v, balanced f g (h v)) -> balanced f g (tryCatch m h).
Proof.
  intros Hm Hh w. rewrite !proj_tryCatch, Hm.
  destruct (result (m w)); [reflexivity|now rewrite Hh].
Qed.

Lemma balanced_tryFinally {A} (m : M World Event A) (fin : M World Event unit) :
  balanced f g m -> balanced f g fin -> balanced f g (tryFinally m fin).
Proof. intros Hm Hfin w. now rewrite !proj_tryFinally, Hm, Hfin. Qed.

Lemma balanced_tryFinallyLet {A B} (first : M World Event B) (rest : B -> M World Event A)
    (fin : option B -> M World Event unit) :
  balanced f g first -> (forall b, balanced f g (rest b)) -> (forall x, balanced f g (fin x)) ->
  balanced f g (tryFinallyLet first rest fin).
Proof.
  intros Hf Hr Hfin w. unfold tryFinallyLet.
  specialize (Hf w). unfold trace in Hf.
  destruct (first w) as [[[b|v] w1] t1]; cbn [snd] in Hf.
  - pose proof (balanced_tryFinally _ _ (Hr b) (Hfin (Some b)) w1) as H. unfold trace in *.
    destruct (tryFinally (rest b) (fin (Some b)) w1) as [[r w2] t2]; cbn [snd] in *.
    now rewrite !omap_app, Hf, H.
  - assert (Hthrow : balanced f g (@throw World Event A v)) by (intros w'; reflexivity).
    pose proof (balanced_tryFinally _ _ Hthrow (Hfin None) w1) as H. unfold trace in *.
    destruct (tryFinally (throw v) (fin None) w1) as [[r w2] t2]; cbn [snd] in *.
    now rewrite !omap_app, Hf, H.
Qed.

Lemma balanced_startAll {A} (tasks : list (M World Event A)) :
  Forall (balanced f g) tasks -> balanced f g (startAll tasks).
Proof.
  induction 1 as [|m tasks Hm _ IH]; intros w; [reflexivity|].
  now rewrite trace_startAll_cons, !omap_app, Hm, IH.
Qed.
End BalancedFacts.

(** ** More on the orchestrators *)

Ltac clean_step :=
  first
    [ apply clean_quiet; solve [quiet_tac]
    | apply clean_call; intros; reflexivity
    | apply clean_bind; [|intros]
    | apply clean_tryFinally
    | apply clean_tryFinallyLet; [|intros|intros]
    | match goal with
      | |- Forall _ (imap _ _) => apply Forall_imap_intro; intros
      | |- Forall _ (map _ _) => apply Forall_map; apply Forall_forall; intros
      end
    | match goal with
      | |- clean _ (match ?x with _ => _ end) => destruct x
      | |- clean _ (if ?x then _ else _) => destruct x
      end ].

Ltac clean_tac := repeat first [clean_step | quiet_unfold].

Ltac joined :=
  intros ? ?; unfold bind, PromiseAll, ofOutcome, tryCatch, Auto.logger_info, emit, result;
  cbn [fst snd];
  match goal with
  | |- context [joinAll ?rs] => destruct (joinAll rs)
  end; cbn; auto.

Section Completion.
Context {World Order Certificate Buffer Rec : Type}.
Abbreviation event := (Auto.event Order Certificate Buffer Rec).
Abbreviation opts := (Auto.opts World Buffer Rec).
Abbreviation property := (Auto.property World Buffer Rec).
Variable rt : Auto.runtime World Buffer.
Variable c : Auto.client World Order Certificate Buffer.
Implicit Types (o : opts) (w : World) (userOpts : list property).
Abbreviation failedCall := (@Steps.failedCall Order Certificate Buffer Rec).

Lemma prepare_clean o : clean failedCall (Auto.prepare rt c o).
Proof.
  unfold Auto.prepare, Auto.registerAccount. clean_tac.
  apply clean_tryCatch; [quiet_tac|intros; clean_tac].
Qed.

Lemma Batch_issue_clean o csr order authorizations :
  clean failedCall (Batch.issue c o csr order authorizations).
Proof.
  unfold Batch.issue.
  apply clean_startAll; [clean_tac| |joined].
  intros rs. apply clean_bind; [clean_tac|intros infos].
  apply clean_startAll; [clean_tac| |joined].
  intros rs'. apply clean_bind; [clean_tac|intros items].
  apply clean_bind; [|intros; clean_tac].
  unfold Batch.satisfy. apply clean_tryFinally; [|clean_tac].
  unfold Batch.verifyOrLog. apply clean_tryCatch_rethrow; [|reflexivity].
  unfold Batch.verifyAll. apply clean_bind; [clean_tac|intros _].
  apply clean_bind; [clean_tac|intros _].
  apply clean_bind; [clean_tac|intros _].
  apply clean_startAll; [clean_tac| |joined].
  intros rs''. clean_tac.
Qed.

Lemma Inline_issue_clean {X} (f : event -> option X) o csr order authorizations :
  (forall l m a, f (Auto.Logger l m a) = None) ->
  (forall ch k, f (Auto.GetChallengeKeyAuthorization ch (Ok k)) = None) ->
  (forall a ch k r, f (Auto.ChallengeCreateFn a ch k (Ok r)) = None) ->
  (forall a ch, f (Auto.VerifyChallenge a ch (Ok tt)) = None) ->
  (forall ch, f (Auto.CompleteChallenge ch (Ok tt)) = None) ->
  (forall ch, f (Auto.WaitForValidStatus ch (Ok tt)) = None) ->
  (forall a ch k rec r, f (Auto.ChallengeRemoveFn a ch k rec r) = None) ->
  (forall or cs, f (Auto.FinalizeOrder or cs (Ok tt)) = None) ->
  (forall or ch r, f (Auto.GetCertificate or ch (Ok r)) = None) ->
  clean f (Inline.issue c o csr order authorizations).
Proof.
  intros H1 H2 H3 H4 H5 H6 H7 H8 H9.
  assert (Hq : forall d a ch k r, quiet f (Auto.triggerRemove o d a ch k r)).
  { intros. unfold Auto.triggerRemove, Auto.messageOf, Auto.logger_info.
    repeat first
      [ apply quiet_ret | apply quiet_throw
      | apply quiet_emit; apply H1
      | apply quiet_call; intros; apply H7
      | apply quiet_bind; [|intros]
      | apply quiet_tryCatch; [|intros]
      | match goal with |- quiet _ (match ?x with _ => _ end) => destruct x end ]. }
  unfold Inline.issue, Inline.challengePromise, Auto.finalize, Auto.logger_info,
    Auto.logger_error.
  apply clean_startAll.
  - apply Forall_map, Forall_forall. intros authz _.
    repeat first
      [ apply clean_quiet; first [apply quiet_ret|apply quiet_ofOutcome|apply quiet_emit; apply H1
                                 |apply Hq]
      | apply clean_call; intros [];
        solve [apply H2|apply H3|apply H4|apply H5|apply H6|apply H8|apply H9]
      | apply clean_call; intros;
        solve [apply H2|apply H3|apply H4|apply H5|apply H6|apply H8|apply H9]
      | apply clean_bind; [|intros]
      | apply clean_tryFinallyLet; [|intros|intros]
      | match goal with
        | |- clean _ (match ?x with _ => _ end) => destruct x
        | |- clean _ (if ?x then _ else _) => destruct x
        end ].
  - intros rs.
    apply clean_bind; [apply clean_quiet, quiet_emit, H1|intros _].
    apply clean_bind.
    + apply clean_tryCatch_rethrow; [apply clean_quiet, quiet_PromiseAll|reflexivity].
    + intros _.
      repeat first
        [ apply clean_quiet, quiet_emit, H1
        | apply clean_call; intros [];
          solve [apply H8|apply H9]
        | apply clean_call; intros; solve [apply H8|apply H9]
        | apply clean_bind; [|intros] ].
  - joined.
Qed.

Lemma verifyOrLog_ok o (items : list (Batch.item Rec)) w :
  isOk (result (Batch.verifyOrLog c o items w)) = true ->
  List.filter Batch.isError items = [].
Proof.
  destruct (List.filter Batch.isError items) as [|it rest] eqn:E; [reflexivity|].
  assert (Hit : Batch.isError it = true).
  { assert (Hin : In it (List.filter Batch.isError items)) by (rewrite E; now left).
    now apply filter_In in Hin. }
  destruct it as [ci|e]; [discriminate|].
  now rewrite (verifyOrLog_abort c o items e rest w E).
Qed.

Lemma Batch_issue_creations o csr order authorizations w :
  Auto.failsWithErrors (Auto.challengeCreateFn o) ->
  isOk (result (Batch.issue c o csr order authorizations w)) = true ->
  Auto.createFailures (trace (Batch.issue c o csr order authorizations w)) = [].
Proof.
  intros Herr.
  destruct (Batch_issue_run c o csr order authorizations w) as (rs & w0 & t0 & Hsel & Hrun).
  pose proof (selectPhase_bookkeeping c o authorizations w) as Hq.
  rewrite Hsel in Hq. cbn [trace snd] in Hq.
  destruct (bookkeeping_projections t0 Hq) as (Hc0 & _).
  destruct (joinAll rs) as [infos|v]; [|rewrite Hrun; discriminate].
  destruct Hrun as (outs & w1 & t1 & Hfacts & Hrun). cbn zeta in Hfacts, Hrun.
  destruct Hfacts as (Hlen & Hrel & Hc1 & _).
  set (items := zip_with Batch.itemOf infos outs) in *.
  pose proof (verifyOrLog_ok o items w1) as Hok.
  assert (Hcg : Auto.createCalls (trace (Batch.verifyOrLog c o items w1)) = [])
    by (apply (verifyOrLog_quiet c); reflexivity).
  pose proof (finalize_bookkeeping c o order csr) as Hf.
  destruct (owed_removals _ infos outs Herr Hrel) as [_ Herrs]. fold items in Herrs.
  rewrite Hrun. clear Hrun.
  unfold result, final, trace in *.
  destruct (Batch.verifyOrLog c o items w1) as [[rg wg] tg]. cbn [fst snd] in *.
  destruct (removeAll_run (Order:=Order) (Certificate:=Certificate) o items wg)
    as (out & w2 & tr & Hr & _ & _ & Hcr & _).
  rewrite Hr. cbn [fst snd].
  destruct out as [[]|v]; [|discriminate].
  destruct rg as [[]|v]; [|discriminate].
  intros _. cbn [fst snd].
  specialize (Hf w2). unfold trace in Hf.
  destruct (bookkeeping_projections _ Hf) as (Hcf & _).
  rewrite (Hok eq_refl) in Herrs.
  unfold Auto.createFailures, Auto.createCalls in *.
  rewrite !omap_app, Hc0, Hc1, Hcg, Hcr, Hcf. cbn [app]. rewrite app_nil_r.
  symmetry in Herrs. now apply map_eq_nil in Herrs.
Qed.

Lemma createFailures_failedCreation (t : list event) :
  Auto.createFailures t = omap Steps.failedCreation t.
Proof.
  unfold Auto.createFailures, Auto.createCalls.
  induction t as [|e t IH]; [reflexivity|].
  destruct e; cbn; try exact IH.
  destruct r; cbn; [exact IH|now rewrite IH].
Qed.

Lemma bind_ok_inv {E A B} (m : M World E A) (k : A -> M World E B) w :
  isOk (result (bind m k w)) = true ->
  exists a,
    result (m w) = Ok a /\
    isOk (result (k a (final (m w)))) = true /\
    bind m k w = (result (k a (final (m w))), final (k a (final (m w))),
                  trace (m w) ++ trace (k a (final (m w)))).
Proof.
  unfold bind, result, final, trace.
  destruct (m w) as [[[a|v] w1] t1]; cbn [fst snd]; [|discriminate].
  intros H. exists a. destruct (k a w1) as [[r w2] t2]; cbn [fst snd] in *.
  split; [reflexivity|]. split; [exact H|reflexivity].
Qed.

(** X6: an attempt that returns a certificate has seen no call to the
    ACME client or to the CSR parser fail, the query for the account URL
    apart, and no creation hook fail: in the inline orchestrator whatever
    the hook throws, in the batch orchestrator when the hook fails with
    instances of [Error] only. *)
Theorem certificate_means_no_failure userOpts w cert :
  let o := Auto.assign Auto.defaultOpts userOpts in
  let batch := Batch.auto rt c userOpts w in
  let inline := Inline.auto rt c userOpts w in
  (result batch = Ok cert ->
   Steps.failedCalls (trace batch) = [] /\
   (Auto.failsWithErrors (Auto.challengeCreateFn o) ->
    Auto.createFailures (trace batch) = [])) /\
  (result inline = Ok cert ->
   Steps.failedCalls (trace inline) = [] /\
   Auto.createFailures (trace inline) = []).
Proof.
  intros o batch inline. split.
  - subst batch. rewrite Batch_auto_split. fold o. intros Hres.
    assert (Hok : isOk (result (bind (Auto.prepare rt c o)
                           (fun p => Batch.issue c o p.1.1 p.1.2 p.2) w)) = true)
      by now rewrite Hres.
    split.
    + apply (clean_bind failedCall); [apply prepare_clean| |exact Hok].
      intros p. apply Batch_issue_clean.
    + intros Herr. destruct (bind_ok_inv _ _ _ Hok) as (p & Hp & Hissue & Hrun).
      rewrite Hrun. cbn [trace snd].
      pose proof (prepare_bookkeeping rt c o w) as Hq.
      destruct (bookkeeping_projections _ Hq) as (Hc0 & _).
      unfold Auto.createFailures, Auto.createCalls in *. rewrite omap_app, Hc0. cbn [app].
      now apply Batch_issue_creations.
  - subst inline. rewrite Inline_auto_split. fold o. intros Hres.
    assert (Hok : isOk (result (bind (Auto.prepare rt c o)
                           (fun p => Inline.issue c o p.1.1 p.1.2 p.2) w)) = true)
      by now rewrite Hres.
    split.
    + apply (clean_bind failedCall); [apply prepare_clean| |exact Hok].
      intros p. apply Inline_issue_clean; reflexivity.
    + rewrite createFailures_failedCreation.
      apply (clean_bind Steps.failedCreation); [apply clean_quiet; quiet_tac| |exact Hok].
      intros p. apply Inline_issue_clean; reflexivity.
Qed.

(** X7: with [skipChallengeVerification: true] neither orchestrator
    ever calls [client.verifyChallenge]. *)
Theorem skipped_verification userOpts w :
  Auto.skipChallengeVerification (Auto.assign Auto.defaultOpts userOpts) = true ->
  Auto.verifyCalls (trace (Batch.auto rt c userOpts w)) = [] /\
  Auto.verifyCalls (trace (Inline.auto rt c userOpts w)) = [].
Proof.
  intros Hskip. rewrite Batch_auto_split, Inline_auto_split.
  split.
  - apply (quiet_bind (fun e : event => match e with
                                        | Auto.VerifyChallenge a ch _ => Some (a, ch)
                                        | _ => None
                                        end)); [quiet_tac|].
    intros p. repeat first [rewrite Hskip | quiet_step | quiet_unfold].
  - apply (quiet_bind (fun e : event => match e with
                                        | Auto.VerifyChallenge a ch _ => Some (a, ch)
                                        | _ => None
                                        end)); [quiet_tac|].
    intros p. repeat first [rewrite Hskip | quiet_step | quiet_unfold].
Qed.

(** The run of [prepare], call by call. *)
Lemma prepare_run o w :
  let info := fun m => @Auto.Logger Order Certificate Buffer Rec Auto.info m None in
  exists rc,
    Auto.csrBuffer (Order:=Order) (Certificate:=Certificate) (Rec:=Rec) rt o w = (rc, w, []) /\
    match rc with
    | Throw v => Auto.prepare rt c o w = (Throw v, w, [])
    | Ok csr =>
        let reg := Auto.registerAccount c o w in
        match result reg with
        | Throw v => Auto.prepare rt c o w = (Throw v, final reg, trace reg)
        | Ok _ =>
            let parse := Auto.readCsrDomains rt csr (final reg) in
            let t1 := trace reg
                        ++ [info (lit "[auto] Parsing domains from Certificate Signing Request");
                            Auto.ReadCsrDomains csr parse.1] in
            match parse.1 with
            | Throw v => Auto.prepare rt c o w = (Throw v, parse.2, t1)
            | Ok csrDomains =>
                let domains := CsrDomains.commonName csrDomains
                                 :: CsrDomains.altNames csrDomains in
                let payload := Auto.orderPayload domains in
                let placed := Auto.createOrder c payload parse.2 in
                let t2 := t1 ++ [info (lit "[auto] Resolved " ++ ofNat (length domains)
                                         ++ lit " domains from parsing the Certificate Signing Request");
                                 info (lit "[auto] Placing new certificate order with ACME provider");
                                 Auto.CreateOrder payload placed.1] in
                match placed.1 with
                | Throw v => Auto.prepare rt c o w = (Throw v, placed.2, t2)
                | Ok order =>
                    let listed := Auto.getAuthorizations c order placed.2 in
                    let t3 := t2 ++ [Auto.GetAuthorizations order listed.1] in
                    match listed.1 with
                    | Throw v => Auto.prepare rt c o w = (Throw v, listed.2, t3)
                    | Ok authorizations =>
                        Auto.prepare rt c o w =
                        (Ok (csr, order, authorizations), listed.2,
                         t3 ++ [info (lit "[auto] Placed certificate order successfully, received "
                                        ++ ofNat (length authorizations)
                                        ++ lit " identity authorizations");
                                info (lit "[auto] Resolving and satisfying authorization challenges")])
                    end
                end
            end
        end
    end.
Proof.
  intros info.
  destruct (csrBuffer_run (Order:=Order) (Certificate:=Certificate) (Rec:=Rec) rt o w)
    as [rc Hc]. exists rc. split; [exact Hc|].
  destruct (Auto.prepare rt c o w) as [[rp wp] tp] eqn:Hp.
  unfold Auto.prepare in Hp. unfold bind at 1 in Hp. rewrite Hc in Hp.
  destruct rc as [csr|v]; [|now injection Hp as <- <- <-].
  cbn zeta. unfold result, final, trace.
  unfold bind at 1 in Hp.
  destruct (Auto.registerAccount c o w) as [[[[]|v] w1] tr]; cbn [fst snd];
    [|now injection Hp as <- <- <-].
  unfold Auto.parseDomains, Auto.placeOrder, Auto.logger_info, bind, call, emit, ret in Hp.
  destruct (Auto.readCsrDomains rt csr w1) as [[csrDomains|v] w2]; cbn [fst snd] in *;
    [|now injection Hp as <- <- <-].
  destruct (Auto.createOrder c _ w2) as [[order|v] w3]; cbn [fst snd] in *;
    [|injection Hp as <- <- <-; now rewrite <- ?app_assoc].
  destruct (Auto.getAuthorizations c order w3) as [[authorizations|v] w4]; cbn [fst snd] in *;
    injection Hp as <- <- <-; now rewrite <- ?app_assoc.
Qed.

Lemma prepare_placed o w csr order authorizations :
  result (Auto.prepare rt c o w) = Ok (csr, order, authorizations) ->
  omap Steps.placed (trace (Auto.prepare rt c o w)) = [order] /\
  omap Steps.parsed (trace (Auto.prepare rt c o w)) = [csr].
Proof.
  destruct (prepare_run o w) as (rc & _ & Hrun). cbn zeta in Hrun.
  assert (Hq1 : quiet (@Steps.placed Order Certificate Buffer Rec) (Auto.registerAccount c o))
    by quiet_tac.
  assert (Hq2 : quiet (@Steps.parsed Order Certificate Buffer Rec) (Auto.registerAccount c o))
    by quiet_tac.
  specialize (Hq1 w). specialize (Hq2 w).
  destruct rc as [csr'|v]; [|rewrite Hrun; discriminate].
  destruct (result (Auto.registerAccount c o w)); [|rewrite Hrun; discriminate].
  destruct (Auto.readCsrDomains rt csr' _) as [[csrDomains|v] w2]; cbn [fst snd] in Hrun;
    [|rewrite Hrun; discriminate].
  destruct (Auto.createOrder c _ w2) as [[order'|v] w3]; cbn [fst snd] in Hrun;
    [|rewrite Hrun; discriminate].
  destruct (Auto.getAuthorizations c order' w3) as [[authorizations'|v] w4];
    cbn [fst snd] in Hrun; [|rewrite Hrun; discriminate].
  rewrite Hrun. unfold result, trace. cbn [fst snd]. intros [= <- <- <-].
  rewrite !omap_app. unfold trace in Hq1, Hq2. rewrite Hq1, Hq2. split; reflexivity.
Qed.

Lemma finalize_run o order csr w :
  let info := fun m => @Auto.Logger Order Certificate Buffer Rec Auto.info m None in
  let finalized := Auto.finalizeOrder c order csr w in
  Auto.finalize c o order csr w =
  match finalized.1 with
  | Throw e =>
      (Throw e, finalized.2,
       [info (lit "[auto] Finalizing order and downloading certificate");
        Auto.FinalizeOrder order csr (Throw e)])
  | Ok u =>
      let downloaded := Auto.getCertificate c order (Auto.preferredChain o) finalized.2 in
      (downloaded.1, downloaded.2,
       [info (lit "[auto] Finalizing order and downloading certificate");
        Auto.FinalizeOrder order csr (Ok u);
        Auto.GetCertificate order (Auto.preferredChain o) downloaded.1])
  end.
Proof.
  cbn zeta. unfold Auto.finalize, Auto.logger_info, bind, call, emit.
  destruct (Auto.finalizeOrder c order csr w) as [[u|e] w1]; cbn [fst snd]; [|reflexivity].
  now destruct (Auto.getCertificate c order (Auto.preferredChain o) w1) as [r w2].
Qed.

Lemma ending_attempt {U} o (pre : Buffer * Order * list Authz.t -> M World event U) w :
  (forall p, quiet Steps.finalization (pre p)) ->
  (forall p, quiet Steps.download (pre p)) ->
  (forall p, quiet Steps.placed (pre p)) ->
  (forall p, quiet Steps.parsed (pre p)) ->
  Steps.ending (Auto.preferredChain o)
    (bind (Auto.prepare rt c o)
       (fun p => bind (pre p) (fun _ => Auto.finalize c o p.1.2 p.1.1)) w).
Proof.
  intros Hf Hd Hp Hc.
  assert (Hpf : quiet (@Steps.finalization Order Certificate Buffer Rec) (Auto.prepare rt c o))
    by quiet_tac.
  assert (Hpd : quiet (@Steps.download Order Certificate Buffer Rec) (Auto.prepare rt c o))
    by quiet_tac.
  pose proof (prepare_placed o w) as Hplaced.
  specialize (Hpf w). specialize (Hpd w).
  unfold Steps.ending. unfold result, final, trace in *.
  destruct (Auto.prepare rt c o w) as [[[[[csr order] authorizations]|v] w1] tp] eqn:Eprep;
    cbn [fst snd] in *.
  2:{ rewrite (bind_throw_run _ _ _ _ _ _ Eprep). cbn [fst snd]. now rewrite Hpf, Hpd. }
  destruct (Hplaced _ _ _ eq_refl) as [Hpl Hpa].
  rewrite (bind_ok_run _ _ _ _ _ _ Eprep). unfold result, final, trace. cbn [fst snd].
  specialize (Hf (csr, order, authorizations) w1).
  specialize (Hd (csr, order, authorizations) w1).
  specialize (Hp (csr, order, authorizations) w1).
  specialize (Hc (csr, order, authorizations) w1).
  unfold trace in Hf, Hd, Hp, Hc.
  destruct (pre (csr, order, authorizations) w1) as [[[u0|v] w2] t2] eqn:Epre;
    cbn [fst snd] in *.
  2:{ rewrite (bind_throw_run _ _ _ _ _ _ Epre). cbn [fst snd].
      now rewrite !omap_app, Hpf, Hpd, Hf, Hd. }
  rewrite (bind_ok_run _ _ _ _ _ _ Epre). unfold result, final, trace. cbn [fst snd].
  rewrite finalize_run. cbn zeta.
  destruct (Auto.finalizeOrder c order csr w2) as [[u|e] w3]; cbn [fst snd].
  - destruct (Auto.getCertificate c order (Auto.preferredChain o) w3) as [r w4];
      cbn [fst snd].
    rewrite !omap_app, Hpf, Hpd, Hf, Hd, Hp, Hc, Hpl, Hpa. cbn.
    repeat split.
    rewrite !app_assoc.
    change ([Auto.Logger Auto.info (lit "[auto] Finalizing order and downloading certificate")
               None;
             Auto.FinalizeOrder order csr (Ok u);
             Auto.GetCertificate order (Auto.preferredChain o) r] : list event)
      with ([Auto.Logger Auto.info (lit "[auto] Finalizing order and downloading certificate")
               None;
             Auto.FinalizeOrder order csr (Ok u)]
              ++ [Auto.GetCertificate order (Auto.preferredChain o) r] : list event).
    rewrite app_assoc. apply last_snoc.
  - rewrite !omap_app, Hpf, Hpd, Hf, Hd, Hp, Hc, Hpl, Hpa. cbn. repeat split.
Qed.

(** The statements of [issue] that come before the finalization. *)
Abbreviation Batch_challenges o authorizations :=
  (challengePromises <- startAll (map (Batch.challengePromise c o) authorizations) ;;
   challengeInfos <- PromiseAll challengePromises ;;
   challengeCreatePromises <-
     startAll (imap (Batch.challengeCreatePromise o) challengeInfos) ;;
   challengeRecordInfos <- PromiseAll challengeCreatePromises ;;
   Batch.satisfy c o challengeRecordInfos).

Abbreviation Inline_challenges o authorizations :=
  (challengePromises <- startAll (map (Inline.challengePromise c o) authorizations) ;;
   Auto.logger_info (lit "[auto] Waiting for challenge valid status") ;;
   tryCatch
     (PromiseAll challengePromises)
     (fun e =>
        Auto.logger_error [39564%N; 35777%N; 20986%N; 38169%N; 65306%N] e ;;
        throw e)).

Lemma Batch_issue_split o csr order authorizations w :
  Batch.issue c o csr order authorizations w =
  bind (Batch_challenges o authorizations) (fun _ => Auto.finalize c o order csr) w.
Proof.
  unfold Batch.issue. symmetry.
  repeat (rewrite bind_assoc; apply bind_ext; intros).
  reflexivity.
Qed.

Lemma Inline_issue_split o csr order authorizations w :
  Inline.issue c o csr order authorizations w =
  bind (Inline_challenges o authorizations) (fun _ => Auto.finalize c o order csr) w.
Proof.
  unfold Inline.issue. symmetry.
  repeat (rewrite bind_assoc; apply bind_ext; intros).
  reflexivity.
Qed.

Lemma challenges_quiet {X} (f : event -> option X) o authorizations :
  (forall l m a, f (Auto.Logger l m a) = None) ->
  (forall ms, f (Auto.Sleep ms) = None) ->
  (forall ch r, f (Auto.GetChallengeKeyAuthorization ch r) = None) ->
  (forall a ch k r, f (Auto.ChallengeCreateFn a ch k r) = None) ->
  (forall a ch r, f (Auto.VerifyChallenge a ch r) = None) ->
  (forall ch r, f (Auto.CompleteChallenge ch r) = None) ->
  (forall ch r, f (Auto.WaitForValidStatus ch r) = None) ->
  (forall a ch k rec r, f (Auto.ChallengeRemoveFn a ch k rec r) = None) ->
  quiet f (Batch_challenges o authorizations) /\
  quiet f (Inline_challenges o authorizations).
Proof.
  intros H1 H2 H3 H4 H5 H6 H7 H8.
  split;
    repeat first
      [ apply quiet_ret | apply quiet_throw | apply quiet_ofOutcome | apply quiet_PromiseAll
      | apply quiet_emit; solve [apply H1|apply H2]
      | apply quiet_call; intros;
        solve [apply H3|apply H4|apply H5|apply H6|apply H7|apply H8]
      | apply quiet_bind; [|intros]
      | apply quiet_tryCatch; [|intros]
      | apply quiet_tryFinally
      | apply quiet_tryFinallyLet; [|intros|intros]
      | apply quiet_settle
      | apply quiet_startAll
      | match goal with
        | |- Forall _ (imap _ _) => apply Forall_imap_intro; intros
        | |- Forall _ (map _ _) => apply Forall_map; apply Forall_forall; intros
        end
      | match goal with
        | |- quiet _ (match ?x with _ => _ end) => destruct x
        | |- quiet _ (if ?x then _ else _) => destruct x
        end
      | quiet_unfold ].
Qed.

(** X8: [finalizeOrder] is called at most once, for the order that
    [createOrder] returned and with the CSR that was parsed; the
    certificate is asked for only once that call has returned, for the
    same order and with the preferred chain of the options; that request
    is then the last call of the attempt, and its outcome is the attempt's.
    When [finalizeOrder] throws, or is never reached, no certificate is
    asked for and the attempt fails. *)
Theorem attempt_ends_with_the_certificate userOpts w :
  let o := Auto.assign Auto.defaultOpts userOpts in
  Steps.ending (Auto.preferredChain o) (Batch.auto rt c userOpts w) /\
  Steps.ending (Auto.preferredChain o) (Inline.auto rt c userOpts w).
Proof.
  intros o. rewrite Batch_auto_split, Inline_auto_split. fold o. split.
  - rewrite (bind_ext _ _ (fun p => bind (Batch_challenges o p.2)
                                      (fun _ => Auto.finalize c o p.1.2 p.1.1)))
      by (intros; apply Batch_issue_split).
    apply (ending_attempt o (fun p => Batch_challenges o p.2));
      intros p; apply challenges_quiet; reflexivity.
  - rewrite (bind_ext _ _ (fun p => bind (Inline_challenges o p.2)
                                      (fun _ => Auto.finalize c o p.1.2 p.1.1)))
      by (intros; apply Inline_issue_split).
    apply (ending_attempt o (fun p => Inline_challenges o p.2));
      intros p; apply challenges_quiet; reflexivity.
Qed.

Abbreviation failedPreparation := (@Steps.failedPreparation Order Certificate Buffer Rec).

Lemma prepare_unfailing o : clean failedPreparation (Auto.prepare rt c o).
Proof.
  unfold Auto.prepare, Auto.registerAccount. clean_tac.
  apply clean_tryCatch; [quiet_tac|intros; clean_tac].
Qed.

Lemma prepare_stops o : stops failedPreparation (Auto.prepare rt c o).
Proof.
  unfold Auto.prepare, Auto.registerAccount, Auto.parseDomains, Auto.placeOrder.
  repeat first
    [ apply stops_quiet; solve [quiet_tac]
    | apply stops_call; intros [?|?] ?; cbn; congruence
    | apply stops_tryCatch; [solve [quiet_tac]|intros]
    | apply stops_bind; [| |intros]
    | apply clean_quiet; solve [quiet_tac]
    | apply clean_call; intros; reflexivity
    | apply clean_bind; [|intros]
    | apply clean_tryCatch; [solve [quiet_tac]|intros]
    | match goal with
      | |- stops _ (match ?x with _ => _ end) => destruct x
      | |- clean _ (match ?x with _ => _ end) => destruct x
      end ].
Qed.

(** X9: when the registration of the account, the parsing of the CSR,
    the creation of the order or the listing of its authorizations
    throws, the attempt ends there: that call is its last, the value it
    threw is what the attempt throws, and no hook has been called. *)
Theorem preparation_fails_fast userOpts w (e : event) (v : jsval) :
  let batch := Batch.auto rt c userOpts w in
  let inline := Inline.auto rt c userOpts w in
  Steps.failedPreparation e = Some v ->
  (In e (trace batch) ->
   result batch = Throw v /\ last (trace batch) = Some e /\
   Auto.createCalls (trace batch) = [] /\ Auto.removeCalls (trace batch) = []) /\
  (In e (trace inline) ->
   result inline = Throw v /\ last (trace inline) = Some e /\
   Auto.createCalls (trace inline) = [] /\ Auto.removeCalls (trace inline) = []).
Proof.
  intros batch inline He. subst batch inline.
  rewrite Batch_auto_split, Inline_auto_split.
  set (o := Auto.assign Auto.defaultOpts userOpts).
  assert (Hgen : forall (k : Buffer * Order * list Authz.t -> M World event Certificate),
             (forall p, quiet failedPreparation (k p)) ->
             In e (trace (bind (Auto.prepare rt c o) k w)) ->
             result (bind (Auto.prepare rt c o) k w) = Throw v /\
             last (trace (bind (Auto.prepare rt c o) k w)) = Some e /\
             Auto.createCalls (trace (bind (Auto.prepare rt c o) k w)) = [] /\
             Auto.removeCalls (trace (bind (Auto.prepare rt c o) k w)) = []).
  { intros k Hk Hin.
    assert (Hstops : stops failedPreparation (bind (Auto.prepare rt c o) k)).
    { apply stops_bind; [apply prepare_stops|apply prepare_unfailing|].
      intros; now apply stops_quiet. }
    destruct (Hstops w e v Hin He) as [Hres Hlast]. split; [exact Hres|]. split; [exact Hlast|].
    pose proof (prepare_bookkeeping rt c o w) as Hq.
    destruct (bookkeeping_projections _ Hq) as (Hc0 & Hr0 & _).
    pose proof (prepare_unfailing o w) as Hclean.
    unfold bind, result, trace in *.
    destruct (Auto.prepare rt c o w) as [[[p|v0] w1] tp]; cbn [fst snd] in *; [|easy].
    exfalso. specialize (Hk p w1). unfold trace in Hk.
    destruct (k p w1) as [[r w2] t2]; cbn [fst snd] in *.
    apply in_app_or in Hin as [Hin|Hin].
    - rewrite (omap_nil_In _ _ e (Hclean eq_refl) Hin) in He. discriminate.
    - rewrite (omap_nil_In _ _ e Hk Hin) in He. discriminate. }
  split; apply Hgen; intros p; apply Batch_issue_account; reflexivity.
Qed.

Lemma prepare_listed o w (l : list Authz.t) :
  Auto.authorizationLists (trace (Auto.prepare rt c o w)) = [l] ->
  exists csr order, result (Auto.prepare rt c o w) = Ok (csr, order, l).
Proof.
  destruct (prepare_run o w) as (rc & _ & Hrun). cbn zeta in Hrun.
  assert (Hq : quiet (fun e : event => match e with
                                       | Auto.GetAuthorizations _ (Ok l) => Some l
                                       | _ => None
                                       end) (Auto.registerAccount c o)) by quiet_tac.
  specialize (Hq w). unfold Auto.authorizationLists.
  destruct rc as [csr|v]; [|rewrite Hrun; discriminate].
  destruct (result (Auto.registerAccount c o w));
    [|rewrite Hrun; cbn [trace snd]; rewrite Hq; discriminate].
  destruct (Auto.readCsrDomains rt csr _) as [[csrDomains|v] w2]; cbn [fst snd] in Hrun;
    [|rewrite Hrun; cbn [trace snd]; rewrite !omap_app, Hq; discriminate].
  destruct (Auto.createOrder c _ w2) as [[order|v] w3]; cbn [fst snd] in Hrun;
    [|rewrite Hrun; cbn [trace snd]; rewrite !omap_app, Hq; discriminate].
  destruct (Auto.getAuthorizations c order w3) as [[authorizations|v] w4];
    cbn [fst snd] in Hrun;
    [|rewrite Hrun; cbn [trace snd]; rewrite !omap_app, Hq; discriminate].
  rewrite Hrun. cbn [trace result fst snd]. rewrite !omap_app, Hq. cbn.
  intros [= <-]. eauto.
Qed.

Lemma attempt_listed {A} o (k : Buffer * Order * list Authz.t -> M World event A) w
    (l : list Authz.t) :
  (forall p, quiet (fun e : event => match e with
                                     | Auto.GetAuthorizations _ (Ok l) => Some l
                                     | _ => None
                                     end) (k p)) ->
  Auto.authorizationLists (trace (bind (Auto.prepare rt c o) k w)) = [l] ->
  exists csr order w1 tp,
    Auto.prepare rt c o w = (Ok (csr, order, l), w1, tp) /\
    bind (Auto.prepare rt c o) k w
    = (result (k (csr, order, l) w1), final (k (csr, order, l) w1),
       tp ++ trace (k (csr, order, l) w1)).
Proof.
  intros Hk Hl. unfold Auto.authorizationLists in Hl. rewrite proj_bind in Hl.
  assert (Hl' : Auto.authorizationLists (trace (Auto.prepare rt c o w)) = [l]).
  { unfold Auto.authorizationLists.
    destruct (result (Auto.prepare rt c o w)); [rewrite Hk in Hl|];
      now rewrite app_nil_r in Hl. }
  destruct (prepare_listed o w l Hl') as (csr & order & Hres).
  destruct (Auto.prepare rt c o w) as [[rp w1] tp] eqn:Ep. cbn [result fst] in Hres.
  subst rp. exists csr, order, w1, tp. split; [reflexivity|].
  apply bind_ok_run. exact Ep.
Qed.

(** X10: without a CSR in the options, [Buffer.from(null)] throws a
    [TypeError] before anything else is done: nothing is logged, no call
    is made, and the world is as it was. *)
Theorem missing_csr userOpts w :
  let batch := Batch.auto rt c userOpts w in
  let inline := Inline.auto rt c userOpts w in
  Auto.csr (Auto.assign Auto.defaultOpts userOpts) = Auto.CsrNull ->
  (exists message, result batch = Throw (TypeError message)) /\
  trace batch = [] /\ final batch = w /\
  (exists message, result inline = Throw (TypeError message)) /\
  trace inline = [] /\ final inline = w.
Proof.
  intros batch inline Hcsr. subst batch inline.
  rewrite Batch_auto_split, Inline_auto_split.
  destruct (prepare_run (Auto.assign Auto.defaultOpts userOpts) w) as (rc & Hc & Hrun).
  unfold Auto.csrBuffer in Hc. rewrite Hcsr in Hc. unfold throw in Hc.
  injection Hc as <-.
  rewrite !(bind_throw_run _ _ _ _ _ _ Hrun). cbn. eauto 10.
Qed.

Lemma Batch_issue_nil o csr order w :
  exists t0 : list event,
    (Auto.createCalls t0 = [] /\ Auto.removeCalls t0 = [] /\
     Auto.timeline t0 = [Auto.Timer 30000] /\
     Auto.verifyCalls t0 = [] /\ Auto.completeCalls t0 = [] /\
     omap Steps.finalization t0 = []) /\
    Batch.issue c o csr order [] w =
    (result (Auto.finalize c o order csr w), final (Auto.finalize c o order csr w),
     t0 ++ trace (Auto.finalize c o order csr w)).
Proof.
  unfold Batch.issue. generalize (Auto.finalize c o order csr). intros F.
  exists [Auto.Logger Auto.info (lit "[auto] " ++ [31561%N; 24453%N] ++ lit "30" ++ [31186%N])
            None;
          Auto.Sleep 30000;
          Auto.Logger Auto.info (lit "[auto] Waiting for challenge valid status") None;
          Auto.Logger Auto.info (lit "[auto] challenge verify success") None].
  split; [repeat split|].
  unfold Batch.issue, Batch.satisfy, Batch.verifyOrLog, Batch.verifyAll, Batch.removeAll,
    Auto.logger_info, Auto.sleep, bind, tryFinally, tryCatch, PromiseAll, ofOutcome,
    emit, ret, result, final, trace.
  cbn. destruct (F w) as [[r w1] t1]. reflexivity.
Qed.

Lemma Inline_issue_nil o csr order w :
  exists t0 : list event,
    (Auto.createCalls t0 = [] /\ Auto.removeCalls t0 = [] /\
     Auto.timeline t0 = [] /\
     Auto.verifyCalls t0 = [] /\ Auto.completeCalls t0 = [] /\
     omap Steps.finalization t0 = []) /\
    Inline.issue c o csr order [] w =
    (result (Auto.finalize c o order csr w), final (Auto.finalize c o order csr w),
     t0 ++ trace (Auto.finalize c o order csr w)).
Proof.
  unfold Inline.issue. generalize (Auto.finalize c o order csr). intros F.
  exists [Auto.Logger Auto.info (lit "[auto] Waiting for challenge valid status") None].
  split; [repeat split|].
  unfold Inline.issue, Auto.logger_info, Auto.logger_error, bind, tryCatch, PromiseAll,
    ofOutcome, emit, ret, result, final, trace.
  cbn. destruct (F w) as [[r w1] t1]. reflexivity.
Qed.

Lemma finalize_once o order csr w :
  length (omap Steps.finalization (trace (Auto.finalize c o order csr w))) = 1.
Proof.
  rewrite finalize_run. cbn zeta.
  destruct (Auto.finalizeOrder c order csr w) as [[u|e] w1]; reflexivity.
Qed.

(** X11: when the order has no authorization at all, no hook is
    called and nothing is verified or completed, yet the batch
    orchestrator still waits its 30 seconds before it calls
    [finalizeOrder]; the inline orchestrator calls [finalizeOrder]
    without any timer. *)
Theorem order_without_authorizations userOpts w :
  let batch := trace (Batch.auto rt c userOpts w) in
  let inline := trace (Inline.auto rt c userOpts w) in
  (Auto.authorizationLists batch = [[]] ->
   Auto.createCalls batch = [] /\ Auto.removeCalls batch = [] /\
   Auto.verifyCalls batch = [] /\ Auto.completeCalls batch = [] /\
   Auto.timeline batch = [Auto.Timer 30000] /\
   length (omap Steps.finalization batch) = 1) /\
  (Auto.authorizationLists inline = [[]] ->
   Auto.createCalls inline = [] /\ Auto.removeCalls inline = [] /\
   Auto.verifyCalls inline = [] /\ Auto.completeCalls inline = [] /\
   Auto.timeline inline = [] /\
   length (omap Steps.finalization inline) = 1).
Proof.
  intros batch inline. subst batch inline.
  rewrite Batch_auto_split, Inline_auto_split.
  set (o := Auto.assign Auto.defaultOpts userOpts).
  assert (Hpf : quiet (@Steps.finalization Order Certificate Buffer Rec) (Auto.prepare rt c o))
    by quiet_tac.
  pose proof (prepare_bookkeeping rt c o w) as Hq.
  pose proof (finalize_bookkeeping c o) as Hfin.
  specialize (Hpf w).
  split; intros Hl.
  - apply attempt_listed in Hl as (csr & order & w1 & tp & Hp & Hrun);
      [|intros p; apply Batch_issue_account; reflexivity].
    rewrite Hrun. cbn [trace snd fst].
    rewrite Hp in Hq, Hpf. cbn [trace snd] in Hq, Hpf.
    destruct (bookkeeping_projections _ Hq) as (Hc & Hr & Ht & Hv & Hk).
    destruct (Batch_issue_nil o csr order w1)
      as (t0 & (Hc0 & Hr0 & Ht0 & Hv0 & Hk0 & Hf0) & Hissue).
    rewrite Hissue. cbn [trace snd].
    destruct (bookkeeping_projections _ (Hfin order csr w1)) as (Hc1 & Hr1 & Ht1 & Hv1 & Hk1).
    unfold Auto.createCalls, Auto.removeCalls, Auto.timeline, Auto.verifyCalls,
      Auto.completeCalls in *.
    rewrite !omap_app, Hc, Hr, Ht, Hv, Hk, Hc0, Hr0, Ht0, Hv0, Hk0, Hc1, Hr1, Ht1, Hv1, Hk1,
      Hpf, Hf0.
    cbn [app]. repeat split. apply finalize_once.
  - apply attempt_listed in Hl as (csr & order & w1 & tp & Hp & Hrun);
      [|intros p; apply Batch_issue_account; reflexivity].
    rewrite Hrun. cbn [trace snd fst].
    rewrite Hp in Hq, Hpf. cbn [trace snd] in Hq, Hpf.
    destruct (bookkeeping_projections _ Hq) as (Hc & Hr & Ht & Hv & Hk).
    destruct (Inline_issue_nil o csr order w1)
      as (t0 & (Hc0 & Hr0 & Ht0 & Hv0 & Hk0 & Hf0) & Hissue).
    rewrite Hissue. cbn [trace snd].
    destruct (bookkeeping_projections _ (Hfin order csr w1)) as (Hc1 & Hr1 & Ht1 & Hv1 & Hk1).
    unfold Auto.createCalls, Auto.removeCalls, Auto.timeline, Auto.verifyCalls,
      Auto.completeCalls in *.
    rewrite !omap_app, Hc, Hr, Ht, Hv, Hk, Hc0, Hr0, Ht0, Hv0, Hk0, Hc1, Hr1, Ht1, Hv1, Hk1,
      Hpf, Hf0.
    cbn [app]. repeat split. apply finalize_once.
Qed.

Lemma selectChallenge_nil priority (authz : Authz.t) :
  Authz.challenges authz = [] ->
  Auto.selectChallenge priority authz
  = Throw (Auto.noChallenge (Identifier.value (Authz.identifier authz))).
Proof. unfold Auto.selectChallenge. now intros ->. Qed.

(** X12: when one authorization of the order offers no challenge, the
    batch orchestrator fails without a single hook call, timer,
    verification or completion, for any of the domains, and without
    finalizing the order. *)
Theorem authorization_without_challenge userOpts w
    (authorizations : list Authz.t) (authz : Authz.t) :
  let x := Batch.auto rt c userOpts w in
  Auto.authorizationLists (trace x) = [authorizations] ->
  In authz authorizations ->
  Authz.challenges authz = [] ->
  isOk (result x) = false /\
  Auto.createCalls (trace x) = [] /\ Auto.removeCalls (trace x) = [] /\
  Auto.timeline (trace x) = [] /\
  Auto.verifyCalls (trace x) = [] /\ Auto.completeCalls (trace x) = [] /\
  omap Steps.finalization (trace x) = [].
Proof.
  intros x Hl Hin Hnil. subst x. revert Hl. rewrite Batch_auto_split.
  set (o := Auto.assign Auto.defaultOpts userOpts). intros Hl.
  assert (Hpf : quiet (@Steps.finalization Order Certificate Buffer Rec) (Auto.prepare rt c o))
    by quiet_tac.
  pose proof (prepare_bookkeeping rt c o w) as Hq. specialize (Hpf w).
  apply attempt_listed in Hl as (csr & order & w1 & tp & Hp & Hrun);
    [|intros p; apply Batch_issue_account; reflexivity].
  rewrite Hrun. cbn [trace result snd fst].
  rewrite Hp in Hq, Hpf. cbn [trace snd] in Hq, Hpf.
  destruct (bookkeeping_projections _ Hq) as (Hc & Hr & Ht & Hv & Hk).
  destruct (Batch_issue_run c o csr order authorizations w1) as (rs & w0 & t0 & Hsel & Hissue).
  destruct (joinAll rs) as [infos|v] eqn:Ejoin.
  { exfalso. pose proof (selectPhase_spec c o authorizations w1 rs w0 t0 infos Hsel Ejoin) as H.
    clear -H Hin Hnil. induction H as [|a ci l infos Ha _ IH]; [easy|].
    destruct Hin as [->|Hin]; [|auto].
    rewrite (selectChallenge_nil _ _ Hnil) in Ha. discriminate. }
  rewrite Hissue. cbn [trace result snd fst].
  pose proof (selectPhase_bookkeeping c o authorizations w1) as Hq0.
  assert (Hf0 : quiet (@Steps.finalization Order Certificate Buffer Rec)
                  (startAll (map (Batch.challengePromise c o) authorizations)))
    by quiet_tac.
  specialize (Hf0 w1). rewrite Hsel in Hq0, Hf0. cbn [trace snd] in Hq0, Hf0.
  destruct (bookkeeping_projections _ Hq0) as (Hc0 & Hr0 & Ht0 & Hv0 & Hk0).
  unfold Auto.createCalls, Auto.removeCalls, Auto.timeline, Auto.verifyCalls,
    Auto.completeCalls in *.
  rewrite !omap_app, Hc, Hr, Ht, Hv, Hk, Hc0, Hr0, Ht0, Hv0, Hk0, Hpf, Hf0.
  repeat split.
Qed.

Lemma undetected_failures (infos : list (ChallengeInfo.t Rec)) (outs : list (outcome Rec)) :
  Forall (fun v => instanceofError v = false)
    (omap Auto.failureOf (zip_with Batch.callOf infos outs)) ->
  List.filter Batch.isError (zip_with Batch.itemOf infos outs) = [].
Proof.
  revert outs. induction infos as [|ci infos IH]; intros [|r outs]; try reflexivity.
  cbn [zip_with]. destruct r as [rec|v]; cbn.
  - apply IH.
  - intros H. apply Forall_cons in H as [Hv H]. rewrite Hv. now apply IH.
Qed.

Lemma caught_item (infos : list (ChallengeInfo.t Rec)) (outs : list (outcome Rec))
    a ch k (v : jsval) :
  In (a, ch, k, Throw v) (zip_with Batch.callOf infos outs) ->
  In (Batch.Caught v) (zip_with Batch.itemOf infos outs).
Proof.
  revert outs. induction infos as [|ci infos IH]; intros [|r outs]; try easy.
  cbn [zip_with]. intros [Hhd|Htl]; [left|right; now apply IH].
  unfold Batch.callOf in Hhd. injection Hhd as _ _ _ ->. reflexivity.
Qed.


(** The steps a challenge goes through once its record exists, in both
    files: verification unless it is skipped, completion, and the wait for
    the valid status. *)
Abbreviation challenge_steps skip l1 l2 l3 a ch :=
  ((if skip : bool
    then Auto.logger_info l1
    else
      Auto.logger_info l2 ;;
      call (Auto.verifyChallenge c a ch) (Auto.VerifyChallenge a ch)) ;;
   Auto.logger_info l3 ;;
   call (Auto.completeChallenge c ch) (Auto.CompleteChallenge ch) ;;
   call (Auto.waitForValidStatus c ch) (Auto.WaitForValidStatus ch)).

Lemma challenge_steps_run skip l1 l2 l3 a ch w :
  let t : list event := trace (challenge_steps skip l1 l2 l3 a ch w) in
  omap Steps.waiting t = omap Steps.completed t /\
  (skip = false ->
   omap Steps.completion t = omap Steps.verified t /\
   Auto.verifyCalls t = [(a, ch)]).
Proof.
  cbn zeta. unfold Auto.logger_info, bind, call, emit, trace.
  destruct skip; cbn [fst snd].
  - destruct (Auto.completeChallenge c ch w) as [[[]|v] w1]; cbn [fst snd].
    + destruct (Auto.waitForValidStatus c ch w1) as [[[]|v] w2]; cbn; split; easy.
    + cbn; split; easy.
  - destruct (Auto.verifyChallenge c a ch w) as [[[]|v] w0]; cbn [fst snd];
      [|cbn; split; [easy|intros _; split; reflexivity]].
    destruct (Auto.completeChallenge c ch w0) as [[[]|v] w1]; cbn [fst snd].
    + destruct (Auto.waitForValidStatus c ch w1) as [[[]|v] w2]; cbn;
        (split; [easy|intros _; split; reflexivity]).
    + cbn. split; [easy|intros _; split; reflexivity].
Qed.

Ltac balanced_step :=
  first
    [ apply balanced_quiet; solve [quiet_tac]
    | apply balanced_bind; [|intros]
    | apply balanced_tryCatch; [|intros]
    | apply balanced_tryFinally
    | apply balanced_tryFinallyLet; [|intros|intros]
    | apply balanced_startAll
    | match goal with
      | |- Forall _ (imap _ _) => apply Forall_imap_intro; intros
      | |- Forall _ (map _ _) => apply Forall_map; apply Forall_forall; intros
      end
    | match goal with
      | |- balanced _ _ (match ?x with _ => _ end) => destruct x
      end ].

Lemma issue_waits_for_completed o csr order authorizations :
  balanced Steps.waiting Steps.completed (Batch.issue c o csr order authorizations) /\
  balanced Steps.waiting Steps.completed (Inline.issue c o csr order authorizations).
Proof.
  split.
  all: repeat first
         [ progress cbv beta zeta
         | match goal with
           | |- balanced _ _ (bind (if _ then _ else _) _) =>
               let w := fresh "w" in
               intros w; apply (proj1 (challenge_steps_run _ _ _ _ _ _ w))
           end
         | balanced_step
         | quiet_unfold ].
Qed.

Lemma issue_completes_verified o csr order authorizations :
  Auto.skipChallengeVerification o = false ->
  balanced Steps.completion Steps.verified (Batch.issue c o csr order authorizations) /\
  balanced Steps.completion Steps.verified (Inline.issue c o csr order authorizations).
Proof.
  intros Hskip. split.
  all: repeat first
         [ progress cbv beta zeta
         | match goal with
           | |- balanced _ _ (bind (if _ then _ else _) _) =>
               let w := fresh "w" in
               intros w; apply (proj2 (challenge_steps_run _ _ _ _ _ _ w) Hskip)
           end
         | balanced_step
         | quiet_unfold ].
Qed.

(** X14: in both orchestrators the challenges handed to
    [waitForValidStatus] are those for which [completeChallenge] returned,
    and, unless verification is skipped, the challenges handed to
    [completeChallenge] are those for which [verifyChallenge] returned:
    the ACME server is never asked to validate a challenge that failed
    the verification made before. *)
Theorem challenges_advance_step_by_step userOpts w (t : list event) :
  let o := Auto.assign Auto.defaultOpts userOpts in
  t = trace (Batch.auto rt c userOpts w) \/ t = trace (Inline.auto rt c userOpts w) ->
  omap Steps.waiting t ≡ₚ omap Steps.completed t /\
  (Auto.skipChallengeVerification o = false ->
   omap Steps.completion t ≡ₚ omap Steps.verified t).
Proof.
  intros o Ht.
  assert (Hw : omap Steps.waiting t = omap Steps.completed t).
  { destruct Ht as [->| ->]; [rewrite Batch_auto_split|rewrite Inline_auto_split].
    all: apply balanced_bind; [apply balanced_quiet; quiet_tac|intros p].
    all: apply issue_waits_for_completed. }
  split; [now rewrite Hw|]. intros Hskip.
  assert (Hc : omap Steps.completion t = omap Steps.verified t); [|now rewrite Hc].
  destruct Ht as [->| ->]; [rewrite Batch_auto_split|rewrite Inline_auto_split].
  all: apply balanced_bind; [apply balanced_quiet; quiet_tac|intros p].
  all: now apply issue_completes_verified.
Qed.

Lemma Inline_task_keys o authz :
  balanced Steps.hookKey Steps.clientKey (Inline.challengePromise c o authz).
Proof.
  unfold Inline.challengePromise.
  apply balanced_bind; [apply balanced_quiet; quiet_tac|intros [a ch]].
  apply balanced_bind; [apply balanced_quiet; quiet_tac|intros _].
  apply balanced_bind; [apply balanced_quiet; quiet_tac|intros _].
  intros w. rewrite !proj_bind.
  destruct (call_run (Auto.getChallengeKeyAuthorization c ch)
              (@Auto.GetChallengeKeyAuthorization Order Certificate Buffer Rec ch) w)
    as (-> & -> & ->).
  destruct (Auto.getChallengeKeyAuthorization c ch w) as [[k|v] w1]; cbn [fst snd];
    [|reflexivity].
  rewrite !proj_tryFinallyLet.
  destruct (call_run (Auto.challengeCreateFn o a ch k)
              (@Auto.ChallengeCreateFn Order Certificate Buffer Rec a ch k) w1)
    as (-> & -> & ->).
  assert (Hr : forall (f : event -> option (Challenge.t * jsstring)) d x y z r,
             (f = Steps.hookKey \/ f = Steps.clientKey) ->
             quiet f (Auto.triggerRemove (Order:=Order) (Certificate:=Certificate)
                        o d x y z r)).
  { intros f d x y z r [-> | ->]; quiet_tac. }
  destruct (Auto.challengeCreateFn o a ch k w1) as [[r|e] w2]; cbn [fst snd].
  - match goal with
    | |- context [trace (?body w2)] =>
        assert (Hb1 : quiet (@Steps.hookKey Order Certificate Buffer Rec) body)
          by quiet_tac;
        assert (Hb2 : quiet (@Steps.clientKey Order Certificate Buffer Rec) body)
          by quiet_tac;
        rewrite (Hb1 w2), (Hb2 w2)
    end.
    rewrite !Hr by auto. reflexivity.
  - rewrite !Hr by auto. reflexivity.
Qed.

Lemma Inline_task_verifies o authz :
  Auto.skipChallengeVerification o = false ->
  balanced (fun e : event => match e with
                             | Auto.VerifyChallenge a ch _ => Some (a, ch)
                             | _ => None
                             end)
    Steps.provisioned (Inline.challengePromise c o authz).
Proof.
  intros Hskip. unfold Inline.challengePromise.
  apply balanced_bind; [apply balanced_quiet; quiet_tac|intros [a ch]].
  apply balanced_bind; [apply balanced_quiet; quiet_tac|intros _].
  apply balanced_bind; [apply balanced_quiet; quiet_tac|intros _].
  apply balanced_bind; [apply balanced_quiet; quiet_tac|intros k].
  intros w. rewrite !proj_tryFinallyLet.
  destruct (call_run (Auto.challengeCreateFn o a ch k)
              (@Auto.ChallengeCreateFn Order Certificate Buffer Rec a ch k) w)
    as (-> & -> & ->).
  assert (Hr : forall d x y z r w',
             omap (fun e : event => match e with
                                    | Auto.VerifyChallenge a ch _ => Some (a, ch)
                                    | _ => None
                                    end)
               (trace (Auto.triggerRemove (Order:=Order) (Certificate:=Certificate)
                         o d x y z r w')) = [] /\
             omap Steps.provisioned
               (trace (Auto.triggerRemove (Order:=Order) (Certificate:=Certificate)
                         o d x y z r w')) = []).
  { intros. split; [apply (quiet_trace _ _ w')|apply (quiet_trace _ _ w')]; quiet_tac. }
  destruct (Auto.challengeCreateFn o a ch k w) as [[r|e] w2]; cbn [fst snd].
  - match goal with
    | |- context [trace (?body w2)] =>
        assert (Hb : quiet (@Steps.provisioned Order Certificate Buffer Rec) body)
          by quiet_tac;
        rewrite (Hb w2);
        assert (Hv : Auto.verifyCalls (trace (body w2)) = [(Some a, Some ch)])
          by (apply (proj2 (challenge_steps_run (Auto.skipChallengeVerification o)
                              _ _ _ (Some a) (Some ch) w2) Hskip))
    end.
    unfold Auto.verifyCalls in Hv. rewrite Hv.
    rewrite (proj1 (Hr _ _ _ _ _ _)), (proj2 (Hr _ _ _ _ _ _)). reflexivity.
  - rewrite (proj1 (Hr _ _ _ _ _ _)), (proj2 (Hr _ _ _ _ _ _)). reflexivity.
Qed.

Lemma selectPhase_keys o authorizations w rs w' (t : list event) infos :
  startAll (map (Batch.challengePromise c o) authorizations) w = (Ok rs, w', t) ->
  joinAll rs = Ok infos ->
  omap Steps.clientKey t
  = map (fun ci : ChallengeInfo.t Rec =>
           (ChallengeInfo.challenge ci, ChallengeInfo.keyAuthorization ci)) infos.
Proof.
  revert w rs t infos. induction authorizations as [|authz l IH]; intros w rs t infos; simpl.
  - unfold ret. intros [= <- <- <-]. simpl. intros [= <-]. reflexivity.
  - unfold bind at 1, settle.
    destruct (Batch.challengePromise c o authz w) as [[r1 w1] t1] eqn:E1.
    unfold bind.
    destruct (startAll (map (Batch.challengePromise c o) l) w1) as [[[rs'|v] w2] t2] eqn:E2;
      [|discriminate].
    unfold ret. intros [= <- <- <-]. simpl.
    destruct r1 as [ci|v]; [|discriminate].
    destruct (joinAll rs') as [infos'|v] eqn:Ej; [|discriminate].
    intros [= <-]. rewrite app_nil_r, omap_app, (IH _ _ _ _ E2 Ej). cbn [map].
    unfold Batch.challengePromise, bind at 1, ofOutcome in E1.
    destruct (Auto.selectChallenge (Auto.challengePriority o) authz) as [[a ch]|v];
      [|discriminate].
    unfold bind, Auto.logger_info, emit, call, ret in E1.
    destruct (Auto.getChallengeKeyAuthorization c ch w) as [[k|v] w3]; [|discriminate].
    injection E1 as <- _ <-. reflexivity.
Qed.

Lemma hookKey_createCalls (t : list event) :
  omap Steps.hookKey t = map (fun call => (call.1.1.2, call.1.2)) (Auto.createCalls t).
Proof.
  unfold Auto.createCalls. induction t as [|e t IH]; [reflexivity|].
  destruct e; cbn; try exact IH. now rewrite IH.
Qed.

Lemma provisioned_createCalls (t : list event) :
  omap Steps.provisioned t
  = omap (fun call : Authz.t * Challenge.t * jsstring * outcome Rec =>
            match call.2 with
            | Ok _ => Some (Some call.1.1.1, Some call.1.1.2)
            | Throw _ => None
            end) (Auto.createCalls t).
Proof.
  unfold Auto.createCalls. induction t as [|e t IH]; [reflexivity|].
  destruct e; cbn; try exact IH. destruct r; cbn; [now rewrite IH|exact IH].
Qed.

Abbreviation createPromise := (@Batch.challengeCreatePromise World Order Certificate Buffer Rec).

Lemma createPhase_keys o (infos : list (ChallengeInfo.t Rec)) w :
  omap Steps.hookKey (trace (startAll (imap (createPromise o) infos) w))
  = map (fun ci : ChallengeInfo.t Rec =>
           (ChallengeInfo.challenge ci, ChallengeInfo.keyAuthorization ci)) infos.
Proof.
  destruct (createPhase_spec (Order:=Order) (Certificate:=Certificate) (Buffer:=Buffer)
              o infos (fun i => i) w)
    as (outs & w' & t & Hrun & Hlen & _ & Hc & _).
  change (imap (fun i => createPromise o i) infos) with (imap (createPromise o) infos) in Hrun.
  rewrite Hrun. cbn [trace snd]. rewrite hookKey_createCalls, Hc.
  clear -Hlen. revert outs Hlen.
  induction infos as [|ci infos IH]; intros [|r outs] Hlen; try discriminate; [reflexivity|].
  cbn. f_equal. apply IH. now injection Hlen.
Qed.

(** The trace of the batch [issue], phase by phase. *)
Lemma Batch_issue_phases o csr order authorizations w :
  exists rs w0 (t0 : list event),
    startAll (map (Batch.challengePromise c o) authorizations) w = (Ok rs, w0, t0) /\
    match joinAll rs with
    | Throw v => Batch.issue c o csr order authorizations w = (Throw v, w0, t0)
    | Ok infos =>
        exists outs w1 (t1 tail : list event),
          let items := zip_with Batch.itemOf infos outs in
          let g := Batch.verifyOrLog c o items w1 in
          let r := Batch.removeAll o items (final g) in
          startAll (imap (createPromise o) infos) w0 = (Ok (map Ok items), w1, t1) /\
          length outs = length infos /\
          Auto.createCalls t1 = zip_with Batch.callOf infos outs /\
          trace (Batch.issue c o csr order authorizations w)
          = t0 ++ t1 ++ trace g ++ trace r ++ tail /\
          (tail = [] \/ exists w2, tail = trace (Auto.finalize c o order csr w2))
    end.
Proof.
  destruct (startAll_ok (map (Batch.challengePromise c o) authorizations) w)
    as (rs & w0 & t0 & Hsel).
  exists rs, w0, t0. split; [exact Hsel|].
  destruct (joinAll rs) as [infos|v] eqn:Ejoin.
  2:{ unfold Batch.issue. unfold bind at 1. rewrite Hsel.
      unfold bind at 1, PromiseAll at 1, ofOutcome. rewrite Ejoin.
      now rewrite app_nil_r. }
  destruct (createPhase_spec (Order:=Order) (Certificate:=Certificate) (Buffer:=Buffer)
              o infos (fun i => i) w0)
    as (outs & w1 & t1 & Hcreate & Hlen & _ & Hc & _).
  change (imap (fun i => createPromise o i) infos) with (imap (createPromise o) infos)
    in Hcreate.
  set (items := zip_with Batch.itemOf infos outs) in *.
  assert (Hrun : exists tail,
             trace (Batch.issue c o csr order authorizations w)
             = t0 ++ t1 ++ trace (Batch.verifyOrLog c o items w1)
                 ++ trace (Batch.removeAll o items (final (Batch.verifyOrLog c o items w1)))
                 ++ tail /\
             (tail = [] \/ exists w2, tail = trace (Auto.finalize c o order csr w2))).
  { unfold Batch.issue. unfold bind at 1. rewrite Hsel.
    unfold bind at 1, PromiseAll at 1, ofOutcome. rewrite Ejoin.
    unfold bind at 1. rewrite Hcreate.
    unfold bind at 1, PromiseAll at 1, ofOutcome. rewrite joinAll_map_Ok.
    unfold bind, Batch.satisfy, tryFinally, result, final, trace.
    destruct (Batch.verifyOrLog c o items w1) as [[rg wg] tg]. cbn [fst snd].
    destruct (Batch.removeAll o items wg) as [[[[]|v] w2] trm]; cbn [fst snd].
    - destruct rg as [[]|v]; cbn [fst snd].
      + exists (Auto.finalize c o order csr w2).2. split; [|right; now exists w2].
        destruct (Auto.finalize c o order csr w2) as [[rf wf] tf]. cbn [fst snd app].
        now rewrite <- ?app_assoc.
      + exists []. split; [|now left]. cbn [app]. now rewrite <- ?app_assoc, app_nil_r.
    - exists []. split; [|now left].
      destruct rg; cbn [app snd]; now rewrite <- ?app_assoc, app_nil_r. }
  destruct Hrun as (tail & Htrace & Htail).
  exists outs, w1, t1, tail. cbn zeta. auto.
Qed.

Lemma removeAll_quiet {X} (f : event -> option X) o (items : list (Batch.item Rec)) :
  (forall l m a, f (Auto.Logger l m a) = None) ->
  (forall ms, f (Auto.Sleep ms) = None) ->
  (forall a ch k rec r, f (Auto.ChallengeRemoveFn a ch k rec r) = None) ->
  quiet f (Batch.removeAll (Order:=Order) (Certificate:=Certificate) o items).
Proof.
  intros H1 H2 H3.
  unfold Batch.removeAll, Batch.removePromise, Batch.destructure, Auto.triggerRemove,
    Auto.messageOf, Auto.logger_info, Auto.sleep.
  repeat first
    [ apply quiet_ret | apply quiet_throw | apply quiet_PromiseAll
    | apply quiet_emit; solve [apply H1|apply H2]
    | apply quiet_call; intros; apply H3
    | apply quiet_bind; [|intros]
    | apply quiet_tryCatch; [|intros]
    | apply quiet_startAll
    | match goal with
      | |- Forall _ (imap _ _) => apply Forall_imap_intro; intros
      end
    | match goal with
      | |- quiet _ (match ?x with _ => _ end) => destruct x
      end ].
Qed.

Lemma finalize_quiet {X} (f : event -> option X) o order csr :
  (forall l m a, f (Auto.Logger l m a) = None) ->
  (forall or cs r, f (Auto.FinalizeOrder or cs r) = None) ->
  (forall or ch r, f (Auto.GetCertificate or ch r) = None) ->
  quiet f (Auto.finalize c o order csr).
Proof.
  intros H1 H2 H3. unfold Auto.finalize, Auto.logger_info.
  repeat first
    [ apply quiet_emit; apply H1
    | apply quiet_call; intros; solve [apply H2|apply H3]
    | apply quiet_bind; [|intros] ].
Qed.

(** What the batch [issue] shows of the events of its first two phases. *)
Lemma Batch_issue_provisioning {X} (f : event -> option X) o csr order authorizations w :
  (forall l m a, f (Auto.Logger l m a) = None) ->
  (forall ms, f (Auto.Sleep ms) = None) ->
  (forall a ch r, f (Auto.VerifyChallenge a ch r) = None) ->
  (forall ch r, f (Auto.CompleteChallenge ch r) = None) ->
  (forall ch r, f (Auto.WaitForValidStatus ch r) = None) ->
  (forall a ch k rec r, f (Auto.ChallengeRemoveFn a ch k rec r) = None) ->
  (forall or cs r, f (Auto.FinalizeOrder or cs r) = None) ->
  (forall or ch r, f (Auto.GetCertificate or ch r) = None) ->
  exists rs w0 (t0 : list event),
    startAll (map (Batch.challengePromise c o) authorizations) w = (Ok rs, w0, t0) /\
    omap f (trace (Batch.issue c o csr order authorizations w)) =
    omap f t0 ++
    match joinAll rs with
    | Ok infos => omap f (trace (startAll (imap (createPromise o) infos) w0))
    | Throw _ => []
    end.
Proof.
  intros H1 H2 H3 H4 H5 H6 H7 H8.
  destruct (Batch_issue_phases o csr order authorizations w) as (rs & w0 & t0 & Hsel & Hrun).
  exists rs, w0, t0. split; [exact Hsel|].
  destruct (joinAll rs) as [infos|v]; [|rewrite Hrun; cbn [trace snd]; now rewrite app_nil_r].
  destruct Hrun as (outs & w1 & t1 & tail & Hcreate & _ & _ & Htrace & Htail).
  cbn zeta in *. rewrite Htrace, Hcreate. cbn [trace snd].
  rewrite !omap_app.
  rewrite (verifyOrLog_quiet c f o _ H2 H3 H4 H5 H1).
  rewrite (removeAll_quiet f o _ H1 H2 H6).
  destruct Htail as [->|[w2 ->]]; [|rewrite (finalize_quiet f o order csr H1 H7 H8)];
    now rewrite ?app_nil_r.
Qed.

Lemma Batch_issue_keys o csr order authorizations w :
  let t := trace (Batch.issue c o csr order authorizations w) in
  omap Steps.hookKey t = [] \/ omap Steps.hookKey t = omap Steps.clientKey t.
Proof.
  cbn zeta.
  destruct (Batch_issue_provisioning Steps.hookKey o csr order authorizations w)
    as (rs & w0 & t0 & Hsel & Hh); try reflexivity.
  destruct (Batch_issue_provisioning Steps.clientKey o csr order authorizations w)
    as (rs' & w0' & t0' & Hsel' & Hc); try reflexivity.
  rewrite Hsel in Hsel'. injection Hsel' as <- <- <-.
  rewrite Hh, Hc.
  assert (Hq : quiet (@Steps.hookKey Order Certificate Buffer Rec)
                 (startAll (map (Batch.challengePromise c o) authorizations))) by quiet_tac.
  specialize (Hq w). rewrite Hsel in Hq. cbn [trace snd] in Hq. rewrite Hq.
  destruct (joinAll rs) as [infos|v] eqn:Ejoin; [right|now left].
  rewrite (selectPhase_keys o authorizations w rs w0 t0 infos Hsel Ejoin).
  rewrite createPhase_keys.
  assert (Hq' : quiet (@Steps.clientKey Order Certificate Buffer Rec)
                  (startAll (imap (createPromise o) infos))) by quiet_tac.
  rewrite Hq'. now rewrite app_nil_r.
Qed.

(** X15: the key authorization handed to the creation hook is the one
    [client.getChallengeKeyAuthorization] returned for the challenge
    handed with it.  The inline orchestrator calls the hook once for every
    key authorization the client returned; the batch orchestrator does the
    same unless it calls the hook for none. *)
Theorem hooks_receive_the_client_keys userOpts w :
  let batch := trace (Batch.auto rt c userOpts w) in
  let inline := trace (Inline.auto rt c userOpts w) in
  (omap Steps.hookKey batch = [] \/ omap Steps.hookKey batch ≡ₚ omap Steps.clientKey batch) /\
  omap Steps.hookKey inline ≡ₚ omap Steps.clientKey inline.
Proof.
  intros batch inline. subst batch inline. rewrite Batch_auto_split, Inline_auto_split.
  set (o := Auto.assign Auto.defaultOpts userOpts).
  assert (Hp1 : quiet (@Steps.hookKey Order Certificate Buffer Rec) (Auto.prepare rt c o))
    by quiet_tac.
  assert (Hp2 : quiet (@Steps.clientKey Order Certificate Buffer Rec) (Auto.prepare rt c o))
    by quiet_tac.
  split.
  - rewrite !proj_bind, Hp1, Hp2. cbn [app].
    destruct (result (Auto.prepare rt c o w)) as [p|v]; [|now left].
    destruct (Batch_issue_keys o p.1.1 p.1.2 p.2 (final (Auto.prepare rt c o w))) as [H|H];
      [now left|right; now rewrite H].
  - assert (H : balanced Steps.hookKey Steps.clientKey
                  (bind (Auto.prepare rt c o)
                     (fun p => Inline.issue c o p.1.1 p.1.2 p.2))); [|now rewrite (H w)].
    apply balanced_bind; [now apply balanced_quiet|intros p].
    unfold Inline.issue.
    apply balanced_bind; [|intros; apply balanced_quiet; quiet_tac].
    apply balanced_startAll, Forall_map, Forall_forall. intros authz _.
    apply Inline_task_keys.
Qed.

Lemma verifyPromise_calls o (ci : ChallengeInfo.t Rec) w :
  Auto.skipChallengeVerification o = false ->
  Auto.verifyCalls (trace (Batch.verifyPromise c o (Batch.Provisioned ci) w))
  = [(Some (ChallengeInfo.authz ci), Some (ChallengeInfo.challenge ci))].
Proof.
  intros Hskip. unfold Batch.verifyPromise, Batch.destructure.
  rewrite bind_ret_l. cbv zeta. cbn [Batch.f_authz Batch.f_challenge Batch.f_domain].
  apply (proj2 (challenge_steps_run (Auto.skipChallengeVerification o) _ _ _
                  (Some (ChallengeInfo.authz ci)) (Some (ChallengeInfo.challenge ci)) w)
           Hskip).
Qed.

Lemma verify_tasks o (cis : list (ChallengeInfo.t Rec)) w :
  Auto.skipChallengeVerification o = false ->
  Auto.verifyCalls
    (trace (startAll (map (Batch.verifyPromise c o) (map Batch.Provisioned cis)) w))
  = map (fun ci => (Some (ChallengeInfo.authz ci), Some (ChallengeInfo.challenge ci))) cis.
Proof.
  intros Hskip. revert w. induction cis as [|ci cis IH]; intros w; [reflexivity|].
  cbn [map]. rewrite trace_startAll_cons.
  pose proof (verifyPromise_calls o ci w Hskip) as Hhd.
  specialize (IH (final (Batch.verifyPromise c o (Batch.Provisioned ci) w))).
  unfold Auto.verifyCalls in *. now rewrite omap_app, IH, Hhd.
Qed.

Lemma bind_emit_trace {E A} (e : E) (k : unit -> M World E A) w :
  trace (bind (emit e) k w) = e :: trace (k tt w).
Proof. unfold bind, emit, trace. now destruct (k tt w) as [[r w1] t1]. Qed.

Lemma verifyOrLog_calls o (cis : list (ChallengeInfo.t Rec)) w :
  Auto.skipChallengeVerification o = false ->
  Auto.verifyCalls (trace (Batch.verifyOrLog c o (map Batch.Provisioned cis) w))
  = map (fun ci => (Some (ChallengeInfo.authz ci), Some (ChallengeInfo.challenge ci))) cis.
Proof.
  intros Hskip. unfold Auto.verifyCalls, Batch.verifyOrLog.
  rewrite proj_tryCatch.
  match goal with
  | |- _ ++ ?rest = _ => assert (Hrest : rest = [])
  end.
  { destruct (result _); [reflexivity|]. apply quiet_trace. quiet_tac. }
  rewrite Hrest, app_nil_r. clear Hrest.
  unfold Batch.verifyAll.
  assert (Hfilter : List.filter Batch.isError (map (@Batch.Provisioned Rec) cis) = [])
    by (induction cis; [reflexivity|assumption]).
  rewrite Hfilter, bind_ret_l.
  unfold Auto.logger_info, Auto.sleep. rewrite !bind_emit_trace. cbn [omap list_omap].
  rewrite proj_bind.
  match goal with
  | |- _ ++ ?rest = _ => assert (Hrest : rest = [])
  end.
  { destruct (result _); [|reflexivity]. apply quiet_trace. quiet_tac. }
  rewrite Hrest, app_nil_r. now apply verify_tasks.
Qed.

Lemma items_provisioned (infos : list (ChallengeInfo.t Rec)) (outs : list (outcome Rec)) :
  length outs = length infos ->
  omap Auto.failureOf (zip_with Batch.callOf infos outs) = [] ->
  exists cis : list (ChallengeInfo.t Rec),
    zip_with Batch.itemOf infos outs = map Batch.Provisioned cis /\
    omap (fun call : Authz.t * Challenge.t * jsstring * outcome Rec =>
            match call.2 with
            | Ok _ => Some (Some call.1.1.1, Some call.1.1.2)
            | Throw _ => None
            end) (zip_with Batch.callOf infos outs)
    = map (fun ci => (Some (ChallengeInfo.authz ci), Some (ChallengeInfo.challenge ci))) cis.
Proof.
  revert outs. induction infos as [|ci infos IH]; intros [|r outs] Hlen; try discriminate.
  - exists []. split; reflexivity.
  - cbn [zip_with]. destruct r as [rec|v]; cbn; [|discriminate].
    intros Hf. destruct (IH outs) as (cis & H1 & H2); [now injection Hlen|exact Hf|].
    eexists (_ :: cis). cbn [map]. rewrite H1, H2. split; reflexivity.
Qed.

Lemma Batch_issue_verifies o csr order authorizations w :
  let t := trace (Batch.issue c o csr order authorizations w) in
  Auto.skipChallengeVerification o = false ->
  Auto.createFailures t = [] ->
  Auto.verifyCalls t = omap Steps.provisioned t.
Proof.
  cbn zeta. intros Hskip.
  destruct (Batch_issue_provisioning Steps.provisioned o csr order authorizations w)
    as (rs' & w0' & t0' & Hsel' & Hp); try reflexivity.
  destruct (Batch_issue_provisioning Steps.failedCreation o csr order authorizations w)
    as (rs'' & w0'' & t0'' & Hsel'' & Hfc); try reflexivity.
  destruct (Batch_issue_phases o csr order authorizations w) as (rs & w0 & t0 & Hsel & Hrun).
  rewrite Hsel in Hsel', Hsel''. injection Hsel' as <- <- <-. injection Hsel'' as <- <- <-.
  rewrite createFailures_failedCreation, Hfc, Hp. clear Hfc Hp.
  assert (Hq : forall X (f : event -> option X),
             (forall l m a, f (Auto.Logger l m a) = None) ->
             (forall ch r, f (Auto.GetChallengeKeyAuthorization ch r) = None) ->
             omap f t0 = []).
  { intros X f H1 H2.
    assert (Hq : quiet f (startAll (map (Batch.challengePromise c o) authorizations))).
    { unfold Batch.challengePromise, Auto.logger_info.
      repeat first
        [ apply quiet_ret | apply quiet_ofOutcome
        | apply quiet_emit; apply H1
        | apply quiet_call; intros; apply H2
        | apply quiet_bind; [|intros]
        | apply quiet_startAll
        | match goal with
          | |- Forall _ (map _ _) => apply Forall_map; apply Forall_forall; intros
          end
        | match goal with
          | |- quiet _ (match ?x with _ => _ end) => destruct x
          end ]. }
    specialize (Hq w). now rewrite Hsel in Hq. }
  rewrite !Hq by reflexivity. cbn [app].
  destruct (joinAll rs) as [infos|v].
  2:{ intros _. rewrite Hrun. cbn [trace snd]. unfold Auto.verifyCalls. now apply Hq. }
  destruct Hrun as (outs & w1 & t1 & tail & Hcreate & Hlen & Hc & Htrace & Htail).
  cbn zeta in *. rewrite Hcreate. cbn [trace snd].
  rewrite <- createFailures_failedCreation. unfold Auto.createFailures. rewrite Hc.
  intros Hnone. destruct (items_provisioned infos outs Hlen Hnone) as (cis & Hitems & Hprov).
  rewrite provisioned_createCalls, Hc, Hprov.
  rewrite Htrace, Hitems.
  assert (Hv1 : Auto.verifyCalls t1 = []).
  { assert (Hq1 : quiet (fun e : event => match e with
                                          | Auto.VerifyChallenge a ch _ => Some (a, ch)
                                          | _ => None
                                          end) (startAll (imap (createPromise o) infos)))
      by quiet_tac.
    specialize (Hq1 w0). now rewrite Hcreate in Hq1. }
  unfold Auto.verifyCalls in *. rewrite !omap_app, Hq, Hv1 by reflexivity.
  rewrite (removeAll_quiet _ o) by reflexivity.
  assert (Htl : omap (fun e : event => match e with
                                       | Auto.VerifyChallenge a ch _ => Some (a, ch)
                                       | _ => None
                                       end) tail = []).
  { destruct Htail as [->|[w2 ->]]; [reflexivity|]. now apply finalize_quiet. }
  rewrite Htl, !app_nil_r. cbn [app]. now apply verifyOrLog_calls.
Qed.

(** X16: with verification on, the inline orchestrator asks the
    client to verify exactly the challenges whose record was created, and
    the batch orchestrator, when no creation failed, asks it for every one
    of them, whatever the verification of the others gives. *)
Theorem verification_follows_creation userOpts w :
  let o := Auto.assign Auto.defaultOpts userOpts in
  let batch := trace (Batch.auto rt c userOpts w) in
  let inline := trace (Inline.auto rt c userOpts w) in
  Auto.skipChallengeVerification o = false ->
  (Auto.createFailures batch = [] ->
   Auto.verifyCalls batch ≡ₚ omap Steps.provisioned batch) /\
  Auto.verifyCalls inline ≡ₚ omap Steps.provisioned inline.
Proof.
  intros o batch inline Hskip. subst batch inline.
  rewrite Batch_auto_split, Inline_auto_split. fold o.
  assert (Hp1 : quiet (@Steps.provisioned Order Certificate Buffer Rec) (Auto.prepare rt c o))
    by quiet_tac.
  assert (Hp2 : quiet (@Steps.failedCreation Order Certificate Buffer Rec)
                  (Auto.prepare rt c o)) by quiet_tac.
  assert (Hp3 : quiet (fun e : event => match e with
                                        | Auto.VerifyChallenge a ch _ => Some (a, ch)
                                        | _ => None
                                        end) (Auto.prepare rt c o)) by quiet_tac.
  split.
  - rewrite createFailures_failedCreation. unfold Auto.verifyCalls.
    rewrite !proj_bind, Hp1, Hp2, Hp3. cbn [app].
    destruct (result (Auto.prepare rt c o w)) as [p|v]; [|reflexivity].
    rewrite <- createFailures_failedCreation. intros Hnone.
    now rewrite <- (Batch_issue_verifies o p.1.1 p.1.2 p.2 _ Hskip Hnone).
  - assert (H : balanced (fun e : event => match e with
                                           | Auto.VerifyChallenge a ch _ => Some (a, ch)
                                           | _ => None
                                           end) Steps.provisioned
                  (bind (Auto.prepare rt c o)
                     (fun p => Inline.issue c o p.1.1 p.1.2 p.2)));
      [|unfold Auto.verifyCalls; now rewrite (H w)].
    apply balanced_bind; [now apply balanced_quiet|intros p].
    unfold Inline.issue.
    apply balanced_bind; [|intros; apply balanced_quiet; quiet_tac].
    apply balanced_startAll, Forall_map, Forall_forall. intros authz _.
    now apply Inline_task_verifies.
Qed.

Lemma tryCatch_trace {E A} (m : M World E A) (h : jsval -> M World E A) w :
  exists rest, trace (tryCatch m h w) = trace (m w) ++ rest.
Proof.
  unfold tryCatch, trace. destruct (m w) as [[[a|v] w1] t1]; cbn [snd].
  - exists []. now rewrite app_nil_r.
  - destruct (h v w1) as [[r w2] t2]. now exists t2.
Qed.

Lemma verifyOrLog_wait o (items : list (Batch.item Rec)) w :
  List.filter Batch.isError items = [] ->
  exists (l : event) (rest : list event),
    Auto.challengeEvent l = None /\
    trace (Batch.verifyOrLog c o items w) = l :: Auto.Sleep 30000 :: rest.
Proof.
  intros Hfilter. unfold Batch.verifyOrLog.
  match goal with
  | |- context [tryCatch ?m ?h w] => destruct (tryCatch_trace m h w) as (rest & ->)
  end.
  unfold Batch.verifyAll. rewrite Hfilter, bind_ret_l.
  unfold Auto.logger_info at 1, Auto.sleep. rewrite !bind_emit_trace.
  cbn [app]. eexists _, _. split; [|reflexivity]. reflexivity.
Qed.

Lemma verifyOrLog_stops o (items : list (Batch.item Rec)) w :
  List.filter Batch.isError items <> [] ->
  Auto.verifyCalls (trace (Batch.verifyOrLog c o items w)) = [] /\
  Auto.completeCalls (trace (Batch.verifyOrLog c o items w)) = [].
Proof.
  destruct (List.filter Batch.isError items) as [|it rest] eqn:E; [intros H; now contradiction H|].
  intros _.
  assert (Hit : Batch.isError it = true).
  { assert (Hin : In it (List.filter Batch.isError items)) by (rewrite E; now left).
    now apply filter_In in Hin. }
  destruct it as [ci|e]; [discriminate|].
  rewrite (verifyOrLog_abort c o items e rest w E). split; reflexivity.
Qed.

(** X17: the trace of a batch attempt splits in two.  Whatever is
    called of the creation hook is called in the first part, where nothing
    is verified, completed, waited for or removed; and when anything is
    verified or completed in the second part, that part opens, among the
    timers and calls of the challenges, with the settle wait of 30
    seconds. *)
Theorem batch_provisions_then_verifies userOpts w :
  exists provisioning rest : list event,
    trace (Batch.auto rt c userOpts w) = provisioning ++ rest /\
    (Auto.verifyCalls provisioning = [] /\ Auto.completeCalls provisioning = [] /\
     omap Steps.waiting provisioning = [] /\ Auto.removeCalls provisioning = []) /\
    Auto.createCalls rest = [] /\
    (Auto.verifyCalls rest <> [] \/ Auto.completeCalls rest <> [] ->
     head (omap Auto.challengeEvent rest) = Some (Auto.Sleep 30000)).
Proof.
  rewrite Batch_auto_split. set (o := Auto.assign Auto.defaultOpts userOpts).
  pose proof (prepare_bookkeeping rt c o w) as Hq.
  assert (Hqw : quiet (@Steps.waiting Order Certificate Buffer Rec) (Auto.prepare rt c o))
    by quiet_tac.
  specialize (Hqw w).
  destruct (bookkeeping_projections _ Hq) as (_ & Hr & _ & Hv & Hk).
  unfold bind at 1.
  destruct (Auto.prepare rt c o w) as [[[p|v] wp] tp] eqn:Ep; cbn [trace snd] in *.
  2:{ exists tp, []. rewrite app_nil_r. repeat split; auto. intros [H|H]; now contradiction H. }
  destruct (Batch_issue_phases o p.1.1 p.1.2 p.2 wp) as (rs & w0 & t0 & Hsel & Hrun).
  pose proof (selectPhase_bookkeeping c o p.2 wp) as Hq0.
  assert (Hqw0 : quiet (@Steps.waiting Order Certificate Buffer Rec)
                   (startAll (map (Batch.challengePromise c o) p.2))) by quiet_tac.
  specialize (Hqw0 wp). rewrite Hsel in Hq0, Hqw0. cbn [trace snd] in Hq0, Hqw0.
  destruct (bookkeeping_projections _ Hq0) as (_ & Hr0 & _ & Hv0 & Hk0).
  destruct (Batch.issue c o p.1.1 p.1.2 p.2 wp) as [[ri wi] ti] eqn:Ei.
  cbn [trace snd] in *.
  destruct (joinAll rs) as [infos|v].
  2:{ injection Hrun as _ _ ->. exists (tp ++ t0), []. rewrite app_nil_r.
      unfold Auto.verifyCalls, Auto.completeCalls, Auto.removeCalls in *.
      rewrite !omap_app, Hr, Hv, Hk, Hqw, Hr0, Hv0, Hk0, Hqw0.
      repeat split; auto. intros [H|H]; now contradiction H. }
  destruct Hrun as (outs & w1 & t1 & tail & Hcreate & Hlen & Hc & Htrace & Htail).
  cbn zeta in *. subst ti.
  set (items := zip_with Batch.itemOf infos outs) in *.
  set (g := Batch.verifyOrLog c o items w1) in *.
  set (r := Batch.removeAll o items (final g)) in *.
  exists (tp ++ t0 ++ t1), (trace g ++ trace r ++ tail).
  split; [now rewrite <- !app_assoc|].
  assert (Hq1 : forall X (f : event -> option X),
             (forall l m a, f (Auto.Logger l m a) = None) ->
             (forall ms, f (Auto.Sleep ms) = None) ->
             (forall a ch k r, f (Auto.ChallengeCreateFn a ch k r) = None) ->
             omap f t1 = []).
  { intros X f H1 H2 H3.
    assert (Hq1 : quiet f (startAll (imap (createPromise o) infos))).
    { unfold Batch.challengeCreatePromise, Auto.logger_info, Auto.logger_error, Auto.sleep.
      repeat first
        [ apply quiet_ret
        | apply quiet_emit; solve [apply H1|apply H2]
        | apply quiet_call; intros; apply H3
        | apply quiet_bind; [|intros]
        | apply quiet_tryCatch; [|intros]
        | apply quiet_startAll
        | match goal with
          | |- Forall _ (imap _ _) => apply Forall_imap_intro; intros
          end ]. }
    specialize (Hq1 w0). now rewrite Hcreate in Hq1. }
  assert (Htl : forall X (f : event -> option X),
             (forall l m a, f (Auto.Logger l m a) = None) ->
             (forall or cs r, f (Auto.FinalizeOrder or cs r) = None) ->
             (forall or ch r, f (Auto.GetCertificate or ch r) = None) ->
             omap f tail = []).
  { intros X f H1 H2 H3. destruct Htail as [->|[w2 ->]]; [reflexivity|].
    now apply finalize_quiet. }
  split; [|split].
  - unfold Auto.verifyCalls, Auto.completeCalls, Auto.removeCalls in *.
    rewrite !omap_app, Hr, Hv, Hk, Hqw, Hr0, Hv0, Hk0, Hqw0, !Hq1 by reflexivity.
    repeat split.
  - unfold Auto.createCalls. rewrite !omap_app.
    subst g r. rewrite (verifyOrLog_quiet c _ o items) by reflexivity.
    rewrite (removeAll_quiet _ o) by reflexivity.
    now rewrite Htl.
  - intros Hsome.
    destruct (List.filter Batch.isError items) as [|it l] eqn:E.
    + destruct (verifyOrLog_wait o items w1 E) as (e & rest & He & Hg).
      fold g in Hg. rewrite Hg. cbn. now rewrite He.
    + exfalso.
      destruct (verifyOrLog_stops o items w1) as [Hvg Hkg]; [now rewrite E|].
      fold g in Hvg, Hkg.
      unfold Auto.verifyCalls, Auto.completeCalls in *.
      rewrite !omap_app, Hvg, Hkg, !Htl in Hsome by reflexivity.
      subst r. rewrite !(removeAll_quiet _ o) in Hsome by reflexivity.
      destruct Hsome as [H|H]; now contradiction H.
Qed.

(** X18: the inline orchestrator awaits no timer: its hooks are
    called without the stagger and its verification without the settle
    wait of the batch orchestrator. *)
Theorem inline_awaits_no_timer userOpts w :
  omap Steps.timer (trace (Inline.auto rt c userOpts w)) = [].
Proof.
  rewrite Inline_auto_split.
  apply (quiet_bind Steps.timer); [quiet_tac|intros p; quiet_tac].
Qed.
End Completion.
(** * Provisioning and cleanup, call by call *)

Section StepFacts.
Context {Order Certificate Buffer Rec : Type}.
Abbreviation event := (Auto.event Order Certificate Buffer Rec).
Abbreviation step := (Steps.step Rec).
Abbreviation hookStep := (@Steps.hookStep Order Certificate Buffer Rec).
Abbreviation tickOf := (@Steps.stepTick Rec).
Abbreviation creationOf := (@Steps.stepCreation Rec).
Abbreviation removalOf := (@Steps.stepRemoval Rec).

(** The removals the [finally] block makes, read off the creation calls. *)
Lemma removals_of_items (infos : list (ChallengeInfo.t Rec)) (outs : list (outcome Rec)) :
  map Batch.removalArgs (List.filter Batch.isRecord (zip_with Batch.itemOf infos outs))
  = omap Batch.removalOf (zip_with Batch.callOf infos outs).
Proof.
  revert outs. induction infos as [|ci infos IH]; intros [|r outs]; try reflexivity.
  cbn [zip_with]. destruct r as [rec|[| |s|name message]]; cbn; rewrite ?IH; try reflexivity.
  destruct (eqb s []); cbn; now rewrite IH.
Qed.

(** The elements of [hasError], read off the creation calls. *)
Lemma errors_of_items (infos : list (ChallengeInfo.t Rec)) (outs : list (outcome Rec)) :
  List.filter Batch.isError (zip_with Batch.itemOf infos outs)
  = map Batch.Caught
      (List.filter instanceofError (omap Auto.failureOf (zip_with Batch.callOf infos outs))).
Proof.
  revert outs. induction infos as [|ci infos IH]; intros [|r outs]; try reflexivity.
  cbn [zip_with]. destruct r as [rec|v]; cbn; [apply IH|].
  destruct (instanceofError v); cbn; now rewrite IH.
Qed.

(** A list of steps is known from its timeline and from the arguments
    of its creation and removal calls. *)
Lemma steps_unique (l1 l2 : list step) :
  map tickOf l1 = map tickOf l2 ->
  omap creationOf l1 = omap creationOf l2 ->
  omap removalOf l1 = omap removalOf l2 ->
  l1 = l2.
Proof.
  revert l2. induction l1 as [|s1 l1 IH]; intros [|s2 l2]; try easy.
  destruct s1, s2; cbn; intros Hm Hc Hr; try discriminate.
  - injection Hm as -> Hm. f_equal. now apply IH.
  - injection Hm as Hm. injection Hc as -> -> -> Hc. f_equal. now apply IH.
  - injection Hm as Hm. injection Hr as -> -> -> -> Hr. f_equal. now apply IH.
Qed.

Lemma timeline_of_steps (t : list event) :
  map tickOf (omap hookStep t) = Auto.timeline t.
Proof.
  unfold Auto.timeline. induction t as [|e t IH]; [reflexivity|].
  destruct e; cbn; rewrite ?IH; try reflexivity; exact IH.
Qed.

Lemma creations_of_steps (t : list event) :
  omap creationOf (omap hookStep t)
  = map (fun call : Authz.t * Challenge.t * jsstring * outcome Rec =>
           (call.1.1.1, call.1.1.2, call.1.2)) (Auto.createCalls t).
Proof.
  unfold Auto.createCalls. induction t as [|e t IH]; [reflexivity|].
  destruct e; cbn; rewrite ?IH; try reflexivity; exact IH.
Qed.

Lemma removals_of_steps (t : list event) :
  omap removalOf (omap hookStep t) = Auto.removeCalls t.
Proof.
  unfold Auto.removeCalls. induction t as [|e t IH]; [reflexivity|].
  destruct e; cbn; rewrite ?IH; try reflexivity; exact IH.
Qed.

Lemma staggered_timeline (hook : Auto.tick) (calls : list step) :
  Forall (fun s => tickOf s = hook) calls ->
  map tickOf (Steps.staggeredSteps calls) = Auto.staggered hook (length calls).
Proof.
  unfold Steps.staggeredSteps, Auto.staggered. intros Hall.
  enough (H : forall g : nat -> nat,
             map tickOf (concat (imap (fun i call => [Steps.Wait (N.of_nat (g i) * 2000); call])
                                      calls))
             = flat_map (fun i => [Auto.Timer (N.of_nat (g i) * 2000); hook])
                        (seq 0 (length calls))) by apply (H (fun i => i)).
  induction Hall as [|s calls Hs _ IH]; intros g; [reflexivity|].
  change (length (s :: calls)) with (S (length calls)).
  rewrite flat_map_seq_S. cbn. rewrite Hs. do 2 f_equal. apply (IH (fun i => g (S i))).
Qed.

Lemma staggered_calls {X} (f : step -> option X) (calls : list step) :
  (forall ms, f (Steps.Wait ms) = None) ->
  omap f (Steps.staggeredSteps calls) = omap f calls.
Proof.
  unfold Steps.staggeredSteps. intros Hwait.
  enough (H : forall g : nat -> nat,
             omap f (concat (imap (fun i call => [Steps.Wait (N.of_nat (g i) * 2000); call])
                                  calls))
             = omap f calls) by apply (H (fun i => i)).
  induction calls as [|s calls IH]; intros g; [reflexivity|].
  cbn. rewrite Hwait. destruct (f s); [f_equal|]; apply (IH (fun i => g (S i))).
Qed.

Lemma creation_steps (calls : list (Authz.t * Challenge.t * jsstring * outcome Rec)) :
  omap creationOf (map Steps.creationStep calls)
  = map (fun call : Authz.t * Challenge.t * jsstring * outcome Rec =>
           (call.1.1.1, call.1.1.2, call.1.2)) calls /\
  omap removalOf (map Steps.creationStep calls) = [].
Proof.
  induction calls as [|call calls [IH1 IH2]]; [easy|].
  cbn. now rewrite IH1, IH2.
Qed.

Lemma removal_steps
    (removals : list (option Authz.t * option Challenge.t * option jsstring * option Rec)) :
  omap removalOf (map Steps.removalStep removals) = removals /\
  omap creationOf (map Steps.removalStep removals) = [].
Proof.
  induction removals as [|[[[a ch] k] r] removals [IH1 IH2]]; [easy|].
  cbn. now rewrite IH1, IH2.
Qed.
End StepFacts.

Section Provisioning.
Context {World Order Certificate Buffer Rec : Type}.
Variable rt : Auto.runtime World Buffer.
Variable c : Auto.client World Order Certificate Buffer.
Abbreviation event := (Auto.event Order Certificate Buffer Rec).
Abbreviation opts := (Auto.opts World Buffer Rec).
Abbreviation property := (Auto.property World Buffer Rec).
Implicit Types (o : opts) (w : World) (userOpts : list property).
Abbreviation failedRemoval := (@Steps.failedRemoval Order Certificate Buffer Rec).
Abbreviation failedKey := (@Steps.failedKey Order Certificate Buffer Rec).
Abbreviation removeAll := (@Batch.removeAll World Order Certificate Buffer Rec).
Abbreviation selected :=
  (fun (o : opts) (authz : Authz.t) (call : Authz.t * Challenge.t * jsstring * outcome Rec) =>
     Auto.selectChallenge (Auto.challengePriority o) authz = Ok (call.1.1.1, call.1.1.2)).

(** *** Selection succeeds unless a challenge or a key is missing *)

Lemma selectChallenge_some priority (authz : Authz.t) :
  Authz.challenges authz <> [] ->
  exists a ch, Auto.selectChallenge priority authz = Ok (a, ch).
Proof.
  intros Hne. rewrite selectChallenge_first.
  destruct (Array.firstMin _ _) as [ch|] eqn:E; [eauto|].
  apply firstMin_None in E. contradiction.
Qed.

Lemma challengePromise_succeeds o (authz : Authz.t) w :
  Authz.challenges authz <> [] ->
  omap failedKey (trace (Batch.challengePromise c o authz w)) = [] ->
  isOk (result (Batch.challengePromise c o authz w)) = true.
Proof.
  intros Hne. destruct (selectChallenge_some (Auto.challengePriority o) authz Hne)
    as (a & ch & Hsel).
  unfold Batch.challengePromise, bind, ofOutcome, call, Auto.logger_info, emit, ret,
    trace, result.
  rewrite Hsel.
  destruct (Auto.getChallengeKeyAuthorization c ch w) as [[k|v] w1]; cbn; [reflexivity|].
  discriminate.
Qed.

Lemma selectPhase_succeeds o (authorizations : list Authz.t) w rs w' (t : list event) :
  Forall (fun a => Authz.challenges a <> []) authorizations ->
  startAll (map (Batch.challengePromise c o) authorizations) w = (Ok rs, w', t) ->
  omap failedKey t = [] ->
  exists infos, joinAll rs = Ok infos.
Proof.
  intros Hall. revert w rs w' t.
  induction Hall as [|authz l Hne _ IH]; intros w rs w' t Hrun Hk.
  - injection Hrun as <- _ _. exists []. reflexivity.
  - cbn [map startAll] in Hrun. unfold bind at 1, settle in Hrun.
    pose proof (challengePromise_succeeds o authz w Hne) as Hok.
    unfold trace, result in Hok.
    destruct (Batch.challengePromise c o authz w) as [[r1 w1] t1]. cbn [fst snd] in Hok.
    unfold bind, ret in Hrun.
    destruct (startAll (map (Batch.challengePromise c o) l) w1) as [[[rs2|v] w2] t2] eqn:E2;
      [|discriminate].
    injection Hrun as <- <- <-. rewrite app_nil_r, omap_app in Hk.
    apply app_eq_nil in Hk as [Hk1 Hk2].
    destruct (IH _ _ _ _ E2 Hk2) as [infos Hinfos].
    specialize (Hok Hk1). destruct r1 as [ci|v]; [|discriminate].
    cbn [joinAll]. rewrite Hinfos. eauto.
Qed.

(** *** Every authorization gets its creation call *)

Lemma Forall2_calls o (authorizations : list Authz.t) (infos : list (ChallengeInfo.t Rec))
    (outs : list (outcome Rec)) :
  Forall2 (fun authz (ci : ChallengeInfo.t Rec) =>
             Auto.selectChallenge (Auto.challengePriority o) authz
               = Ok (ChallengeInfo.authz ci, ChallengeInfo.challenge ci))
          authorizations infos ->
  length outs = length infos ->
  Forall2 (selected o) authorizations (zip_with Batch.callOf infos outs).
Proof.
  intros Hsel. revert outs. induction Hsel as [|authz ci l infos Hs _ IH]; intros outs Hlen.
  - destruct outs; [constructor|discriminate].
  - destruct outs as [|r outs]; [discriminate|]. cbn [zip_with].
    constructor; [exact Hs|]. apply IH. now injection Hlen.
Qed.

Lemma Batch_issue_provisions o csr order (authorizations : list Authz.t) w :
  let t := trace (Batch.issue c o csr order authorizations w) in
  Forall (fun a => Authz.challenges a <> []) authorizations ->
  omap failedKey t = [] ->
  Forall2 (selected o) authorizations (Auto.createCalls t).
Proof.
  intros t Hall Hk. subst t.
  destruct (Batch_issue_provisioning c failedKey o csr order authorizations w)
    as (rs & w0 & t0 & Hsel & Hkeys); try reflexivity.
  destruct (Batch_issue_provisioning c
              (fun e : event => match e with
                                | Auto.ChallengeCreateFn a ch k r => Some (a, ch, k, r)
                                | _ => None
                                end) o csr order authorizations w)
    as (rs' & w0' & t0' & Hsel' & Hcalls); try reflexivity.
  rewrite Hsel in Hsel'. injection Hsel' as <- <- <-.
  rewrite Hkeys in Hk. apply app_eq_nil in Hk as [Hk0 _].
  destruct (selectPhase_succeeds o authorizations w rs w0 t0 Hall Hsel Hk0) as [infos Hjoin].
  rewrite Hjoin in Hcalls.
  pose proof (selectPhase_spec c o authorizations w rs w0 t0 infos Hsel Hjoin) as Hspec.
  pose proof (selectPhase_bookkeeping c o authorizations w) as Hq0.
  rewrite Hsel in Hq0. cbn [trace snd] in Hq0.
  destruct (bookkeeping_projections _ Hq0) as (Hc0 & _).
  destruct (createPhase_spec (Order:=Order) (Certificate:=Certificate) (Buffer:=Buffer)
              o infos (fun i => i) w0)
    as (outs & w1 & t1 & Hcreate & Hlen & _ & Hc & _).
  change (imap (fun i => Batch.challengeCreatePromise o i) infos)
    with (imap (Batch.challengeCreatePromise (Order:=Order) (Certificate:=Certificate) o) infos)
    in Hcreate.
  rewrite Hcreate in Hcalls. cbn [trace snd] in Hcalls.
  unfold Auto.createCalls in *. rewrite Hcalls, Hc0, Hc. cbn [app].
  now apply Forall2_calls.
Qed.

Lemma selected_identifier o (authz : Authz.t)
    (call : Authz.t * Challenge.t * jsstring * outcome Rec) :
  selected o authz call -> Authz.identifier call.1.1.1 = Authz.identifier authz.
Proof.
  unfold Auto.selectChallenge. destruct (Array.sort _ _); [discriminate|].
  intros [= <- _]. reflexivity.
Qed.

Lemma Batch_auto_provisions userOpts w (authorizations : list Authz.t) :
  let o := Auto.assign Auto.defaultOpts userOpts in
  let t := trace (Batch.auto rt c userOpts w) in
  Auto.authorizationLists t = [authorizations] ->
  Forall (fun a => Authz.challenges a <> []) authorizations ->
  omap failedKey t = [] ->
  Forall2 (selected o) authorizations (Auto.createCalls t).
Proof.
  intros o t Hl Hall Hk. subst t. rewrite Batch_auto_split in *. fold o in Hl, Hk |- *.
  apply attempt_listed in Hl as (csr & order & w1 & tp & Hp & Hrun);
    [|intros p; apply Batch_issue_account; reflexivity].
  rewrite Hrun in Hk |- *. cbn [trace snd fst] in Hk |- *.
  pose proof (prepare_bookkeeping rt c o w) as Hq. rewrite Hp in Hq. cbn [trace snd] in Hq.
  destruct (bookkeeping_projections _ Hq) as (Hc & _).
  rewrite omap_app in Hk. apply app_eq_nil in Hk as [_ Hk].
  unfold Auto.createCalls in *. rewrite omap_app, Hc. cbn [app].
  now apply Batch_issue_provisions.
Qed.

(** C8: in the batch orchestrator, when every authorization offers a
    challenge and the client gives a key authorization for each, the
    creation hook is called once for every authorization, in their order,
    with the authorization of that domain and the challenge selected for
    it.  The timers and hook calls of an attempt are then, and in any
    case: every creation call right after a timer of [i * 2000] ms, [i]
    being its index; the settle wait, if any; and, for every creation
    call that returned a record (and for every one that threw a value
    that is kept as if it were one), a removal call, with the arguments
    of the creation call and the record, right after a timer of
    [j * 2000] ms, [j] being its index among the removals. *)
Theorem hooks_are_staggered userOpts w :
  let o := Auto.assign Auto.defaultOpts userOpts in
  let t := trace (Batch.auto rt c userOpts w) in
  let creations := Auto.createCalls t in
  (forall authorizations,
      Auto.authorizationLists t = [authorizations] ->
      Forall (fun authz => Authz.challenges authz <> []) authorizations ->
      omap Steps.failedKey t = [] ->
      Forall2 (fun authz (call : Authz.t * Challenge.t * jsstring * outcome Rec) =>
                 Authz.identifier call.1.1.1 = Authz.identifier authz /\
                 Auto.selectChallenge (Auto.challengePriority o) authz
                   = Ok (call.1.1.1, call.1.1.2))
              authorizations creations) /\
  exists settleWait,
    (settleWait = [] \/ settleWait = [Steps.Wait 30000]) /\
    omap Steps.hookStep t
    = Steps.staggeredSteps (map Steps.creationStep creations)
        ++ settleWait
        ++ Steps.staggeredSteps (map Steps.removalStep (omap Batch.removalOf creations)).
Proof.
  intros o t creations. split.
  - intros authorizations Hl Hall Hk.
    pose proof (Batch_auto_provisions userOpts w authorizations Hl Hall Hk) as H.
    fold o t creations in H. clear -H.
    induction H as [|authz call l calls Hs _ IH]; constructor; [|exact IH].
    split; [now apply (selected_identifier o)|exact Hs].
  - assert (Hgoal : forall settle : list (Steps.step Rec),
               Auto.timeline t
               = Auto.staggered Auto.CreateCall (length creations)
                   ++ map (@Steps.stepTick Rec) settle
                   ++ Auto.staggered Auto.RemoveCall
                        (length (omap Batch.removalOf creations)) ->
               Auto.removeCalls t = omap Batch.removalOf creations ->
               Forall (fun s : Steps.step Rec => Steps.stepCreation s = None /\ Steps.stepRemoval s = None)
                 settle ->
               omap Steps.hookStep t
               = Steps.staggeredSteps (map Steps.creationStep creations)
                   ++ settle
                   ++ Steps.staggeredSteps
                        (map Steps.removalStep (omap Batch.removalOf creations))).
    { intros settle Htl Hrm Hsettle.
      assert (Hs1 : omap (@Steps.stepCreation Rec) settle = [] /\ omap (@Steps.stepRemoval Rec) settle = []).
      { clear -Hsettle. induction Hsettle as [|s l [H1 H2] _ [IH1 IH2]]; [easy|].
        cbn [omap list_omap]. now rewrite H1, H2. }
      destruct Hs1 as [Hs1 Hs2].
      destruct (creation_steps creations) as [Hc1 Hc2].
      destruct (removal_steps (omap Batch.removalOf creations)) as [Hr1 Hr2].
      apply steps_unique.
      - rewrite timeline_of_steps, Htl, !map_app.
        rewrite (staggered_timeline Auto.CreateCall), (staggered_timeline Auto.RemoveCall),
          !length_map; [reflexivity| |];
          apply List.Forall_map, Forall_forall; intros; reflexivity.
      - rewrite creations_of_steps, !omap_app, Hs1.
        rewrite !staggered_calls by reflexivity.
        fold creations. now rewrite Hc1, Hr2, app_nil_r.
      - rewrite removals_of_steps, !omap_app, Hs2.
        rewrite !staggered_calls by reflexivity.
        now rewrite Hc2, Hr1, Hrm. }
    subst creations t.
    destruct (Batch_auto_summary rt c userOpts w)
      as [(Hc & Hr & Ht & _)|(authorizations & infos & outs & Hsum)].
    + exists []. split; [now left|]. apply Hgoal; [|now rewrite Hc, Hr|constructor].
      now rewrite Hc, Ht.
    + cbn zeta in Hsum. destruct Hsum as (_ & _ & Hlen & _ & Hc & Hr & Ht & _).
      exists (match List.filter Batch.isError (zip_with Batch.itemOf infos outs) with
              | [] => [Steps.Wait 30000]
              | _ => []
              end).
      split; [destruct (List.filter Batch.isError _); auto|].
      apply Hgoal;
        [|now rewrite Hr, Hc, removals_of_items
         |destruct (List.filter Batch.isError _); repeat constructor].
      rewrite Ht, Hc, <- removals_of_items, length_map, length_zip_with, Hlen, Nat.min_id.
      destruct (List.filter Batch.isError _); reflexivity.
Qed.


(** *** How the removal block ends *)

Lemma removePromise_result o index (it : Batch.item Rec) w :
  Batch.isRecord it = true ->
  let run := Batch.removePromise (Order:=Order) (Certificate:=Certificate) o index it w in
  match omap failedRemoval (trace run) with
  | [] => result run = Ok tt
  | [v] => result run = if nullish v then Throw (Steps.unreadable v) else Ok tt
  | _ => False
  end.
Proof.
  intros Hrec run. subst run.
  destruct (destructure_record (Order:=Order) (Certificate:=Certificate) (Buffer:=Buffer)
              (lit "authz") it w Hrec)
    as [d Hd].
  remember (Batch.removePromise o index it w) as x eqn:Ex.
  unfold Batch.removePromise, bind at 1, Auto.sleep, emit in Ex. unfold bind at 1 in Ex.
  rewrite Hd in Ex. cbn [Batch.f_authz Batch.f_challenge Batch.f_keyAuthorization
                         Batch.f_record Batch.f_domain] in Ex.
  rewrite triggerRemove_run in Ex. cbn zeta in Ex.
  destruct (Auto.challengeRemoveFn o _ _ _ _ w) as [[[]|e] w1]; cbn [fst snd] in Ex;
    [subst x; reflexivity|].
  destruct e; subst x; reflexivity.
Qed.

Lemma removePhase_result o (items : list (Batch.item Rec)) (g : nat -> nat) w :
  Forall (fun it => Batch.isRecord it = true) items ->
  exists rs w' (t : list event),
    startAll (imap (fun i => Batch.removePromise (Order:=Order) (Certificate:=Certificate)
                               o (g i)) items) w = (Ok rs, w', t) /\
    ((Forall (fun v => nullish v = false) (omap failedRemoval t) /\ isOk (joinAll rs) = true) \/
     (exists v, In v (omap failedRemoval t) /\ nullish v = true /\
                joinAll rs = Throw (Steps.unreadable v))).
Proof.
  intros Hrec. revert g w. induction Hrec as [|it items Hit _ IH]; intros g w.
  - exists [], w, []. split; [reflexivity|]. left. split; [constructor|reflexivity].
  - pose proof (removePromise_result o (g 0) it w Hit) as H1. cbn zeta in H1.
    change (imap (fun i => Batch.removePromise o (g i)) (it :: items))
      with (Batch.removePromise (Order:=Order) (Certificate:=Certificate) o (g 0) it
              :: imap (fun i => Batch.removePromise o (g (S i))) items).
    cbn [startAll]. unfold bind at 1, settle.
    destruct (Batch.removePromise o (g 0) it w) as [[r1 w1] t1].
    unfold trace, result in H1. cbn [fst snd] in H1.
    destruct (IH (fun i => g (S i)) w1) as (rs & w' & t & Hrun & Hres).
    unfold bind. rewrite Hrun. cbn [ret].
    exists (r1 :: rs), w', (t1 ++ t ++ []). split; [reflexivity|].
    rewrite app_nil_r, omap_app.
    destruct (omap failedRemoval t1) as [|v [|v' l]]; [| |contradiction].
    + subst r1. cbn [app joinAll].
      destruct Hres as [[Hall Hok]|(v & Hin & Hv & Hj)].
      * left. split; [exact Hall|]. now destruct (joinAll rs).
      * right. exists v. rewrite Hj. auto.
    + destruct (nullish v) eqn:Ev; subst r1; cbn [app joinAll].
      * right. exists v. split; [now left|]. auto.
      * destruct Hres as [[Hall Hok]|(v' & Hin & Hv & Hj)].
        -- left. split; [now constructor|]. now destruct (joinAll rs).
        -- right. exists v'. rewrite Hj. split; [now right|]. auto.
Qed.

Lemma removeAll_result o (items : list (Batch.item Rec)) w :
  let r := Batch.removeAll (Order:=Order) (Certificate:=Certificate) o items w in
  (Forall (fun v => nullish v = false) (omap failedRemoval (trace r)) /\ result r = Ok tt) \/
  (exists v, In v (omap failedRemoval (trace r)) /\ nullish v = true /\
             result r = Throw (Steps.unreadable v)).
Proof.
  assert (Hrec : Forall (fun it => Batch.isRecord it = true)
                   (List.filter Batch.isRecord items)).
  { apply Forall_forall. intros it Hin. apply list_elem_of_In, filter_In in Hin. tauto. }
  destruct (removePhase_result o _ (fun i => i) w Hrec) as (rs & w' & t & Hrun & Hres).
  assert (Hx : Batch.removeAll (Order:=Order) (Certificate:=Certificate) o items w
               = (match joinAll rs with Ok _ => Ok tt | Throw v => Throw v end, w', t)).
  { unfold Batch.removeAll, bind at 1.
    change (imap (Batch.removePromise o) (List.filter Batch.isRecord items))
      with (imap (fun i => Batch.removePromise (Order:=Order) (Certificate:=Certificate) o i)
                 (List.filter Batch.isRecord items)).
    rewrite Hrun. unfold bind, PromiseAll, ofOutcome, ret.
    destruct (joinAll rs); now rewrite ?app_nil_r. }
  cbn zeta. rewrite Hx. unfold trace, result. cbn [fst snd].
  destruct Hres as [[Hall Hok]|(v & Hin & Hv & Hj)].
  - left. destruct (joinAll rs); [|discriminate]. auto.
  - right. exists v. rewrite Hj. auto.
Qed.

(** *** A creation failure that is an [Error] *)

Lemma bookkeeping_removals (t : list event) :
  omap Auto.challengeEvent t = [] -> omap failedRemoval t = [].
Proof. apply challengeEvent_none. intros e; destruct e; simpl; intros; congruence. Qed.

Lemma removeCalls_failedRemoval (t : list event) :
  Auto.removeCalls t = [] -> omap failedRemoval t = [].
Proof.
  apply omap_nil_mono. intros e; destruct e; simpl; intros; congruence.
Qed.

Lemma Batch_issue_aborted o csr order (authorizations : list Authz.t) w e rest :
  let x := Batch.issue c o csr order authorizations w in
  List.filter instanceofError (Auto.createFailures (trace x)) = e :: rest ->
  Steps.aborted e x.
Proof.
  intros x Hf. subst x.
  destruct (Batch_issue_run c o csr order authorizations w) as (rs & w0 & t0 & Hsel & Hrun).
  pose proof (selectPhase_bookkeeping c o authorizations w) as Hq0.
  rewrite Hsel in Hq0. cbn [trace snd] in Hq0.
  destruct (bookkeeping_projections _ Hq0) as (Hc0 & _).
  pose proof (bookkeeping_removals _ Hq0) as Hr0.
  destruct (joinAll rs) as [infos|v].
  2:{ rewrite Hrun in Hf. cbn [trace snd] in Hf. unfold Auto.createFailures in Hf.
      rewrite Hc0 in Hf. discriminate. }
  destruct Hrun as (outs & w1 & t1 & (Hlen & _ & Hc1 & Hr1 & _) & Hx). cbn zeta in Hx.
  set (items := zip_with Batch.itemOf infos outs) in *.
  set (g := Batch.verifyOrLog c o items w1) in *.
  assert (Hcg : Auto.createCalls (trace g) = []).
  { apply (verifyOrLog_quiet c _ o items); reflexivity. }
  destruct (removeAll_run (Order:=Order) (Certificate:=Certificate) o items (final g))
    as (out & w2 & tr & Hrm & _ & _ & Hcr & _).
  pose proof (finalize_bookkeeping c o order csr (final (removeAll o items (final g))))
    as Hqf.
  destruct (bookkeeping_projections _ Hqf) as (Hcf & _).
  assert (Hcalls : Auto.createCalls (trace (Batch.issue c o csr order authorizations w))
                   = zip_with Batch.callOf infos outs).
  { rewrite Hx. rewrite Hrm in *. cbn [trace result final fst snd] in *.
    unfold Auto.createCalls in *.
    destruct out as [[]|v]; [destruct (result g)|]; cbn [trace snd];
      rewrite !omap_app, Hc0, Hc1, Hcg, Hcr, ?Hcf, ?app_nil_r; reflexivity. }
  unfold Auto.createFailures in Hf. rewrite Hcalls in Hf.
  pose proof (errors_of_items infos outs) as Herr. rewrite Hf in Herr. cbn [map] in Herr.
  fold items in Herr.
  pose proof (verifyOrLog_abort c o items e _ w1 Herr) as Hg. fold g in Hg.
  pose proof (removeAll_result o items (final g)) as Hres. cbn zeta in Hres.
  unfold Steps.aborted. rewrite Hx. clear Hx Hcalls Hrm Hcg Hqf Hcf.
  rewrite Hg in *. cbn [trace result final fst snd] in *.
  destruct (removeAll o items w1) as [[rr wr] tr'].
  unfold trace, result in *. cbn [fst snd] in *.
  destruct Hres as [[Hall ->]|(v & Hin & Hv & ->)]; cbn [fst snd];
    rewrite !omap_app, Hr0, (removeCalls_failedRemoval _ Hr1); cbn [omap list_omap app];
    [left|right; exists v]; auto.
Qed.

Lemma Batch_auto_aborted userOpts w e rest :
  let x := Batch.auto rt c userOpts w in
  List.filter instanceofError (Auto.createFailures (trace x)) = e :: rest ->
  Steps.aborted e x.
Proof.
  intros x Hf. subst x. rewrite Batch_auto_split in *.
  set (o := Auto.assign Auto.defaultOpts userOpts) in *.
  pose proof (prepare_bookkeeping rt c o w) as Hq.
  destruct (Auto.prepare rt c o w) as [[[p|v] w1] tp] eqn:Ep; cbn [trace snd] in Hq.
  2:{ rewrite (bind_throw_run _ _ _ _ _ _ Ep) in Hf. cbn [trace snd] in Hf.
      destruct (bookkeeping_projections _ Hq) as (Hc & _).
      unfold Auto.createFailures in Hf. rewrite Hc in Hf. discriminate. }
  destruct (bookkeeping_projections _ Hq) as (Hc & _).
  rewrite (bind_ok_run _ _ _ _ _ _ Ep) in Hf |- *. cbn [trace snd fst] in Hf.
  unfold Auto.createFailures, Auto.createCalls in Hf, Hc. rewrite omap_app, Hc in Hf.
  cbn [app] in Hf.
  pose proof (Batch_issue_aborted o p.1.1 p.1.2 p.2 w1 e rest Hf) as Ha.
  unfold Steps.aborted in *. cbn [trace result snd fst].
  rewrite omap_app, (bookkeeping_removals _ Hq). exact Ha.
Qed.

End Provisioning.

(** ** The further properties on runs of the scenario *)

Lemma stripEnd_removes_trailing_whitespace_witness :
  let s := Scenario.keyAuthorization ++ [32%N; 10%N] in
  last (stripEnd s) = Some 116%N /\ isWhiteSpace 116%N = false.
Proof.
  intros s.
  assert (Hlast : last (stripEnd s) = Some 116%N) by (vm_compute; reflexivity).
  destruct (stripEnd_removes_trailing_whitespace s) as (_ & Hend & _).
  split; [exact Hlast|exact (Hend _ Hlast)].
Defined.

(** A custom suffix, and the body of the scenario. *)
Lemma http01_accepted_bodies_witness :
  let authz := Scenario.authorization "a.com" ["http-01"%string] in
  let challenge := Scenario.challenge "http-01" "a.com" in
  let ka := Scenario.keyAuthorization in
  let run := Verify.verifyHttpChallenge Scenario.net authz challenge ka
               (Some (lit "/acme/token-a.com")) tt in
  ka <> [] /\
  Verify.httpQueries (trace run) = [lit "http://a.com:80/acme/token-a.com"] /\
  result run = Ok true.
Proof.
  intros authz challenge ka run.
  assert (Hne : ka <> []) by (vm_compute; discriminate).
  assert (Hka : stripEnd ka = ka) by (vm_compute; reflexivity).
  pose proof (http01_accepted_bodies Scenario.net authz challenge ka
                (Some (lit "/acme/token-a.com")) tt) as Hthm.
  cbv zeta in Hthm. cbn [Verify.axios_get Scenario.net] in Hthm.
  destruct Hthm as (Hq & _ & _ & _ & Hbody).
  destruct (Hbody (ka ++ [10%N]) eq_refl Hne) as (Hiff & _).
  split; [exact Hne|]. split; [exact Hq|].
  apply Hiff. split; [exact Hka|]. exists [10%N]. split; [repeat constructor|reflexivity].
Defined.

(** A custom prefix: the alias of the scenario is followed all the same. *)
Lemma dns01_queries_witness :
  let authz := Scenario.authorization "a.com" ["dns-01"%string] in
  let challenge := Scenario.challenge "dns-01" "a.com" in
  let ka := Scenario.keyAuthorization in
  let run := Verify.verifyDnsChallenge Scenario.net authz challenge ka
               (Some (lit "_validation.")) tt in
  (In [ka] [[lit "another-order.thumbprint"]; [ka]] /\ In ka [ka]) /\
  Verify.cnameQueries (trace run) = [lit "_validation.a.com"] /\
  Verify.txtQueries (trace run) = [lit "challenges.example.net"] /\
  result run = Ok true.
Proof.
  intros authz challenge ka run.
  assert (H1 : In [ka] [[lit "another-order.thumbprint"]; [ka]]) by (right; left; reflexivity).
  assert (H2 : In ka [ka]) by (left; reflexivity).
  pose proof (dns01_queries Scenario.net authz challenge ka (Some (lit "_validation.")) tt)
    as Hthm.
  cbv zeta in Hthm. destruct Hthm as (Hc & Ht & _ & Hanswers).
  split; [exact (conj H1 H2)|]. split; [exact Hc|]. split; [exact Ht|].
  assert (Htxt : Verify.resolveTxtAsync Scenario.net (lit "challenges.example.net") tt
                 = (Ok [[lit "another-order.thumbprint"]; [ka]], tt))
    by (vm_compute; reflexivity).
  change (match Verify.resolveTxtAsync Scenario.net (lit "challenges.example.net") tt with
          | (Throw e, w') => result run = Throw e /\ final run = w'
          | (Ok answers, w') =>
              final run = w' /\
              (result run = Ok true <-> exists answer, In answer answers /\ In ka answer) /\
              (result run <> Ok true ->
               result run
               = Throw (Error (lit "Authorization not found in DNS TXT records for "
                                 ++ Identifier.value (Authz.identifier authz))))
          end) in Hanswers.
  rewrite Htxt in Hanswers. destruct Hanswers as (_ & Hiff & _).
  apply Hiff. exists [ka]. exact (conj H1 H2).
Defined.

(** [http-01] before [dns-01], and a type that is not listed after
    both. *)
Lemma byPriority_compares_ranks_witness :
  let priority := [lit "http-01"; lit "dns-01"] in
  let http := Scenario.challenge "http-01" "a.com" in
  let dns := Scenario.challenge "dns-01" "a.com" in
  let alpn := Scenario.challenge "tls-alpn-01" "a.com" in
  (Auto.rank priority http < Auto.rank priority dns /\
   indexOf priority (Challenge.type alpn) = (-1)%Z) /\
  (Auto.byPriority priority http dns < 0)%Z /\
  Auto.byPriority priority alpn dns = 1%Z /\
  Auto.byPriority priority alpn alpn = 1%Z.
Proof.
  intros priority http dns alpn.
  assert (Hrank : Auto.rank priority http < Auto.rank priority dns) by (vm_compute; lia).
  assert (Habsent : indexOf priority (Challenge.type alpn) = (-1)%Z) by (vm_compute; reflexivity).
  split; [exact (conj Hrank Habsent)|].
  split; [exact (proj2 (proj1 (byPriority_compares_ranks priority http dns)) Hrank)|].
  split.
  - exact (proj1 (proj2 (byPriority_compares_ranks priority alpn dns)) Habsent).
  - exact (proj1 (proj2 (byPriority_compares_ranks priority alpn alpn)) Habsent).
Defined.

(** Two [dns-01] challenges around an [http-01] one: the latter comes
    first, the former keep their order. *)
Lemma selection_is_stable_witness :
  let priority := [lit "http-01"; lit "dns-01"] in
  let first := Scenario.challenge "dns-01" "first" in
  let second := Scenario.challenge "dns-01" "second" in
  let http := Scenario.challenge "http-01" "a.com" in
  let sorted := {| Authz.identifier := Authz.identifier Cases.twice;
                   Authz.challenges := [http; first; second] |} in
  Auto.selectChallenge priority Cases.twice = Ok (sorted, http) /\
  List.filter (fun c => Auto.rank priority c =? 1) (Authz.challenges sorted) = [first; second].
Proof.
  intros priority first second http sorted.
  assert (Hsel : Auto.selectChallenge priority Cases.twice = Ok (sorted, http))
    by (vm_compute; reflexivity).
  split; [exact Hsel|].
  rewrite (selection_is_stable priority Cases.twice sorted http 1 Hsel).
  vm_compute. reflexivity.
Defined.

Lemma workingFn_failsWithErrors :
  Auto.failsWithErrors
    (Auto.challengeCreateFn (Auto.assign Auto.defaultOpts Scenario.workingOpts)).
Proof. intros a ch k w e. cbn. discriminate. Defined.

(** The scenario with a creation hook that works. *)
Lemma certificate_means_no_failure_witness :
  let batch := Batch.auto Scenario.rt Scenario.client Scenario.workingOpts tt in
  let inline := Inline.auto Scenario.rt Scenario.client Scenario.workingOpts tt in
  (result batch = Ok (lit "certificate") /\ result inline = Ok (lit "certificate") /\
   Auto.failsWithErrors
     (Auto.challengeCreateFn (Auto.assign Auto.defaultOpts Scenario.workingOpts))) /\
  Steps.failedCalls (trace batch) = [] /\ Auto.createFailures (trace batch) = [] /\
  Steps.failedCalls (trace inline) = [] /\ Auto.createFailures (trace inline) = [].
Proof.
  intros batch inline.
  assert (Hb : result batch = Ok (lit "certificate")) by (vm_compute; reflexivity).
  assert (Hi : result inline = Ok (lit "certificate")) by (vm_compute; reflexivity).
  destruct (certificate_means_no_failure Scenario.rt Scenario.client Scenario.workingOpts tt
              (lit "certificate")) as [Hbatch Hinline].
  destruct (Hbatch Hb) as [H1 H2]. destruct (Hinline Hi) as [H3 H4].
  split; [exact (conj Hb (conj Hi workingFn_failsWithErrors))|].
  exact (conj H1 (conj (H2 workingFn_failsWithErrors) (conj H3 H4))).
Defined.

Lemma skipped_verification_witness :
  Auto.skipChallengeVerification (Auto.assign Auto.defaultOpts Cases.skipping) = true /\
  Auto.verifyCalls (trace (Batch.auto Scenario.rt Scenario.client Cases.skipping tt)) = [] /\
  Auto.verifyCalls (trace (Inline.auto Scenario.rt Scenario.client Cases.skipping tt)) = [].
Proof.
  split; [reflexivity|].
  exact (skipped_verification Scenario.rt Scenario.client Cases.skipping tt eq_refl).
Defined.

(** The order is refused: the attempt ends on [createOrder]. *)
Lemma preparation_fails_fast_witness :
  let batch := Batch.auto Scenario.rt Cases.rateLimited Scenario.userOpts tt in
  let refusal := Error (lit "too many new orders recently") in
  let e := Auto.CreateOrder
             (Auto.orderPayload [lit "a.com"; lit "b.com"; lit "c.com"]) (Throw refusal) in
  (Steps.failedPreparation e = Some refusal /\ In e (trace batch)) /\
  result batch = Throw refusal /\ last (trace batch) = Some e /\
  Auto.createCalls (trace batch) = [] /\ Auto.removeCalls (trace batch) = [].
Proof.
  intros batch refusal e.
  assert (He : Steps.failedPreparation e = Some refusal) by reflexivity.
  assert (Hin : In e (trace batch)) by (vm_compute; tauto).
  split; [exact (conj He Hin)|].
  exact (proj1 (preparation_fails_fast Scenario.rt Cases.rateLimited Scenario.userOpts tt
                  e refusal He) Hin).
Defined.

Lemma missing_csr_witness :
  Auto.csr (Auto.assign Auto.defaultOpts Cases.withoutCsr) = Auto.CsrNull /\
  trace (Batch.auto Scenario.rt Scenario.client Cases.withoutCsr tt) = [] /\
  trace (Inline.auto Scenario.rt Scenario.client Cases.withoutCsr tt) = [].
Proof.
  split; [reflexivity|].
  destruct (missing_csr Scenario.rt Scenario.client Cases.withoutCsr tt eq_refl)
    as (_ & Hb & _ & _ & Hi & _).
  exact (conj Hb Hi).
Defined.

Lemma order_without_authorizations_witness :
  let batch := trace (Batch.auto Scenario.rt (Cases.clientListing []) Scenario.userOpts tt) in
  let inline := trace (Inline.auto Scenario.rt (Cases.clientListing []) Scenario.userOpts tt) in
  (Auto.authorizationLists batch = [[]] /\ Auto.authorizationLists inline = [[]]) /\
  Auto.timeline batch = [Auto.Timer 30000] /\ Auto.timeline inline = [] /\
  length (omap Steps.finalization batch) = 1 /\ length (omap Steps.finalization inline) = 1.
Proof.
  intros batch inline.
  assert (Hb : Auto.authorizationLists batch = [[]]) by (vm_compute; reflexivity).
  assert (Hi : Auto.authorizationLists inline = [[]]) by (vm_compute; reflexivity).
  destruct (order_without_authorizations Scenario.rt (Cases.clientListing [])
              Scenario.userOpts tt) as [Hbatch Hinline].
  destruct (Hbatch Hb) as (_ & _ & _ & _ & Htb & Hfb).
  destruct (Hinline Hi) as (_ & _ & _ & _ & Hti & Hfi).
  exact (conj (conj Hb Hi) (conj Htb (conj Hti (conj Hfb Hfi)))).
Defined.

(** [b.com] offers no challenge: nothing is provisioned for [a.com]
    either. *)
Lemma authorization_without_challenge_witness :
  let x := Batch.auto Scenario.rt (Cases.clientListing Cases.unchallenged)
             Scenario.userOpts tt in
  let authz := Scenario.authorization "b.com" [] in
  (Auto.authorizationLists (trace x) = [Cases.unchallenged] /\
   In authz Cases.unchallenged /\ Authz.challenges authz = []) /\
  isOk (result x) = false /\ Auto.createCalls (trace x) = [] /\
  Auto.removeCalls (trace x) = [].
Proof.
  intros x authz.
  assert (Hl : Auto.authorizationLists (trace x) = [Cases.unchallenged])
    by (vm_compute; reflexivity).
  assert (Hin : In authz Cases.unchallenged) by (right; left; reflexivity).
  destruct (authorization_without_challenge Scenario.rt (Cases.clientListing Cases.unchallenged)
              Scenario.userOpts tt Cases.unchallenged authz Hl Hin eq_refl)
    as (Hres & Hc & Hr & _).
  exact (conj (conj Hl (conj Hin eq_refl)) (conj Hres (conj Hc Hr))).
Defined.


Lemma challenges_advance_step_by_step_witness :
  let t := trace (Batch.auto Scenario.rt Scenario.client Scenario.workingOpts tt) in
  Auto.skipChallengeVerification (Auto.assign Auto.defaultOpts Scenario.workingOpts) = false /\
  omap Steps.waiting t ≡ₚ omap Steps.completed t /\
  omap Steps.completion t ≡ₚ omap Steps.verified t.
Proof.
  intros t.
  destruct (challenges_advance_step_by_step Scenario.rt Scenario.client Scenario.workingOpts tt
              t (or_introl eq_refl)) as [Hw Hc].
  exact (conj eq_refl (conj Hw (Hc eq_refl))).
Defined.

Lemma verification_follows_creation_witness :
  let batch := trace (Batch.auto Scenario.rt Scenario.client Scenario.workingOpts tt) in
  let inline := trace (Inline.auto Scenario.rt Scenario.client Scenario.userOpts tt) in
  (Auto.skipChallengeVerification (Auto.assign Auto.defaultOpts Scenario.workingOpts) = false /\
   Auto.skipChallengeVerification (Auto.assign Auto.defaultOpts Scenario.userOpts) = false /\
   Auto.createFailures batch = []) /\
  Auto.verifyCalls batch ≡ₚ omap Steps.provisioned batch /\
  Auto.verifyCalls inline ≡ₚ omap Steps.provisioned inline.
Proof.
  intros batch inline.
  assert (Hnone : Auto.createFailures batch = []) by (vm_compute; reflexivity).
  destruct (verification_follows_creation Scenario.rt Scenario.client Scenario.workingOpts tt
              eq_refl) as [Hb _].
  destruct (verification_follows_creation Scenario.rt Scenario.client Scenario.userOpts tt
              eq_refl) as [_ Hi].
  exact (conj (conj eq_refl (conj eq_refl Hnone)) (conj (Hb Hnone) Hi)).
Defined.

(** ** Provisioning and cleanup on the runs of the scenario *)



(** The batch run of the scenario with a creation hook that never fails:
    the hook is called for [a.com], [b.com] and [c.com], in that order. *)
Lemma hooks_are_staggered_witness :
  let o := Auto.assign Auto.defaultOpts Scenario.workingOpts in
  let t := trace (Batch.auto Scenario.rt Scenario.client Scenario.workingOpts tt) in
  (Auto.authorizationLists t = [Scenario.authorizations] /\
   Forall (fun authz => Authz.challenges authz <> []) Scenario.authorizations /\
   omap Steps.failedKey t = []) /\
  Forall2 (fun authz (call : Authz.t * Challenge.t * jsstring * outcome jsstring) =>
             Authz.identifier call.1.1.1 = Authz.identifier authz /\
             Auto.selectChallenge (Auto.challengePriority o) authz
               = Ok (call.1.1.1, call.1.1.2))
          Scenario.authorizations (Auto.createCalls t) /\
  map Steps.stepTick (omap Steps.hookStep t)
  = [Auto.Timer 0; Auto.CreateCall; Auto.Timer 2000; Auto.CreateCall;
     Auto.Timer 4000; Auto.CreateCall;
     Auto.Timer 30000;
     Auto.Timer 0; Auto.RemoveCall; Auto.Timer 2000; Auto.RemoveCall;
     Auto.Timer 4000; Auto.RemoveCall].
Proof.
  intros o t.
  assert (Hl : Auto.authorizationLists t = [Scenario.authorizations])
    by (vm_compute; reflexivity).
  assert (Hall : Forall (fun authz => Authz.challenges authz <> []) Scenario.authorizations)
    by (repeat constructor; discriminate).
  assert (Hk : omap Steps.failedKey t = []) by (vm_compute; reflexivity).
  destruct (hooks_are_staggered Scenario.rt Scenario.client Scenario.workingOpts tt)
    as [Hevery (settleWait & _ & Hsteps)].
  split; [exact (conj Hl (conj Hall Hk))|].
  split; [exact (Hevery _ Hl Hall Hk)|].
  vm_compute. reflexivity.
Defined.

(** C4 fails for a removal hook that rejects with [undefined]: reading
    [e.message] in the [catch] block of the removal throws a [TypeError],
    which the [finally] block lets out.  An attempt that would have
    returned the certificate then fails with that [TypeError], and an
    attempt that failed with the error of the creation hook fails with
    the [TypeError] instead. *)
Lemma removal_failure_replaces_the_outcome :
  let auto := Batch.auto Scenario.rt Scenario.client in
  let auto' := Inline.auto Scenario.rt Scenario.client in
  let unreadable :=
    TypeError (lit "Cannot read properties of undefined (reading 'message')") in
  (result (auto Scenario.workingOpts tt) = Ok (lit "certificate") /\
   result (auto Cases.workingButRejecting tt) = Throw unreadable) /\
  (result (auto' Scenario.workingOpts tt) = Ok (lit "certificate") /\
   result (auto' Cases.workingButRejecting tt) = Throw unreadable) /\
  (result (auto Scenario.userOpts tt) = Throw (Error (lit "Error: boom")) /\
   result (auto Cases.rejecting tt) = Throw unreadable) /\
  (result (auto' Scenario.userOpts tt) = Throw (Error (lit "boom")) /\
   result (auto' Cases.rejecting tt) = Throw unreadable).
Proof. vm_compute. repeat split. Qed.
